(** * DeepOnto: syntax parser and recursive verbaliser for OWL expressions

    A shallow embedding of [deeponto/onto/verbalisation.py]:
    the operator abbreviator, the range tree ([RangeNode]) with its insertion
    procedure, the two-pass parenthesis parser ([OntologySyntaxParser]) and the
    recursive verbaliser ([OntologyVerbaliser]), followed by the properties
    established about them.

    Python values are modelled as follows.
    - [str] is [string]; offsets into a string are [Z], because the parser
      computes [start - 5], which may be negative.
    - The end of a range is an [int] or [math.inf]: the type [num].
    - Exceptions are values of [exn]; a computation that may raise returns
      [result]; a computation that may also print or log returns [M].
    - The children of a tree node (anytree's [NodeMixin]) are the ordered
      list held by the node; the parent pointer is the tree structure. *)

From Stdlib Require Import ZArith List String Ascii Bool Lia DecimalString Permutation.
Import ListNotations.

#[local] Set Warnings "-register-all".
#[local] Open Scope string_scope.
#[local] Open Scope Z_scope.

(* ================================================================== *)
(** ** Exceptions and results *)

Inductive exn : Type :=
| RuntimeError (msg : string)
| AssertionError (msg : string)
| IndexError
| ValueError
| UnboundLocalError
| RecursionError.

Inductive result (A : Type) : Type :=
| Ok (a : A)
| Err (e : exn).
Arguments Ok {A} a.
Arguments Err {A} e.

Definition rbind {A B : Type} (r : result A) (k : A -> result B) : result B :=
  match r with
  | Ok a => k a
  | Err e => Err e
  end.

(** What a call wrote to standard output ([print]) or to the logger, in
    order, together with its outcome.  Output written before an exception
    is raised stays written. *)
Definition M (A : Type) : Type := (list string * result A)%type.

Definition ret {A : Type} (a : A) : M A := ([], Ok a).
Definition raise {A : Type} (e : exn) : M A := ([], Err e).
Definition emit (line : string) : M unit := ([line], Ok tt).
Definition lift {A : Type} (r : result A) : M A := ([], r).

Definition bind {A B : Type} (m : M A) (k : A -> M B) : M B :=
  match m with
  | (out, Ok a) => let (out', r) := k a in ((out ++ out')%list, r)
  | (out, Err e) => (out, Err e)
  end.

Declare Scope py_scope.
Delimit Scope py_scope with py.
Notation "x <- m ;; k" := (bind m (fun x => k))
  (at level 61, m at next level, right associativity) : py_scope.
Notation "m ;;; k" := (bind m (fun _ => k))
  (at level 61, right associativity) : py_scope.

(** [for x in xs: acc = body(acc, x)] with exceptions and output. *)
Fixpoint for_each {A S : Type} (body : S -> A -> M S) (xs : list A) (acc : S) : M S :=
  match xs with
  | [] => ret acc
  | x :: xs' => bind (body acc x) (for_each body xs')
  end.

(** [[f(x) for x in xs]]. *)
Fixpoint map_m {A B : Type} (f : A -> M B) (xs : list A) : M (list B) :=
  match xs with
  | [] => ret []
  | x :: xs' => bind (f x) (fun y => bind (map_m f xs') (fun ys => ret (y :: ys)))
  end.

(* ================================================================== *)
(** ** Python string operations *)

Definition str_len (s : string) : Z := Z.of_nat (String.length s).

(** [s.startswith(p)]. *)
Definition startswith (s p : string) : bool := String.prefix p s.

Fixpoint drop (n : nat) (s : string) : string :=
  match n, s with
  | O, _ => s
  | S n', String _ s' => drop n' s'
  | S _, EmptyString => EmptyString
  end.

(** A slice index as Python normalises it: negative indices count from the
    end, and the result is clamped to [0, len]. *)
Definition norm_index (len i : Z) : Z :=
  if i <? 0 then Z.max 0 (i + len) else Z.min i len.

(** [s[a:b]]. *)
Definition slice (s : string) (a b : Z) : string :=
  let a' := norm_index (str_len s) a in
  let b' := norm_index (str_len s) b in
  String.substring (Z.to_nat a') (Z.to_nat (b' - a')) s.

(** [s[:n]] for a non-negative literal [n]. *)
Definition take (n : nat) (s : string) : string := String.substring 0 n s.

(** [s.lstrip(c)] for a one-character argument. *)
Fixpoint lstrip_char (c : ascii) (s : string) : string :=
  match s with
  | String a s' => if Ascii.eqb a c then lstrip_char c s' else s
  | EmptyString => EmptyString
  end.

(** [s.rstrip(c)] for a one-character argument. *)
Fixpoint rstrip_char (c : ascii) (s : string) : string :=
  match s with
  | EmptyString => EmptyString
  | String a s' =>
      match rstrip_char c s' with
      | EmptyString => if Ascii.eqb a c then EmptyString else String a EmptyString
      | r => String a r
      end
  end.

(** The ASCII characters [str.lstrip()] removes: space, tab, newline,
    vertical tab, form feed, carriage return and the four separators
    0x1c-0x1f. *)
Definition is_space (c : ascii) : bool :=
  let n := nat_of_ascii c in
  (Nat.eqb n 32 || (Nat.leb 9 n && Nat.leb n 13) || (Nat.leb 28 n && Nat.leb n 31))%bool.

(** [s.lstrip()]. *)
Fixpoint lstrip (s : string) : string :=
  match s with
  | String a s' => if is_space a then lstrip s' else s
  | EmptyString => EmptyString
  end.

(** [s.split(sep)] for a one-character separator: always a non-empty list,
    given as its first piece and the remaining ones. *)
Fixpoint split_char (sep : ascii) (s : string) : string * list string :=
  match s with
  | EmptyString => (EmptyString, [])
  | String a s' =>
      let (w, ws) := split_char sep s' in
      if Ascii.eqb a sep then (EmptyString, w :: ws) else (String a w, ws)
  end.

Definition split (sep : ascii) (s : string) : list string :=
  let (w, ws) := split_char sep s in w :: ws.

(** [sep.join(xs)]. *)
Fixpoint join (sep : string) (xs : list string) : string :=
  match xs with
  | [] => EmptyString
  | [x] => x
  | x :: xs' => x ++ sep ++ join sep xs'
  end.

(** [xs[-1]] of a list of strings; the default is never used on the result
    of [split]. *)
Definition last_piece (xs : list string) : string := List.last xs EmptyString.

(** [xs[:-1]]. *)
Definition all_but_last (xs : list string) : list string := List.removelast xs.

(** [str.replace(k, v)] for a non-empty [k]: the leftmost occurrences of
    [k], none overlapping another, each replaced by [v].  [skip] counts the
    characters of a matched occurrence still to be passed over. *)
Fixpoint replace_from (k v : string) (skip : nat) (s : string) : string :=
  match s with
  | EmptyString => EmptyString
  | String c s' =>
      match skip with
      | S n => replace_from k v n s'
      | O =>
          if String.prefix k s
          then v ++ replace_from k v (Nat.pred (String.length k)) s'
          else String c (replace_from k v O s')
      end
  end.

(** [s.replace(k, v)].  With an empty [k] Python puts [v] before every
    character and after the last one. *)
Definition replace (k v s : string) : string :=
  match k with
  | EmptyString =>
      v ++ String.concat EmptyString
             (List.map (fun c => String c v) (list_ascii_of_string s))
  | _ => replace_from k v O s
  end.

(** [str(n)] for an [int]. *)
Definition str_of_int (n : Z) : string := NilZero.string_of_int (Z.to_int n).

(** [x in xs] for strings. *)
Definition mem (x : string) (xs : list string) : bool :=
  List.existsb (String.eqb x) xs.

(** [t occurs in s]: [t] is a substring of [s]. *)
Definition occurs (t s : string) : Prop := exists a b, s = a ++ t ++ b.

Fixpoint occursb (t s : string) : bool :=
  (String.prefix t s ||
   match s with
   | EmptyString => false
   | String _ s' => occursb t s'
   end)%bool.


(* ================================================================== *)
(** ** Range nodes *)

(** The end of a range: an offset, or [math.inf] for the root. *)
Inductive num : Type :=
| Fin (z : Z)
| Inf.

Definition num_leb (a b : num) : bool :=
  match a, b with
  | Fin x, Fin y => x <=? y
  | _, Inf => true
  | Inf, Fin _ => false
  end.

Definition num_ltb (a b : num) : bool :=
  match a, b with
  | Fin x, Fin y => x <? y
  | Fin _, Inf => true
  | Inf, _ => false
  end.

Definition num_eqb (a b : num) : bool :=
  match a, b with
  | Fin x, Fin y => x =? y
  | Inf, Inf => true
  | _, _ => false
  end.

(** [str(x)]; [str(math.inf)] is ["inf"]. *)
Definition str_of_num (x : num) : string :=
  match x with
  | Fin z => str_of_int z
  | Inf => "inf"
  end.

(** [class RangeNode(NodeMixin)].  [text] and [is_iri] are the keyword
    arguments every construction site of the parser passes. *)
Inductive RangeNode : Type := mkRangeNode {
  start : Z;
  end_ : num;
  name : string;
  text : string;
  is_iri : bool;
  children : list RangeNode
}.

(** [RangeNode.__init__]; [name] is [None] or a string, and both [None] and
    the empty string are replaced by ["Root"]. *)
Definition RangeNode_init (start : Z) (end_ : num) (name : option string)
    (text : string) (is_iri : bool) : result RangeNode :=
  if num_leb end_ (Fin start)
  then Err (RuntimeError "invalid start and end positions ...")
  else
    let name0 :=
      match name with
      | None | Some EmptyString => "Root"
      | Some n => n
      end in
    Ok {| start := start;
          end_ := end_;
          name := name0 ++ "@[" ++ str_of_int start ++ ":" ++ str_of_num end_ ++ "]";
          text := text;
          is_iri := is_iri;
          children := [] |}.

(** The three values [__gt__] returns: [True], [False] and the string
    ["irrelevant"]. *)
Inductive comparison3 : Type :=
| CTrue
| CFalse
| CIrrelevant.

(** Truth value of a comparison result, as [if] takes it: a non-empty
    string is true. *)
Definition truthy (c : comparison3) : bool :=
  match c with
  | CTrue | CIrrelevant => true
  | CFalse => false
  end.

(** [self.__gt__(other)], that is [self > other]. *)
Definition __gt__ (self other : RangeNode) : result comparison3 :=
  if ((start self <=? start other) && num_leb (end_ other) (end_ self))%bool
  then Ok CTrue
  else if ((start other <=? start self) && num_leb (end_ self) (end_ other))%bool
  then Ok CFalse
  else if (num_ltb (end_ other) (Fin (start self)) ||
           num_ltb (end_ self) (Fin (start other)))%bool
  then Ok CIrrelevant
  else Err (RuntimeError "Compared ranges have a partial overlap.").

(** [a < b].  [RangeNode] defines no [__lt__], so Python evaluates the
    reflected [b.__gt__(a)]. *)
Definition __lt__ (a b : RangeNode) : result comparison3 := __gt__ b a.

(** [RangeNode.sort_by_start] takes a list of node objects.  The objects
    are the keys of the intermediate dictionary
    [{sib: sib.start for sib in nodes}], and [RangeNode] defines neither
    [__eq__] nor [__hash__], so an object the list names twice is one key.
    A list of objects is a list of addresses into a store. *)

(** The keys of the dictionary, in the order of their insertion: each
    address once, at the place where the list names it first. *)
Fixpoint dict_keys (nodes : list nat) : list nat :=
  match nodes with
  | [] => []
  | r :: rs => r :: List.filter (fun x => negb (Nat.eqb x r)) (dict_keys rs)
  end.

Section Store.
(** The node object at each address. *)
Variable store : nat -> RangeNode.

Fixpoint insert_ref (r : nat) (l : list nat) : list nat :=
  match l with
  | [] => [r]
  | m :: l' =>
      if start (store r) <=? start (store m) then r :: m :: l' else m :: insert_ref r l'
  end.

(** [RangeNode.sort_by_start(nodes)]: [sorted] is stable. *)
Definition sort_by_start_refs (nodes : list nat) : list nat :=
  List.fold_right insert_ref [] (dict_keys nodes).
End Store.

(** [RangeNode.sort_by_start] as [insert_child] calls it, on the children
    of a node with one more node: these are distinct objects, so the
    dictionary drops none of them, and the list of objects is given by the
    list of their values ([sort_by_start_refs] on a list that names no
    address twice, see [sort_by_start_refs_distinct]). *)
Fixpoint insert_by_start (n : RangeNode) (l : list RangeNode) : list RangeNode :=
  match l with
  | [] => [n]
  | m :: l' => if start n <=? start m then n :: m :: l' else m :: insert_by_start n l'
  end.

Definition sort_by_start (nodes : list RangeNode) : list RangeNode :=
  List.fold_right insert_by_start [] nodes.

(** [ch.parent = node]: [ch] leaves its old parent (handled by the loop
    below) and is appended to the children of [node]. *)
Definition adopt (node ch : RangeNode) : RangeNode :=
  {| start := start node; end_ := end_ node; name := name node;
     text := text node; is_iri := is_iri node;
     children := (children node ++ [ch])%list |}.

Definition set_children (self : RangeNode) (chs : list RangeNode) : RangeNode :=
  {| start := start self; end_ := end_ self; name := name self;
     text := text self; is_iri := is_iri self; children := chs |}.

Section InsertLoop.
(** The recursive call [ch.insert_child(node)]. *)
Variable insert_child : RangeNode -> RangeNode -> result RangeNode.

(** The [for ch in self.children] loop of [insert_child] and the
    [if not inserted] block after it.  [self.children] is a tuple copied
    when the loop starts: [todo] is what is left of it.  [kept] holds the
    children already visited that stay under [self]; [node] carries the
    children re-parented to it so far.  The result is the new children
    list of [self]. *)
Fixpoint insert_loop (todo kept : list RangeNode) (node : RangeNode)
    {struct todo} : result (list RangeNode) :=
  match todo with
  | [] => Ok (sort_by_start (kept ++ [node])%list)
  | ch :: rest =>
      match __lt__ node ch with
      | Err e => Err e
      | Ok CTrue =>
          match insert_child ch node with
          | Err e => Err e
          | Ok ch' => Ok (kept ++ ch' :: rest)%list
          end
      | Ok _ =>
          match __gt__ node ch with
          | Err e => Err e
          | Ok CTrue => insert_loop rest kept (adopt node ch)
          | Ok _ => insert_loop rest (kept ++ [ch])%list node
          end
      end
  end.
End InsertLoop.

(** [self.insert_child(node)], returning [self] as the call leaves it. *)
Fixpoint insert_child (self node : RangeNode) {struct self} : result RangeNode :=
  match __gt__ node self with
  | Err e => Err e
  | Ok c =>
      if truthy c then Err (RuntimeError "invalid child node")
      else if ((start node =? start self) && num_eqb (end_ node) (end_ self))%bool
      then Ok self
      else
        match self with
        | mkRangeNode s e nm tx iri chs =>
            match chs with
            | [] => Ok (mkRangeNode s e nm tx iri [node])
            | _ :: _ =>
                match insert_loop insert_child chs [] node with
                | Err e => Err e
                | Ok chs' => Ok (mkRangeNode s e nm tx iri chs')
                end
            end
        end
  end.

(** All nodes of a tree, the root first. *)
Fixpoint nodes (t : RangeNode) : list RangeNode :=
  match t with
  | mkRangeNode _ _ _ _ _ chs => t :: List.flat_map nodes chs
  end.

(* ================================================================== *)
(** ** The operator abbreviator *)

Definition ABBREVIATION_DICT : list (string * string) :=
  [ ("ObjectComplementOf", "[NEG]");
    ("ObjectSomeValuesFrom", "[EX.]");
    ("ObjectAllValuesFrom", "[ALL]");
    ("ObjectUnionOf", "[OR.]");
    ("ObjectIntersectionOf", "[AND]");
    ("ObjectPropertyChain", "[OPC]");
    ("EquivalentClasses", "[EQV]");
    ("SubClassOf", "[SUB]");
    ("SuperClassOf", "[SUP]");
    ("ClassAssertion", "[CLA]");
    ("SubObjectPropertyOf", "[SUB]");
    ("SuperObjectPropertyOf", "[SUP]");
    ("ObjectPropertyAssertion", "[OPA]");
    ("ObjectPropertyDomain", "[OPD]");
    ("DataPropertyDomain", "[DPD]");
    ("AnnotationPropertyDomain", "[APD]");
    ("ObjectPropertyRange", "[OPR]");
    ("DataPropertyRange", "[DPR]");
    ("AnnotationPropertyRange", "[APR]") ].

(** [for k, v in d.items(): owl_expression = owl_expression.replace(k, v)]. *)
Definition abbreviate_with (d : list (string * string)) (owl_expression : string) : string :=
  List.fold_left (fun e kv => replace (fst kv) (snd kv) e) d owl_expression.

(** [OntologySyntaxParser.abbreviate_owl_expression]. *)
Definition abbreviate_owl_expression (owl_expression : string) : string :=
  abbreviate_with ABBREVIATION_DICT owl_expression.

(* ================================================================== *)
(** ** The parser *)

(** The state of the scanning loop of [parse_by_parentheses]: the stack of
    offsets of opening brackets (the top first) and the tree built so far. *)
Record scan_state : Type := mkScan {
  stack : list Z;
  parsed : RangeNode
}.

Section Scan.
Variable owl_expression : string.
Variable for_iri : bool.

Definition left_par : ascii := if for_iri then "<"%char else "("%char.
Definition right_par : ascii := if for_iri then ">"%char else ")"%char.

(** The node built for the bracket pair opened at [start] and closed at
    [end]. *)
Definition node_of_pair (start end' : Z) : result RangeNode :=
  if for_iri then
    let abbr_iri :=
      rstrip_char ">" (last_piece (split "/" (slice owl_expression start (end' + 1)))) in
    RangeNode_init start (Fin (end' + 1)) (Some abbr_iri)
      (slice owl_expression start (end' + 1)) true
  else
    let real_start := start - 5 in
    let axiom_type := slice owl_expression (real_start + 1) (start - 1) in
    RangeNode_init real_start (Fin (end' + 1)) (Some axiom_type)
      (slice owl_expression real_start (end' + 1)) false.

(** One round of [for i, c in enumerate(owl_expression)].  Only
    [stack.pop()] can raise the [IndexError] the [try] catches. *)
Definition scan_step (st : scan_state) (i : Z) (c : ascii) : M scan_state :=
  let st1 :=
    if Ascii.eqb c left_par then mkScan (i :: stack st) (parsed st) else st in
  if Ascii.eqb c right_par then
    match stack st1 with
    | [] => (emit "Too many closing parentheses" ;;; ret st1)%py
    | start :: stack' =>
        (node <- lift (node_of_pair start i) ;;
         parsed' <- lift (insert_child (parsed st1) node) ;;
         ret (mkScan stack' parsed'))%py
    end
  else ret st1.

Fixpoint scan (cs : string) (i : Z) (st : scan_state) : M scan_state :=
  match cs with
  | EmptyString => ret st
  | String c cs' => (st' <- scan_step st i c ;; scan cs' (i + 1) st')%py
  end.

(** [OntologySyntaxParser.parse_by_parentheses]. *)
Definition parse_by_parentheses (already_parsed : option RangeNode) : M RangeNode :=
  (root <- match already_parsed with
           | None => lift (RangeNode_init 0 Inf (Some "Root") owl_expression false)
           | Some p => ret p
           end ;;
   st <- scan owl_expression 0 (mkScan [] root) ;;
   match stack st with
   | [] => ret (parsed st)
   | _ :: _ => raise (RuntimeError "Too many opening parentheses")
   end)%py.
End Scan.

(** [OntologySyntaxParser.parse], on the string form of the expression. *)
Definition parse (owl_expression : string) : M RangeNode :=
  let owl_expression := abbreviate_owl_expression owl_expression in
  (cur_parsed <- parse_by_parentheses owl_expression false None ;;
   parse_by_parentheses owl_expression true (Some cur_parsed))%py.

(* ================================================================== *)
(** ** The verbaliser *)

Definition PREPOSITIONS : list string :=
  [ "about"; "above"; "across"; "after"; "against"; "along"; "among";
    "around"; "at"; "before"; "behind"; "below"; "beneath"; "beside";
    "between"; "by"; "during"; "for"; "from"; "in"; "into"; "like"; "near";
    "of"; "off"; "on"; "over"; "through"; "to"; "under"; "up"; "with";
    "without" ].

(** The nested dictionaries ([CfgNode]) the verbaliser returns, one
    constructor for each set of keys it builds; ["type"] is ["IRI"] and
    ["NEG"] for the first two. *)
Inductive CfgNode : Type :=
| IriCfg (verbal iri : string)
| NegCfg (verbal : string) (class : CfgNode)
| RestrictionCfg (verbal : string) (property class : CfgNode) (type : string)
| JunctionCfg (verbal : string) (classes : list CfgNode) (type : string)
| PropertyCfg (verbal : string) (properties : list CfgNode) (type : string).

(** [c.verbal]. *)
Definition verbal (c : CfgNode) : string :=
  match c with
  | IriCfg v _ | NegCfg v _ | RestrictionCfg v _ _ _
  | JunctionCfg v _ _ | PropertyCfg v _ _ => v
  end.

(** What [_verbalise_restriction] returns: the keys ["verbal"],
    ["property"], ["class"] and ["type"]. *)
Record restriction : Type := mkRestriction {
  r_verbal : string;
  r_property : CfgNode;
  r_class : CfgNode;
  r_type : string
}.

Definition cfg_of_restriction (r : restriction) : CfgNode :=
  RestrictionCfg (r_verbal r) (r_property r) (r_class r) (r_type r).

(** The attributes of an [OntologyVerbaliser] the verbalisation reads.
    [vocab] is the dictionary from IRIs to names, its keys distinct. *)
Record OntologyVerbaliser : Type := mkVerbaliser {
  vocab : list (string * string);
  keep_iri : bool;
  apply_auto_correction : bool;
  add_quantifier_word : bool
}.

(** [d[k]] as an option: [None] is [KeyError]. *)
Fixpoint lookup (k : string) (d : list (string * string)) : option string :=
  match d with
  | [] => None
  | (k', v) :: d' => if String.eqb k' k then Some v else lookup k d'
  end.

(** [d[k] = v]. *)
Fixpoint update (k v : string) (d : list (string * string)) : list (string * string) :=
  match d with
  | [] => [(k, v)]
  | (k', v') :: d' => if String.eqb k' k then (k, v) :: d' else (k', v') :: update k v d'
  end.

(** [OntologyVerbaliser.update_entity_name]. *)
Definition update_entity_name (self : OntologyVerbaliser) (entity_iri entity_name : string)
    : OntologyVerbaliser :=
  {| vocab := update entity_iri entity_name (vocab self);
     keep_iri := keep_iri self;
     apply_auto_correction := apply_auto_correction self;
     add_quantifier_word := add_quantifier_word self |}.

(** A [defaultdict(list)] keyed by strings: the keys stay in the order of
    their first use. *)
Fixpoint dd_append {A : Type} (k : string) (v : A) (d : list (string * list A))
    : list (string * list A) :=
  match d with
  | [] => [(k, [v])]
  | (k', vs) :: d' =>
      if String.eqb k' k then (k', (vs ++ [v])%list) :: d' else (k', vs) :: dd_append k v d'
  end.

(** [s.endswith(p)]. *)
Definition endswith (s p : string) : bool :=
  String.eqb (drop (String.length s - String.length p) s) p.

(** [_fix_noun_phrase]. *)
Definition _fix_noun_phrase (noun_phrase : string) : string :=
  let words := split " " noun_phrase in
  if mem (last_piece words) PREPOSITIONS then join " " (all_but_last words)
  else noun_phrase.

(** A token of a spaCy document: its [pos_] and its [text]. *)
Record token : Type := mkToken { pos_ : string; tok_text : string }.

(** The argument of [verbalise_class_expression]: the string form of a
    class expression, or an already parsed one. *)
Inductive class_expression_arg : Type :=
| FromText (s : string)
| FromNode (n : RangeNode).

(** [str(class_expression)]; [RangeNode.__repr__] is the name. *)
Definition str_of_arg (a : class_expression_arg) : string :=
  match a with
  | FromText s => s
  | FromNode n => name n
  end.

(** The accumulators of the first loop of [_verbalise_junction]. *)
Record junction_acc : Type := mkAcc {
  existential_restriction_children : list (string * list restriction);
  universal_restriction_children : list (string * list restriction);
  other_children : list CfgNode
}.

(** The body of [for v in ...] in [_verbalise_junction], for the group
    [v0 :: vs] ([v] is never empty). *)
Definition merge_group (junction_word junction_type : string) (v0 : restriction)
    (vs : list restriction) : CfgNode :=
  match vs with
  | [] => cfg_of_restriction v0
  | _ :: _ =>
      let extend (acc : string) (vi : restriction) :=
        acc ++ (" " ++ junction_word ++ " ") ++ verbal (r_class vi) in
      RestrictionCfg
        (List.fold_left extend vs (r_verbal v0))
        (r_property v0)
        (JunctionCfg
           (List.fold_left extend vs (verbal (r_class v0)))
           (List.map r_class (v0 :: vs))
           junction_type)
        (r_type v0)
  end.

Definition merge_groups (junction_word junction_type : string)
    (groups : list (string * list restriction)) : list CfgNode :=
  List.flat_map
    (fun kv =>
       match snd kv with
       | [] => []
       | v0 :: vs => [merge_group junction_word junction_type v0 vs]
       end)
    groups.

(** The rendering at the end of [_verbalise_junction].  The value of
    [results.verbal.lstrip()] is not assigned, so the leading space of the
    first case stays. *)
Definition junction_verbal (junction_word : string)
    (other_children merged_children : list CfgNode) : string :=
  let sep := " " ++ junction_word ++ " " in
  match other_children with
  | [] => "" ++ " something that " ++ join sep (List.map verbal merged_children)
  | _ :: _ =>
      let v := "" ++ join sep (List.map verbal other_children) in
      match merged_children with
      | [] => v
      | _ :: _ =>
          if String.eqb junction_word "and"
          then v ++ " that " ++ join sep (List.map verbal merged_children)
          else if String.eqb junction_word "or"
          then v ++ " or something that " ++ join sep (List.map verbal merged_children)
          else v
      end
  end.

Section Verbaliser.
(** The spaCy pipeline [self.nlp]: the tokens of a phrase. *)
Variable nlp : string -> list token.
Variable self : OntologyVerbaliser.

(** [_fix_verb_phrase]; [doc[0]] raises [IndexError] on an empty
    document. *)
Definition _fix_verb_phrase (verb_phrase : string) : result string :=
  match nlp verb_phrase with
  | [] => Err IndexError
  | t :: _ =>
      if (String.eqb (pos_ t) "NOUN" || String.eqb (pos_ t) "ADJ" ||
          (String.eqb (pos_ t) "VERB" && endswith (tok_text t) "ed"))%bool
      then Ok ("is " ++ verb_phrase)
      else Ok verb_phrase
  end.

(** [_verbalise_iri]. *)
Definition _verbalise_iri (iri_node : RangeNode) (is_property : bool) : M CfgNode :=
  let iri := rstrip_char ">" (lstrip_char "<" (text iri_node)) in
  (verbal <- (if keep_iri self then ret (text iri_node)
              else match lookup iri (vocab self) with
                   | Some n => ret n
                   | None =>
                       emit ("Use full IRI as no vocab (defaults to `rdfs:label`) found for "
                             ++ iri ++ ". ") ;;;
                       ret (text iri_node)
                   end) ;;
   verbal <- (if apply_auto_correction self
              then if is_property then lift (_fix_verb_phrase verbal)
                   else ret (_fix_noun_phrase verbal)
              else ret verbal) ;;
   ret (IriCfg verbal iri))%py.

(** [_verbalise_property]. *)
Definition _verbalise_property (property_node : RangeNode) : M CfgNode :=
  if is_iri property_node then _verbalise_iri property_node true
  else
    (properties <- map_m (fun p => _verbalise_iri p true) (children property_node) ;;
     ret (PropertyCfg (join " something that " (List.map verbal properties))
            properties (take 3 (name property_node))))%py.

Section Recursion.
(** The recursive calls of [verbalise_class_expression]. *)
Variable verbalise_class_expression : class_expression_arg -> M CfgNode.

(** [_verbalise_restriction]. *)
Definition _verbalise_restriction (restriction_node : RangeNode) (add_something : bool)
    : M restriction :=
  if negb ((startswith (name restriction_node) "EX." ||
            startswith (name restriction_node) "ALL") &&
           (Nat.eqb (List.length (children restriction_node)) 2))%bool
  then raise (RuntimeError
    "Input range node is not related to a existential or universal restriction statement.")
  else
    match children restriction_node with
    | [object_property; class_expression] =>
        let quantifier_word :=
          if startswith (name restriction_node) "EX." then "some" else "only" in
        (object_property <- _verbalise_property object_property ;;
         class_expression <- verbalise_class_expression (FromText (text class_expression)) ;;
         let verbal0 :=
           if add_quantifier_word self
           then verbal object_property ++ " " ++ quantifier_word ++ " "
                ++ verbal class_expression
           else verbal object_property ++ " " ++ verbal class_expression in
         let verbal1 := lstrip verbal0 in
         let verbal2 := if add_something then "something that " ++ verbal1 else verbal1 in
         ret (mkRestriction verbal2 object_property class_expression
                (take 3 (name restriction_node))))%py
    | _ => raise IndexError
    end.

(** One round of [for child in junction_node.children]. *)
Definition junction_step (acc : junction_acc) (child : RangeNode) : M junction_acc :=
  if startswith (name child) "EX." then
    (child <- _verbalise_restriction child false ;;
     ret (mkAcc (dd_append (verbal (r_property child)) child
                   (existential_restriction_children acc))
            (universal_restriction_children acc)
            (other_children acc)))%py
  else if startswith (name child) "ALL" then
    (child <- _verbalise_restriction child false ;;
     ret (mkAcc (existential_restriction_children acc)
            (dd_append (verbal (r_property child)) child
               (universal_restriction_children acc))
            (other_children acc)))%py
  else
    (c <- verbalise_class_expression (FromNode child) ;;
     ret (mkAcc (existential_restriction_children acc)
            (universal_restriction_children acc)
            (other_children acc ++ [c])%list))%py.

(** [_verbalise_junction]. *)
Definition _verbalise_junction (junction_node : RangeNode) : M CfgNode :=
  if negb (startswith (name junction_node) "AND" ||
           startswith (name junction_node) "OR.")%bool
  then raise (RuntimeError
    "Input range node is not related to a conjunction or disjunction statement.")
  else
    let junction_word := if startswith (name junction_node) "AND" then "and" else "or" in
    (acc <- for_each junction_step (children junction_node) (mkAcc [] [] []) ;;
     let merged_children :=
       merge_groups junction_word (take 3 (name junction_node))
         (existential_restriction_children acc ++ universal_restriction_children acc)%list in
     ret (JunctionCfg
            (junction_verbal junction_word (other_children acc) merged_children)
            (other_children acc ++ merged_children)%list
            (take 3 (name junction_node))))%py.

(** The body of [verbalise_class_expression]. *)
Definition verbalise_class_expression_body (class_expression : class_expression_arg)
    : M CfgNode :=
  (parsed_class_expression <-
     match class_expression with
     | FromText s =>
         (root <- parse s ;;
          match children root with
          | [] => raise IndexError
          | c :: _ => ret c
          end)
     | FromNode n => ret n
     end ;;
   let nm := name parsed_class_expression in
   if is_iri parsed_class_expression then _verbalise_iri parsed_class_expression false
   else if startswith nm "NEG" then
     match children parsed_class_expression with
     | [] => raise IndexError
     | c :: _ =>
         cl <- verbalise_class_expression (FromNode c) ;;
         ret (NegCfg ("not " ++ verbal cl) cl)
     end
   else if (startswith nm "EX." || startswith nm "ALL")%bool then
     r <- _verbalise_restriction parsed_class_expression true ;;
     ret (cfg_of_restriction r)
   else if (startswith nm "AND" || startswith nm "OR")%bool then
     _verbalise_junction parsed_class_expression
   else if startswith nm "OPC" then _verbalise_property parsed_class_expression
   else raise (RuntimeError ("Input class expression `" ++ str_of_arg class_expression
                             ++ "` is not in one of the supported types.")))%py.
End Recursion.

(** [verbalise_class_expression].  [depth] bounds the nesting of the
    calls, as the interpreter's recursion limit does: a call that would
    nest deeper raises [RecursionError]. *)
Fixpoint verbalise_class_expression (depth : nat) (class_expression : class_expression_arg)
    : M CfgNode :=
  match depth with
  | O => raise RecursionError
  | S d => verbalise_class_expression_body (verbalise_class_expression d) class_expression
  end.
End Verbaliser.

(* ================================================================== *)
(** ** Axiom-level entry points *)

(** [a, b = xs]. *)
Definition unpack2 {A : Type} (xs : list A) : result (A * A) :=
  match xs with
  | [a; b] => Ok (a, b)
  | _ => Err ValueError
  end.

(** [a, b, c = xs]. *)
Definition unpack3 {A : Type} (xs : list A) : result (A * A * A) :=
  match xs with
  | [a; b; c] => Ok (a, b, c)
  | _ => Err ValueError
  end.

(** [xs[0]]. *)
Definition first_child (n : RangeNode) : result RangeNode :=
  match children n with
  | [] => Err IndexError
  | c :: _ => Ok c
  end.

(** [list(xs)] printed with [str]: the names are quoted. *)
Definition repr_list (xs : list string) : string :=
  "[" ++ join ", " (List.map (fun x => "'" ++ x ++ "'") xs) ++ "]".

Section Axioms.
(** The OWL API's axiom objects, their [str] and the ontology's
    [get_axiom_type]. *)
Variable OWLAxiom : Type.
Variable str_of_axiom : OWLAxiom -> string.
Variable get_axiom_type : OWLAxiom -> string.

Variable nlp : string -> list token.
Variable self : OntologyVerbaliser.
(** The bound on the nesting of [verbalise_class_expression]. *)
Variable depth : nat.

(** [_axiom_input_check]. *)
Definition _axiom_input_check (axiom : OWLAxiom) (required_axiom_types : list string)
    : M unit :=
  let axiom_type := get_axiom_type axiom in
  if mem axiom_type required_axiom_types then ret tt
  else raise (AssertionError ("Input axiom type `" ++ axiom_type ++ "` is not in "
                              ++ repr_list required_axiom_types ++ ".")).

(** [self.parser.parse(axiom).children[0]]. *)
Definition parse_axiom (axiom : OWLAxiom) : M RangeNode :=
  (root <- parse (str_of_axiom axiom) ;; lift (first_child root))%py.

Definition verbalise_class_subsumption_axiom (class_subsumption_axiom : OWLAxiom)
    : M (CfgNode * CfgNode) :=
  (_axiom_input_check class_subsumption_axiom ["SubClassOf"; "SuperClassOf"] ;;;
   parsed_subsumption_axiom <- parse_axiom class_subsumption_axiom ;;
   operands <-
     (if startswith (str_of_axiom class_subsumption_axiom) "SubClassOf" then
        p <- lift (unpack2 (children parsed_subsumption_axiom)) ;;
        ret (Some (fst p, snd p))
      else if startswith (str_of_axiom class_subsumption_axiom) "SuperClassOf" then
        p <- lift (unpack2 (children parsed_subsumption_axiom)) ;;
        ret (Some (snd p, fst p))
      else ret None) ;;
   match operands with
   | None => raise UnboundLocalError
   | Some (parsed_sub_class, parsed_super_class) =>
       verbalised_sub_class <-
         verbalise_class_expression nlp self depth (FromNode parsed_sub_class) ;;
       verbalised_super_class <-
         verbalise_class_expression nlp self depth (FromNode parsed_super_class) ;;
       ret (verbalised_sub_class, verbalised_super_class)
   end)%py.

Definition verbalise_class_equivalence_axiom (class_equivalence_axiom : OWLAxiom)
    : M (CfgNode * CfgNode) :=
  (_axiom_input_check class_equivalence_axiom ["EquivalentClasses"] ;;;
   parsed_equivalence_axiom <- parse_axiom class_equivalence_axiom ;;
   p <- lift (unpack2 (children parsed_equivalence_axiom)) ;;
   verbalised_left_class <- verbalise_class_expression nlp self depth (FromNode (fst p)) ;;
   verbalised_right_class <- verbalise_class_expression nlp self depth (FromNode (snd p)) ;;
   ret (verbalised_left_class, verbalised_right_class))%py.

Definition verbalise_class_assertion_axiom (class_assertion_axiom : OWLAxiom)
    : M (CfgNode * CfgNode) :=
  (_axiom_input_check class_assertion_axiom ["ClassAssertion"] ;;;
   parsed_equivalence_axiom <- parse_axiom class_assertion_axiom ;;
   p <- lift (unpack2 (children parsed_equivalence_axiom)) ;;
   verbalised_class <- verbalise_class_expression nlp self depth (FromNode (fst p)) ;;
   verbalised_individual <- _verbalise_iri nlp self (snd p) false ;;
   ret (verbalised_class, verbalised_individual))%py.

Definition verbalise_object_property_subsumption_axiom
    (object_property_subsumption_axiom : OWLAxiom) : M (CfgNode * CfgNode) :=
  (_axiom_input_check object_property_subsumption_axiom
     ["SubObjectPropertyOf"; "SuperObjectPropertyOf";
      "SubPropertyChainOf"; "SuperPropertyChainOf"] ;;;
   parsed_subsumption_axiom <- parse_axiom object_property_subsumption_axiom ;;
   operands <-
     (if startswith (str_of_axiom object_property_subsumption_axiom) "SubObjectPropertyOf"
      then
        p <- lift (unpack2 (children parsed_subsumption_axiom)) ;;
        ret (Some (fst p, snd p))
      else if startswith (str_of_axiom object_property_subsumption_axiom)
                "SuperObjectPropertyOf"
      then
        p <- lift (unpack2 (children parsed_subsumption_axiom)) ;;
        ret (Some (snd p, fst p))
      else ret None) ;;
   match operands with
   | None => raise UnboundLocalError
   | Some (parsed_sub_property, parsed_super_property) =>
       verbalised_sub_property <- _verbalise_property nlp self parsed_sub_property ;;
       verbalised_super_property <- _verbalise_property nlp self parsed_super_property ;;
       ret (verbalised_sub_property, verbalised_super_property)
   end)%py.

Definition verbalise_object_property_assertion_axiom
    (object_property_assertion_axiom : OWLAxiom) : M (CfgNode * CfgNode * CfgNode) :=
  (_axiom_input_check object_property_assertion_axiom ["ObjectPropertyAssertion"] ;;;
   parsed_object_property_assertion_axiom <- parse_axiom object_property_assertion_axiom ;;
   p <- lift (unpack3 (children parsed_object_property_assertion_axiom)) ;;
   let '(parsed_obj_prop, parsed_indiv_x, parsed_indiv_y) := p in
   verbalised_object_property <- _verbalise_iri nlp self parsed_obj_prop true ;;
   verbalised_individual_x <- _verbalise_iri nlp self parsed_indiv_x false ;;
   verbalised_individual_y <- _verbalise_iri nlp self parsed_indiv_y false ;;
   ret (verbalised_object_property, verbalised_individual_x, verbalised_individual_y))%py.

Definition verbalise_object_property_domain_axiom (object_property_domain_axiom : OWLAxiom)
    : M (CfgNode * CfgNode) :=
  (_axiom_input_check object_property_domain_axiom ["ObjectPropertyDomain"] ;;;
   parsed_object_property_domain_axiom <- parse_axiom object_property_domain_axiom ;;
   p <- lift (unpack2 (children parsed_object_property_domain_axiom)) ;;
   verbalised_object_property <- _verbalise_iri nlp self (fst p) true ;;
   verbalised_object_property_domain <-
     verbalise_class_expression nlp self depth (FromNode (snd p)) ;;
   ret (verbalised_object_property, verbalised_object_property_domain))%py.

Definition verbalise_object_property_range_axiom (object_property_range_axiom : OWLAxiom)
    : M (CfgNode * CfgNode) :=
  (_axiom_input_check object_property_range_axiom ["ObjectPropertyRange"] ;;;
   parsed_object_property_range_axiom <- parse_axiom object_property_range_axiom ;;
   p <- lift (unpack2 (children parsed_object_property_range_axiom)) ;;
   verbalised_object_property <- _verbalise_iri nlp self (fst p) true ;;
   verbalised_object_property_range <-
     verbalise_class_expression nlp self depth (FromNode (snd p)) ;;
   ret (verbalised_object_property, verbalised_object_property_range))%py.
End Axioms.

(* ================================================================== *)
(** ** Relations between ranges and the shape of a range tree *)

Definition num_le (a b : num) : Prop :=
  match a, b with
  | Fin x, Fin y => x <= y
  | _, Inf => True
  | Inf, Fin _ => False
  end.

Definition num_lt (a b : num) : Prop :=
  match a, b with
  | Fin x, Fin y => x < y
  | Fin _, Inf => True
  | Inf, _ => False
  end.

(** The range of [n] is not empty. *)
Definition valid (n : RangeNode) : Prop := num_lt (Fin (start n)) (end_ n).

(** The range of [a] fully contains the range of [b]. *)
Definition contains (a b : RangeNode) : Prop :=
  start a <= start b /\ num_le (end_ b) (end_ a).

(** The half-open ranges [[start, end)] of [a] and [b] share no offset. *)
Definition disjoint (a b : RangeNode) : Prop :=
  num_le (end_ a) (Fin (start b)) \/ num_le (end_ b) (Fin (start a)).

(** The ranges are apart in the sense of [__gt__]'s ["irrelevant"]. *)
Definition separated (a b : RangeNode) : Prop :=
  num_lt (end_ a) (Fin (start b)) \/ num_lt (end_ b) (Fin (start a)).

(** The ranges share an offset and neither contains the other. *)
Definition partial_overlap (a b : RangeNode) : Prop :=
  ~ contains a b /\ ~ contains b a /\ ~ disjoint a b.

(** The range of [c] lies in the range of [p] and differs from it. *)
Definition inside (p c : RangeNode) : Prop := contains p c /\ ~ contains c p.

Definition same_range (a b : RangeNode) : Prop :=
  start a = start b /\ end_ a = end_ b.

(** The shape every tree built by [insert_child] has. *)
Inductive well_formed : RangeNode -> Prop :=
| wf_node : forall n,
    valid n ->
    Forall (inside n) (children n) ->
    ForallOrdPairs separated (children n) ->
    Forall well_formed (children n) ->
    well_formed n.

(** The trees reached from a fresh node by successful insertions of fresh
    nodes. *)
Inductive built : RangeNode -> Prop :=
| built_init : forall s e nm tx iri root,
    RangeNode_init s e nm tx iri = Ok root -> built root
| built_insert : forall t s e nm tx iri node t',
    built t ->
    RangeNode_init s e nm tx iri = Ok node ->
    insert_child t node = Ok t' ->
    built t'.

Definition partial_overlap_error : exn :=
  RuntimeError "Compared ranges have a partial overlap.".

Definition invalid_child_error : exn := RuntimeError "invalid child node".

(** Every member of the first list is separated from every member of the
    second. *)
Definition apart (l1 l2 : list RangeNode) : Prop :=
  Forall (fun a => Forall (separated a) l2) l1.

(** What the induction on the tree gives for the children still to be
    visited. *)
Definition insertion_ok (ch : RangeNode) : Prop :=
  forall node ch',
    well_formed ch -> valid node -> children node = [] ->
    insert_child ch node = Ok ch' ->
    well_formed ch' /\ same_range ch' ch.

(** What the induction on the tree gives for a partially overlapping
    node. *)
Definition overlap_rejected (t : RangeNode) : Prop :=
  well_formed t ->
  forall node b, In b (nodes t) -> partial_overlap node b ->
  insert_child t node = Err partial_overlap_error.

(** What the induction on the tree gives for a node with the range of a
    node of the tree. *)
Definition duplicate_rejected (t : RangeNode) : Prop :=
  well_formed t ->
  forall node b, In b (nodes t) -> same_range node b ->
  insert_child t node = Err invalid_child_error.

(* ================================================================== *)
(** ** Bracket matching on the text alone *)

(** The offsets of the opening brackets still open after the characters
    [cs], the first of them at offset [i]: what the list [stack] of
    [parse_by_parentheses] holds, the last opened first. *)
Fixpoint unmatched (l r : ascii) (cs : string) (i : Z) (stk : list Z) : list Z :=
  match cs with
  | EmptyString => stk
  | String c cs' =>
      let stk1 := if Ascii.eqb c l then i :: stk else stk in
      let stk2 := if Ascii.eqb c r then List.tl stk1 else stk1 in
      unmatched l r cs' (i + 1) stk2
  end.

Definition too_many_opening : exn := RuntimeError "Too many opening parentheses".

(** The tree [parse_by_parentheses] starts from. *)
Definition initial_tree (owl_expression : string) (already_parsed : option RangeNode)
    : RangeNode :=
  match already_parsed with
  | Some p => p
  | None => mkRangeNode 0 Inf "Root@[0:inf]" owl_expression false []
  end.

(* ================================================================== *)
(** ** Keywords and tags of the abbreviation dictionary *)

(** [t] holds neither of the two square brackets. *)
Definition clean (t : string) : bool :=
  List.forallb (fun c => negb (Ascii.eqb c "[") && negb (Ascii.eqb c "]"))%bool
    (list_ascii_of_string t).

(** [v] is five characters long, the first ["["] and the last ["]"]. *)
Definition is_tag (v : string) : bool :=
  match v with
  | String a (String _ (String _ (String _ (String b EmptyString)))) =>
      (Ascii.eqb a "[" && Ascii.eqb b "]")%bool
  | _ => false
  end.

(** What the entries of [ABBREVIATION_DICT] have in common: a keyword of
    at least four characters without square brackets, and a tag. *)
Definition abbreviation (kv : string * string) : bool :=
  (clean (fst kv) && Nat.leb 4 (String.length (fst kv)) && is_tag (snd kv))%bool.

(* ================================================================== *)
(** ** Errors and diagnostics of the verbaliser *)

Definition restriction_shape_error : exn :=
  RuntimeError
    "Input range node is not related to a existential or universal restriction statement.".

(** The [AssertionError] of [_axiom_input_check]. *)
Definition axiom_type_error (axiom_type : string) (required_axiom_types : list string) : exn :=
  AssertionError ("Input axiom type `" ++ axiom_type ++ "` is not in "
                  ++ repr_list required_axiom_types ++ ".").

(** The IRI of an identifier leaf, without its angle brackets. *)
Definition iri_of (iri_node : RangeNode) : string :=
  rstrip_char ">" (lstrip_char "<" (text iri_node)).

(** The line [_verbalise_iri] logs for an IRI without a name. *)
Definition missing_name_warning (iri : string) : string :=
  "Use full IRI as no vocab (defaults to `rdfs:label`) found for " ++ iri ++ ". ".

(** ["classes"] of a junction result. *)
Definition classes (c : CfgNode) : list CfgNode :=
  match c with
  | JunctionCfg _ cs _ => cs
  | _ => []
  end.

(* ================================================================== *)
(** ** The children of a junction, verbalised *)

(** What the first loop of [_verbalise_junction] makes of a child: an
    existential restriction, a universal restriction, or anything else. *)
Inductive verbalised_child : Type :=
| Existential (r : restriction)
| Universal (r : restriction)
| OtherChild (c : CfgNode).

Definition existentials (rs : list verbalised_child) : list restriction :=
  List.flat_map (fun x => match x with Existential r => [r] | _ => [] end) rs.

Definition universals (rs : list verbalised_child) : list restriction :=
  List.flat_map (fun x => match x with Universal r => [r] | _ => [] end) rs.

Definition others (rs : list verbalised_child) : list CfgNode :=
  List.flat_map (fun x => match x with OtherChild c => [c] | _ => [] end) rs.

(** The key a restriction is grouped under: [child.property.verbal]. *)
Definition property_key (r : restriction) : string := verbal (r_property r).

(** The distinct strings of [ks], each at the place of its first
    occurrence. *)
Fixpoint first_occurrences (ks : list string) : list string :=
  match ks with
  | [] => []
  | k :: ks' => k :: List.filter (fun k' => negb (String.eqb k' k)) (first_occurrences ks')
  end.

(** The restrictions [rs] grouped by property: one group for each distinct
    key, the groups in the order of the first restriction with their key,
    and in a group the restrictions with that key, in the order of [rs]. *)
Definition group_by_property (rs : list restriction) : list (string * list restriction) :=
  List.map
    (fun k => (k, List.filter (fun r => String.eqb (property_key r) k) rs))
    (first_occurrences (List.map property_key rs)).

Section VerbalisedChildren.
Variable nlp : string -> list token.
Variable self : OntologyVerbaliser.
Variable verbalise_class_expression : class_expression_arg -> M CfgNode.

(** The verbalisation of one child of a junction node, by the prefix of
    its name. *)
Definition verbalise_child (child : RangeNode) : M verbalised_child :=
  if startswith (name child) "EX." then
    (r <- _verbalise_restriction nlp self verbalise_class_expression child false ;;
     ret (Existential r))%py
  else if startswith (name child) "ALL" then
    (r <- _verbalise_restriction nlp self verbalise_class_expression child false ;;
     ret (Universal r))%py
  else
    (c <- verbalise_class_expression (FromNode child) ;; ret (OtherChild c))%py.
End VerbalisedChildren.

(** The accumulators after one more verbalised child. *)
Definition absorb (acc : junction_acc) (x : verbalised_child) : junction_acc :=
  match x with
  | Existential r =>
      mkAcc (dd_append (property_key r) r (existential_restriction_children acc))
        (universal_restriction_children acc) (other_children acc)
  | Universal r =>
      mkAcc (existential_restriction_children acc)
        (dd_append (property_key r) r (universal_restriction_children acc))
        (other_children acc)
  | OtherChild c =>
      mkAcc (existential_restriction_children acc)
        (universal_restriction_children acc) (other_children acc ++ [c])%list
  end.

(** The merged children of a junction whose children were verbalised as
    [rs]: the groups of the existential restrictions, then the groups of the
    universal ones. *)
Definition merged_children (junction_word junction_type : string)
    (rs : list verbalised_child) : list CfgNode :=
  merge_groups junction_word junction_type
    (group_by_property (existentials rs) ++ group_by_property (universals rs))%list.

(** ["type"] of a result. *)
Definition cfg_type (c : CfgNode) : string :=
  match c with
  | IriCfg _ _ => "IRI"
  | NegCfg _ _ => "NEG"
  | RestrictionCfg _ _ _ t | JunctionCfg _ _ t | PropertyCfg _ _ t => t
  end.

(* ================================================================== *)
(** ** What a tree holds, and the order of siblings *)

(** What a node carries besides its children. *)
Definition label (n : RangeNode) : Z * num * string * string * bool :=
  (start n, end_ n, name n, text n, is_iri n).

(** The labels of all nodes of a tree, the root first. *)
Definition labels (t : RangeNode) : list (Z * num * string * string * bool) :=
  List.map label (nodes t).

Definition le_start (a b : RangeNode) : Prop := start a <= start b.

(** [a] ends before [b] starts, with a gap. *)
Definition before (a b : RangeNode) : Prop := num_lt (end_ a) (Fin (start b)).

(** In every list of children, a node that comes earlier starts no
    later. *)
Inductive ordered : RangeNode -> Prop :=
| ordered_node : forall n,
    ForallOrdPairs le_start (children n) ->
    Forall ordered (children n) ->
    ordered n.

(** What the induction on the tree gives for the labels. *)
Definition keeps_labels (t : RangeNode) : Prop :=
  forall node t',
    insert_child t node = Ok t' ->
    Permutation (labels t') (labels node ++ labels t).

(** What the induction on the tree gives for the order of siblings. *)
Definition keeps_order (t : RangeNode) : Prop :=
  forall node t',
    well_formed t -> ordered t -> valid node -> children node = [] ->
    insert_child t node = Ok t' ->
    ordered t'.

(* ================================================================== *)
(** ** What the parser puts into a tree *)

(** How often [c] occurs in [s]. *)
Fixpoint count_char (c : ascii) (s : string) : nat :=
  match s with
  | EmptyString => O
  | String a s' => ((if Ascii.eqb a c then 1 else 0) + count_char c s')%nat
  end.

(** The label of the root [parse_by_parentheses] creates. *)
Definition root_label (owl_expression : string) : Z * num * string * string * bool :=
  (0, Inf, "Root@[0:inf]", owl_expression, false).

(** The name [RangeNode.__init__] gives for the argument [name]. *)
Definition named (name : string) (suffix : string) : string :=
  match name with
  | EmptyString => "Root" ++ suffix
  | _ => name ++ suffix
  end.

(** What holds of the label of a node made by the scanning loop as soon as
    it is made: its text is the part of the expression from its start to its
    end, and its name starts with the three characters after its start. *)
Definition cut_from (owl_expression : string) (lb : Z * num * string * string * bool)
    : Prop :=
  let '(s, e, nm, tx, iri) := lb in
  lb = root_label owl_expression \/
  exists e',
    e = Fin e' /\ s < e' /\ e' <= str_len owl_expression /\
    tx = slice owl_expression s e' /\
    (iri = false ->
     s + 6 <= e' /\
     exists suffix, nm = named (slice owl_expression (s + 1) (s + 4)) suffix).

(** No character of [s] is [l] or [r]. *)
Definition free_of (l r : ascii) (s : string) : bool :=
  List.forallb (fun c => negb (Ascii.eqb c l) && negb (Ascii.eqb c r))%bool
    (list_ascii_of_string s).

(* ================================================================== *)
(** ** Results that do not depend on the recursion bound *)

(** The computation did not run into the recursion bound. *)
Definition settled {A : Type} (m : M A) : Prop := snd m <> Err RecursionError.

Definition junction_shape_error : exn :=
  RuntimeError "Input range node is not related to a conjunction or disjunction statement.".

(** The [RuntimeError] of [verbalise_class_expression]. *)
Definition unsupported_error (class_expression : class_expression_arg) : exn :=
  RuntimeError ("Input class expression `" ++ str_of_arg class_expression
                ++ "` is not in one of the supported types.").

(** A computation that has printed [out] and returns nothing. *)
Definition printed (out : list string) : M unit := (out, Ok tt).

(* ================================================================== *)
(** ** Closing brackets without an opening one *)

(** How many closing brackets [r] of [cs] have no opening bracket [l]
    before them that is still open, [depth] brackets being open at the
    start. *)
Fixpoint unmatched_closings (l r : ascii) (cs : string) (depth : nat) : nat :=
  match cs with
  | EmptyString => O
  | String c cs' =>
      let depth1 := if Ascii.eqb c l then S depth else depth in
      if Ascii.eqb c r then
        match depth1 with
        | O => S (unmatched_closings l r cs' O)
        | S depth' => unmatched_closings l r cs' depth'
        end
      else unmatched_closings l r cs' depth1
  end.

Definition too_many_closing : string := "Too many closing parentheses".

(* ================================================================== *)
(** * Properties *)

(** ** Ranges *)

Lemma num_leb_le a b : num_leb a b = true <-> num_le a b.
Proof. destruct a, b; simpl; try tauto; try (split; [discriminate | tauto]); apply Z.leb_le. Qed.

Lemma num_ltb_lt a b : num_ltb a b = true <-> num_lt a b.
Proof. destruct a, b; simpl; try tauto; try (split; [discriminate | tauto]); apply Z.ltb_lt. Qed.

Lemma num_eqb_eq a b : num_eqb a b = true <-> a = b.
Proof.
  destruct a, b; simpl; try (split; [discriminate | discriminate]); try tauto.
  rewrite Z.eqb_eq. split; [intros ->; reflexivity | intros [= ->]; reflexivity].
Qed.

(** Unfolds the relations between ranges and decides the resulting
    arithmetic, splitting on whether each end is [math.inf]. *)
Ltac ranges :=
  intros;
  unfold partial_overlap, inside, same_range, contains, disjoint, separated, valid,
    adopt, set_children in *;
  repeat match goal with
         | n : RangeNode |- _ => destruct n as [? [?|] ? ? ? ?]
         | e : num |- _ => destruct e
         end;
  simpl in *;
  repeat match goal with
         | H : _ /\ _ |- _ => destruct H
         | H : Fin _ = Fin _ |- _ => injection H as H
         | H : Fin _ = Inf |- _ => discriminate H
         | H : Inf = Fin _ |- _ => discriminate H
         end;
  subst; try tauto; try lia.

Lemma gt_true a b : __gt__ a b = Ok CTrue <-> contains a b.
Proof.
  unfold __gt__, contains.
  destruct (start a <=? start b) eqn:E1; destruct (num_leb (end_ b) (end_ a)) eqn:E2; simpl.
  - apply Z.leb_le in E1. apply num_leb_le in E2. tauto.
  - split.
    + repeat match goal with |- context [if ?c then _ else _] => destruct c end; discriminate.
    + intros [_ H]. apply num_leb_le in H. congruence.
  - split.
    + repeat match goal with |- context [if ?c then _ else _] => destruct c end; discriminate.
    + intros [H _]. apply Z.leb_le in H. congruence.
  - split.
    + repeat match goal with |- context [if ?c then _ else _] => destruct c end; discriminate.
    + intros [H _]. apply Z.leb_le in H. congruence.
Qed.

Lemma gt_false a b : __gt__ a b = Ok CFalse -> contains b a /\ ~ contains a b.
Proof.
  intros H. assert (N : ~ contains a b) by (rewrite <- gt_true; congruence).
  split; [|exact N]. revert H. unfold __gt__, contains.
  destruct ((start a <=? start b) && num_leb (end_ b) (end_ a))%bool; [discriminate|].
  destruct ((start b <=? start a) && num_leb (end_ a) (end_ b))%bool eqn:E.
  - intros _. apply andb_true_iff in E. destruct E as [E1 E2].
    apply Z.leb_le in E1. apply num_leb_le in E2. tauto.
  - destruct (_ || _)%bool; discriminate.
Qed.

Lemma gt_irrelevant a b :
  __gt__ a b = Ok CIrrelevant -> separated a b /\ ~ contains a b /\ ~ contains b a.
Proof.
  intros H. assert (N : ~ contains a b) by (rewrite <- gt_true; congruence).
  revert H. unfold __gt__.
  destruct ((start a <=? start b) && num_leb (end_ b) (end_ a))%bool; [discriminate|].
  destruct ((start b <=? start a) && num_leb (end_ a) (end_ b))%bool eqn:E; [discriminate|].
  destruct (num_ltb (end_ b) (Fin (start a)) || num_ltb (end_ a) (Fin (start b)))%bool eqn:E3;
    [|discriminate].
  intros _. split; [|split; [exact N|]].
  - apply orb_true_iff in E3. unfold separated.
    destruct E3 as [E3|E3]; apply num_ltb_lt in E3; tauto.
  - intros [C1 C2]. apply andb_false_iff in E.
    destruct E as [E|E]; [apply Z.leb_gt in E; lia|].
    apply num_leb_le in C2. congruence.
Qed.

Lemma gt_error a b e :
  __gt__ a b = Err e ->
  e = partial_overlap_error /\ ~ contains a b /\ ~ contains b a /\ ~ separated a b.
Proof.
  intros H. assert (N : ~ contains a b) by (rewrite <- gt_true; congruence).
  revert H. unfold __gt__.
  destruct ((start a <=? start b) && num_leb (end_ b) (end_ a))%bool; [discriminate|].
  destruct ((start b <=? start a) && num_leb (end_ a) (end_ b))%bool eqn:E; [discriminate|].
  destruct (num_ltb (end_ b) (Fin (start a)) || num_ltb (end_ a) (Fin (start b)))%bool eqn:E3;
    [discriminate|].
  intros [= <-]. split; [reflexivity|]. split; [exact N|]. split.
  - intros [C1 C2]. apply andb_false_iff in E.
    destruct E as [E|E]; [apply Z.leb_gt in E; lia|].
    apply num_leb_le in C2. congruence.
  - apply orb_false_iff in E3. destruct E3 as [F1 F2]. unfold separated.
    intros [S|S]; apply num_ltb_lt in S; congruence.
Qed.

Lemma gt_total a b :
  __gt__ a b = Ok CTrue \/ __gt__ a b = Ok CFalse \/ __gt__ a b = Ok CIrrelevant \/
  __gt__ a b = Err partial_overlap_error.
Proof.
  unfold __gt__, partial_overlap_error.
  repeat match goal with |- context [if ?c then _ else _] => destruct c end; tauto.
Qed.

Lemma separated_sym a b : separated a b -> separated b a.
Proof. unfold separated; tauto. Qed.

Lemma separated_disjoint a b : separated a b -> disjoint a b.
Proof. ranges. Qed.

(** ** Lists of siblings *)

Lemma RangeNode_forall_ind (P : RangeNode -> Prop) :
  (forall s e nm tx iri chs, Forall P chs -> P (mkRangeNode s e nm tx iri chs)) ->
  forall t, P t.
Proof.
  intros H. fix IH 1. intros [s e nm tx iri chs]. apply H.
  induction chs as [|c chs IHchs]; constructor; [apply IH | exact IHchs].
Qed.

Section Pairs.
Variable R : RangeNode -> RangeNode -> Prop.
Hypothesis R_sym : forall a b, R a b -> R b a.

Lemma pairs_app l1 l2 :
  ForallOrdPairs R (l1 ++ l2)%list <->
  ForallOrdPairs R l1 /\ ForallOrdPairs R l2 /\
  Forall (fun a => Forall (R a) l2) l1.
Proof.
  induction l1 as [|a l1 IH]; simpl.
  - split; [intros H; repeat split; [constructor | exact H | constructor] | tauto].
  - split.
    + intros H. inversion H as [|? ? Ha Hl]; subst.
      apply IH in Hl. destruct Hl as (H1 & H2 & H3).
      apply Forall_app in Ha. destruct Ha as [Ha1 Ha2].
      repeat split; [constructor; assumption | assumption | constructor; assumption].
    + intros (H1 & H2 & H3).
      inversion H1 as [|? ? Ha Hl]; subst. inversion H3; subst.
      constructor; [apply Forall_app; split; assumption | apply IH; tauto].
Qed.

Lemma pairs_in l a b :
  ForallOrdPairs R l -> In a l -> In b l -> a = b \/ R a b.
Proof.
  induction 1 as [|x l Hx Hl IH]; simpl; [tauto|].
  rewrite Forall_forall in Hx.
  intros [->|Ha] [->|Hb]; auto.
Qed.

Lemma in_insert_by_start n l x : In x (insert_by_start n l) <-> x = n \/ In x l.
Proof.
  induction l as [|m l IH]; simpl; [intuition congruence|].
  destruct (start n <=? start m); simpl; [intuition congruence|].
  rewrite IH. intuition congruence.
Qed.

Lemma in_sort_by_start l x : In x (sort_by_start l) <-> In x l.
Proof.
  induction l as [|n l IH]; simpl; [tauto|].
  rewrite in_insert_by_start, IH. intuition congruence.
Qed.

Lemma forall_sort_by_start (P : RangeNode -> Prop) l :
  Forall P (sort_by_start l) <-> Forall P l.
Proof.
  rewrite !Forall_forall. split; intros H x Hx; apply H; apply in_sort_by_start; exact Hx.
Qed.

Lemma pairs_insert_by_start n l :
  Forall (R n) l -> ForallOrdPairs R l -> ForallOrdPairs R (insert_by_start n l).
Proof.
  induction l as [|m l IH]; simpl; intros Hn Hl.
  - constructor; [constructor | constructor].
  - destruct (start n <=? start m).
    + constructor; assumption.
    + inversion Hn; subst. inversion Hl as [|? ? Hm Hl']; subst.
      constructor; [|apply IH; assumption].
      apply Forall_forall. intros x Hx. apply in_insert_by_start in Hx.
      destruct Hx as [->|Hx]; [apply R_sym; assumption|].
      rewrite Forall_forall in Hm. apply Hm. exact Hx.
Qed.

Lemma pairs_sort_by_start l :
  ForallOrdPairs R l -> ForallOrdPairs R (sort_by_start l).
Proof.
  induction l as [|n l IH]; simpl; intros H; [constructor|].
  inversion H; subst. apply pairs_insert_by_start; [|apply IH; assumption].
  apply forall_sort_by_start. assumption.
Qed.
End Pairs.

(** ** Insertion keeps a range tree well formed *)

Lemma insert_child_eq self node :
  insert_child self node =
  match __gt__ node self with
  | Err e => Err e
  | Ok c =>
      if truthy c then Err (RuntimeError "invalid child node")
      else if ((start node =? start self) && num_eqb (end_ node) (end_ self))%bool
      then Ok self
      else
        match children self with
        | [] => Ok (set_children self [node])
        | _ :: _ =>
            match insert_loop insert_child (children self) [] node with
            | Err e => Err e
            | Ok chs' => Ok (set_children self chs')
            end
        end
  end.
Proof. destruct self; reflexivity. Qed.

Lemma init_ok s e nm tx iri n :
  RangeNode_init s e nm tx iri = Ok n ->
  start n = s /\ end_ n = e /\ text n = tx /\ is_iri n = iri /\ children n = [] /\ valid n.
Proof.
  unfold RangeNode_init. destruct (num_leb e (Fin s)) eqn:E; [discriminate|].
  intros [= <-]. simpl. repeat split. unfold valid. simpl.
  destruct e as [z|]; simpl in *; [apply Z.leb_gt in E; lia | exact I].
Qed.

Lemma init_error s e nm tx iri :
  (exists x, RangeNode_init s e nm tx iri = Err x) <-> num_le e (Fin s).
Proof.
  unfold RangeNode_init. rewrite <- num_leb_le.
  destruct (num_leb e (Fin s)); split.
  - reflexivity.
  - intros _. eexists. reflexivity.
  - intros [x H]. discriminate.
  - discriminate.
Qed.

Lemma wf_valid n : well_formed n -> valid n.
Proof. inversion 1; assumption. Qed.

Lemma wf_leaf n : valid n -> children n = [] -> well_formed n.
Proof. intros V C. constructor; rewrite ?C; [exact V | constructor..]. Qed.


Lemma apart_tail l a l2 : apart l (a :: l2) -> apart l l2.
Proof.
  unfold apart. rewrite !Forall_forall. intros H x Hx.
  specialize (H x Hx). inversion H; assumption.
Qed.

Lemma apart_head l a l2 : apart l (a :: l2) -> apart l [a].
Proof.
  unfold apart. rewrite !Forall_forall. intros H x Hx.
  specialize (H x Hx). inversion H; subst. constructor; [assumption | constructor].
Qed.

Lemma pairs_snoc l a :
  ForallOrdPairs separated l -> apart l [a] -> ForallOrdPairs separated (l ++ [a])%list.
Proof.
  intros H1 H2. apply pairs_app. repeat split; [exact H1 | | exact H2].
  constructor; constructor.
Qed.

Lemma pairs_same_range l l' :
  Forall2 same_range l l' ->
  ForallOrdPairs separated l -> ForallOrdPairs separated l'.
Proof.
  induction 1 as [|a a' l l' Ha Hl IH]; intros H; [constructor|].
  inversion H as [|? ? Hx Hp]; subst. constructor; [|apply IH; exact Hp].
  clear IH Hp H. induction Hl as [|b b' l l' Hb Hl IH]; [constructor|].
  inversion Hx; subst. constructor; [|apply IH; assumption].
  clear - Ha Hb H1. ranges.
Qed.

Lemma same_range_refl_list l : Forall2 same_range l l.
Proof. induction l; constructor; [split; reflexivity | assumption]. Qed.

Lemma inside_same_range p c c' : same_range c' c -> inside p c -> inside p c'.
Proof. ranges. Qed.


Lemma insert_loop_wf self todo : forall kept node res,
    Forall insertion_ok todo ->
    valid node ->
    Forall well_formed todo -> Forall well_formed kept ->
    Forall well_formed (children node) ->
    Forall (inside self) todo -> Forall (inside self) kept -> inside self node ->
    Forall (inside node) (children node) ->
    ForallOrdPairs separated kept ->
    ForallOrdPairs separated (children node) ->
    ForallOrdPairs separated todo ->
    apart kept todo -> apart (children node) todo ->
    Forall (separated node) kept ->
    insert_loop insert_child todo kept node = Ok res ->
    Forall well_formed res /\ Forall (inside self) res /\ ForallOrdPairs separated res.
  Proof.
    induction todo as [|ch rest IH];
      intros kept node res Hok Vn Wt Wk Wc It Ik In Ic Pk Pc Pt Akt Act Snk; simpl.
    - intros [= <-]. split; [|split].
      + apply forall_sort_by_start. apply Forall_app. split; [exact Wk|].
        constructor; [|constructor]. constructor; assumption.
      + apply forall_sort_by_start. apply Forall_app. split; [exact Ik|].
        constructor; [exact In | constructor].
      + apply pairs_sort_by_start; [exact separated_sym|].
        apply pairs_snoc; [exact Pk|].
        unfold apart. rewrite Forall_forall in *. intros x Hx.
        constructor; [apply separated_sym; apply Snk; exact Hx | constructor].
    - inversion Hok as [|? ? Hch Hrest]; subst.
      inversion Wt as [|? ? Wch Wrest]; subst.
      inversion It as [|? ? Ich Irest]; subst.
      inversion Pt as [|? ? Sch Prest]; subst.
      unfold __lt__.
      destruct (__gt__ ch node) as [c1|e1] eqn:G1; [|discriminate].
      assert (Hc1 : c1 = CTrue \/ c1 <> CTrue) by (destruct c1; auto; right; discriminate).
      destruct Hc1 as [->|Hc1].
      + (* the node goes further down, into [ch] *)
        destruct (insert_child ch node) as [ch'|e] eqn:Eins; [|discriminate].
        intros [= <-].
        assert (Cn : children node = []).
        { destruct (children node) as [|r rs] eqn:Ec; [reflexivity|exfalso].
          apply gt_true in G1.
          inversion Ic as [|? ? Ir _]; subst.
          inversion Wc as [|? ? Wr _]; subst. apply wf_valid in Wr.
          inversion Act as [|? ? Sr _]; subst. inversion Sr as [|? ? Srch _]; subst.
          clear - G1 Ir Wr Srch. ranges. }
        destruct (Hch node ch' Wch Vn Cn Eins) as [Wch' Rch'].
        assert (F2 : Forall2 same_range (kept ++ ch :: rest) (kept ++ ch' :: rest)).
        { apply Forall2_app; [apply same_range_refl_list|].
          constructor; [|apply same_range_refl_list].
          destruct Rch' as [R1 R2]. split; congruence. }
        split; [|split].
        * apply Forall_app. split; [exact Wk|]. constructor; assumption.
        * apply Forall_app. split; [exact Ik|].
          constructor; [|exact Irest]. eapply inside_same_range; eassumption.
        * apply (pairs_same_range _ _ F2). apply pairs_app.
          repeat split; [exact Pk | exact Pt | exact Akt].
      + assert (NC : ~ contains ch node) by (rewrite <- gt_true; congruence).
        assert (Step : forall X : result (list RangeNode),
                   match c1 with
                   | CTrue =>
                       match insert_child ch node with
                       | Ok ch' => Ok (kept ++ ch' :: rest)%list
                       | Err e => Err e
                       end
                   | _ => X
                   end = X) by (intros X; destruct c1; congruence).
        rewrite Step. clear Step.
        destruct (__gt__ node ch) as [c2|e2] eqn:G2; [|discriminate].
        assert (Hc2 : c2 = CTrue \/ c2 <> CTrue) by (destruct c2; auto; right; discriminate).
        destruct Hc2 as [->|Hc2].
        * (* [ch] is re-parented to the node *)
          apply gt_true in G2.
          apply IH; try assumption.
          -- simpl. apply Forall_app. split; [exact Wc|]. constructor; [exact Wch|constructor].
          -- simpl. apply Forall_app. split.
             ++ eapply Forall_impl; [|exact Ic]. intros a Ha. clear - Ha. ranges.
             ++ constructor; [|constructor]. clear - G2 NC. ranges.
          -- simpl. apply pairs_snoc; [exact Pc | eapply apart_head; exact Act].
          -- eapply apart_tail; exact Akt.
          -- simpl. unfold apart. apply Forall_app. split.
             ++ apply (apart_tail _ _ _ Act).
             ++ constructor; [exact Sch | constructor].
        * assert (S : separated node ch).
          { destruct c2; [congruence| |].
            - apply gt_false in G2. tauto.
            - apply gt_irrelevant in G2. tauto. }
          assert (Step : forall X Y : result (list RangeNode),
                     match c2 with CTrue => X | _ => Y end = Y)
            by (intros X Y; destruct c2; congruence).
          rewrite Step. clear Step.
          apply IH; try assumption.
          -- apply Forall_app. split; [exact Wk|]. constructor; [exact Wch|constructor].
          -- apply Forall_app. split; [exact Ik|]. constructor; [exact Ich|constructor].
          -- apply pairs_snoc; [exact Pk | eapply apart_head; exact Akt].
          -- unfold apart. apply Forall_app. split.
             ++ apply (apart_tail _ _ _ Akt).
             ++ constructor; [exact Sch | constructor].
          -- eapply apart_tail; exact Act.
          -- apply Forall_app. split; [exact Snk|]. constructor; [exact S|constructor].
Qed.

Lemma set_children_range self chs : same_range (set_children self chs) self.
Proof. split; reflexivity. Qed.

Lemma insert_child_wf self : insertion_ok self.
Proof.
  induction self as [s e nm tx iri chs IH] using RangeNode_forall_ind.
  intros node self' W Vn Cn. rewrite insert_child_eq.
  destruct (__gt__ node _) as [c|x] eqn:G; [|discriminate].
  destruct c; simpl truthy; cbv iota; try discriminate.
  apply gt_false in G.
  destruct ((start node =? _) && _)%bool.
  { intros [= <-]. split; [exact W | split; reflexivity]. }
  inversion W as [n V Ic Pc Wc]; subst. simpl in *.
  destruct chs as [|c0 chs0].
  - intros [= <-]. split; [|split; reflexivity].
    constructor; simpl.
    + exact V.
    + constructor; [exact G | constructor].
    + constructor; [constructor | constructor].
    + constructor; [apply wf_leaf; assumption | constructor].
  - destruct (insert_loop insert_child (c0 :: chs0) [] node) as [res|x] eqn:L; [|discriminate].
    intros [= <-]. split; [|split; reflexivity].
    apply (insert_loop_wf (mkRangeNode s e nm tx iri (c0 :: chs0))) in L;
      rewrite ?Cn; try assumption; try (constructor; fail).
    all: try (unfold apart; constructor; fail).
    destruct L as (L1 & L2 & L3). constructor; simpl; assumption.
Qed.

Lemma built_wf t : built t -> well_formed t.
Proof.
  induction 1 as [s e nm tx iri root Hi | t s e nm tx iri node t' Hb IH Hi Hins].
  - apply init_ok in Hi. apply wf_leaf; tauto.
  - apply init_ok in Hi.
    apply (insert_child_wf t node t' IH); tauto.
Qed.

(** ** Nodes of a well-formed tree *)

Lemma nodes_eq t : nodes t = t :: List.flat_map nodes (children t).
Proof. destruct t; reflexivity. Qed.

Lemma in_nodes t n :
  In n (nodes t) <-> n = t \/ exists c, In c (children t) /\ In n (nodes c).
Proof.
  rewrite nodes_eq. simpl. rewrite in_flat_map. intuition congruence.
Qed.

Lemma nodes_within t :
  well_formed t -> forall n, In n (nodes t) -> contains t n /\ valid n.
Proof.
  induction t as [s e nm tx iri chs IH] using RangeNode_forall_ind.
  intros W n Hn. inversion W as [? V Ic Pc Wc]; subst; simpl in V, Ic, Pc, Wc.
  apply in_nodes in Hn. destruct Hn as [->|(c & Hc & Hn)].
  - split; [|exact V]. clear. ranges.
  - rewrite Forall_forall in IH, Ic, Wc.
    destruct (IH c Hc (Wc c Hc) n Hn) as [C Vn]. split; [|exact Vn].
    specialize (Ic c Hc). clear - C Ic. ranges.
Qed.

Lemma laminar t :
  well_formed t ->
  forall a b, In a (nodes t) -> In b (nodes t) ->
  contains a b \/ contains b a \/ disjoint a b.
Proof.
  induction t as [s e nm tx iri chs IH] using RangeNode_forall_ind.
  intros W a b Ha Hb.
  pose proof (nodes_within _ W a Ha) as [Ca _].
  pose proof (nodes_within _ W b Hb) as [Cb _].
  inversion W as [? V Ic Pc Wc]; subst; simpl in V, Ic, Pc, Wc.
  apply in_nodes in Ha. apply in_nodes in Hb.
  destruct Ha as [->|(ca & Hca & Ha)]; [left; exact Cb|].
  destruct Hb as [->|(cb & Hcb & Hb)]; [right; left; exact Ca|].
  simpl in *. rewrite Forall_forall in IH, Wc.
  destruct (pairs_in separated separated_sym chs ca cb Pc Hca Hcb) as [->|S].
  - apply (IH cb Hcb (Wc cb Hcb)); assumption.
  - right; right.
    destruct (nodes_within _ (Wc ca Hca) a Ha) as [Wa _].
    destruct (nodes_within _ (Wc cb Hcb) b Hb) as [Wb _].
    clear - S Wa Wb. ranges.
Qed.

(** ** Inserting a partially overlapping node fails *)

Lemma partial_overlap_adopt node ch b :
  partial_overlap node b -> partial_overlap (adopt node ch) b.
Proof. unfold adopt. ranges. Qed.


Lemma insert_loop_overlap todo : forall kept node ch0 b,
  Forall overlap_rejected todo ->
  Forall well_formed todo ->
  ForallOrdPairs separated todo ->
  In ch0 todo -> In b (nodes ch0) -> partial_overlap node b ->
  insert_loop insert_child todo kept node = Err partial_overlap_error.
Proof.
  induction todo as [|ch rest IH]; intros kept node ch0 b Hrej Wt Pt Hch0 Hb PO; [contradiction|].
  inversion Hrej as [|? ? Rch Rrest]; subst.
  inversion Wt as [|? ? Wch Wrest]; subst.
  inversion Pt as [|? ? Sch Prest]; subst.
  assert (Wch0 : well_formed ch0).
  { rewrite Forall_forall in Wt. apply Wt. exact Hch0. }
  destruct (nodes_within _ Wch0 b Hb) as [Cb _].
  simpl. unfold __lt__.
  destruct (__gt__ ch node) as [c1|e1] eqn:G1;
    [|apply gt_error in G1; destruct G1 as [-> _]; reflexivity].
  assert (Hc1 : c1 = CTrue \/ c1 <> CTrue) by (destruct c1; auto; right; discriminate).
  destruct Hc1 as [->|Hc1].
  - apply gt_true in G1.
    destruct Hch0 as [<-|Hin].
    + rewrite (Rch Wch node b Hb PO). reflexivity.
    + exfalso. rewrite Forall_forall in Sch. specialize (Sch ch0 Hin).
      clear - G1 Sch Cb PO. ranges.
  - assert (NC : ~ contains ch node) by (rewrite <- gt_true; congruence).
    assert (Step : forall X : result (list RangeNode),
               match c1 with
               | CTrue =>
                   match insert_child ch node with
                   | Ok ch' => Ok (kept ++ ch' :: rest)%list
                   | Err e => Err e
                   end
               | _ => X
               end = X) by (intros X; destruct c1; congruence).
    rewrite Step. clear Step.
    destruct (__gt__ node ch) as [c2|e2] eqn:G2;
      [|apply gt_error in G2; destruct G2 as [-> _]; reflexivity].
    assert (Hc2 : c2 = CTrue \/ c2 <> CTrue) by (destruct c2; auto; right; discriminate).
    destruct Hc2 as [->|Hc2].
    + apply gt_true in G2.
      destruct Hch0 as [<-|Hin].
      * exfalso. clear - G2 Cb PO. ranges.
      * apply (IH kept (adopt node ch) ch0 b); assumption.
    + assert (S : separated node ch).
      { destruct c2; [congruence| |].
        - apply gt_false in G2. tauto.
        - apply gt_irrelevant in G2. tauto. }
      assert (Step : forall X Y : result (list RangeNode),
                 match c2 with CTrue => X | _ => Y end = Y)
        by (intros X Y; destruct c2; congruence).
      rewrite Step. clear Step.
      destruct Hch0 as [<-|Hin].
      * exfalso. clear - S Cb PO. ranges.
      * apply (IH (kept ++ [ch])%list node ch0 b); assumption.
Qed.

Lemma insert_child_overlap t : overlap_rejected t.
Proof.
  induction t as [s e nm tx iri chs IH] using RangeNode_forall_ind.
  intros W node b Hb PO. rewrite insert_child_eq.
  destruct (nodes_within _ W b Hb) as [Cb _].
  destruct (__gt__ node _) as [c|x] eqn:G;
    [|apply gt_error in G; destruct G as [-> _]; reflexivity].
  inversion W as [? V Ic Pc Wc]; subst; simpl in V, Ic, Pc, Wc.
  destruct c; simpl truthy; cbv iota.
  - exfalso. apply gt_true in G. clear - G Cb PO. ranges.
  - apply gt_false in G.
    destruct ((start node =? _) && _)%bool eqn:D.
    { exfalso. apply andb_true_iff in D. destruct D as [D1 D2].
      apply Z.eqb_eq in D1. apply num_eqb_eq in D2. simpl in *.
      clear - G D1 D2. ranges. }
    apply in_nodes in Hb. simpl in Hb.
    destruct Hb as [->|(c & Hc & Hn)]; [exfalso; clear - G PO; ranges|].
    destruct chs as [|c0 chs0]; [contradiction|]. cbn [children].
    rewrite (insert_loop_overlap (c0 :: chs0) [] node c b); auto.
  - exfalso. apply gt_irrelevant in G. clear - G Cb PO. ranges.
Qed.

(** ** The scanning loop *)

Lemma bind_ok {A B : Type} (m : M A) (k : A -> M B) out b :
  bind m k = (out, Ok b) ->
  exists o1 a o2, m = (o1, Ok a) /\ k a = (o2, Ok b) /\ out = (o1 ++ o2)%list.
Proof.
  unfold bind. destruct m as [o1 [a|e]]; [|discriminate].
  destruct (k a) as [o2 r] eqn:K. intros [= <- ->].
  exists o1, a, o2. split; [reflexivity|]. split; [exact K | reflexivity].
Qed.

Lemma bind_err {A B : Type} (m : M A) (k : A -> M B) out e :
  m = (out, Err e) -> bind m k = (out, Err e).
Proof. intros ->. reflexivity. Qed.

Lemma scan_step_built owl for_iri st i c out st' :
  built (parsed st) ->
  scan_step owl for_iri st i c = (out, Ok st') ->
  built (parsed st').
Proof.
  intros B. unfold scan_step.
  set (st1 := if Ascii.eqb c (left_par for_iri) then _ else st).
  assert (B1 : built (parsed st1)) by (subst st1; destruct (Ascii.eqb c _); exact B).
  clearbody st1.
  destruct (Ascii.eqb c (right_par for_iri)); [|intros [= _ <-]; exact B1].
  destruct (stack st1) as [|start stack'].
  - intros [= _ <-]. exact B1.
  - intros H. apply bind_ok in H. destruct H as (o1 & node & o2 & Hn & H & _).
    apply bind_ok in H. destruct H as (o3 & p' & o4 & Hp & H & _).
    injection H as _ <-. simpl.
    unfold lift in Hn, Hp. injection Hn as _ Hn. injection Hp as _ Hp.
    unfold node_of_pair in Hn.
    destruct for_iri; eapply built_insert; eassumption.
Qed.

Lemma scan_built owl for_iri cs : forall i st out st',
  built (parsed st) ->
  scan owl for_iri cs i st = (out, Ok st') ->
  built (parsed st').
Proof.
  induction cs as [|c cs IH]; intros i st out st' B; simpl.
  - intros [= _ <-]. exact B.
  - intros H. apply bind_ok in H. destruct H as (o1 & st1 & o2 & H1 & H2 & _).
    eapply IH; [|exact H2]. eapply scan_step_built; eassumption.
Qed.

Lemma parse_by_parentheses_built owl for_iri already out tree :
  match already with Some p => built p | None => True end ->
  parse_by_parentheses owl for_iri already = (out, Ok tree) ->
  built tree.
Proof.
  intros B H. unfold parse_by_parentheses in H.
  apply bind_ok in H. destruct H as (o1 & root & o2 & Hr & H & _).
  apply bind_ok in H. destruct H as (o3 & st & o4 & Hs & H & _).
  assert (Br : built root).
  { destruct already as [p|].
    - injection Hr as _ <-. exact B.
    - unfold lift in Hr. injection Hr as _ Hr. subst root.
      apply (built_init 0 Inf (Some "Root") owl false). reflexivity. }
  apply scan_built in Hs; [|exact Br].
  destruct (stack st); [|discriminate]. injection H as _ <-. exact Hs.
Qed.

Lemma parse_built owl out tree : parse owl = (out, Ok tree) -> built tree.
Proof.
  unfold parse. intros H.
  apply bind_ok in H. destruct H as (o1 & cur & o2 & H1 & H2 & _).
  apply parse_by_parentheses_built in H1; [|exact I].
  apply parse_by_parentheses_built in H2; assumption.
Qed.

(** A failed insertion ends the scan: the exception is not caught. *)
Lemma scan_insertion_error owl for_iri st i c cs start stack' node e :
  Ascii.eqb c (left_par for_iri) = false ->
  Ascii.eqb c (right_par for_iri) = true ->
  stack st = start :: stack' ->
  node_of_pair owl for_iri start i = Ok node ->
  insert_child (parsed st) node = Err e ->
  scan owl for_iri (String c cs) i st = ([], Err e).
Proof.
  intros L R S N E. simpl. unfold scan_step. rewrite L, R, S.
  unfold lift. rewrite N. simpl. rewrite E. reflexivity.
Qed.


(* ================================================================== *)
(** * Unbalanced brackets *)

Lemma bind_ret {A B : Type} (a : A) (k : A -> M B) : bind (ret a) k = k a.
Proof. unfold bind, ret. destruct (k a). reflexivity. Qed.

Lemma scan_step_stack owl for_iri st i c out st' :
  scan_step owl for_iri st i c = (out, Ok st') ->
  stack st' =
    (let stk1 := if Ascii.eqb c (left_par for_iri) then i :: stack st else stack st in
     if Ascii.eqb c (right_par for_iri) then List.tl stk1 else stk1).
Proof.
  unfold scan_step.
  set (st1 := if Ascii.eqb c (left_par for_iri) then _ else st).
  assert (E : stack st1 =
              if Ascii.eqb c (left_par for_iri) then i :: stack st else stack st)
    by (subst st1; destruct (Ascii.eqb c _); reflexivity).
  cbv zeta. rewrite <- E. clearbody st1. clear E.
  destruct (Ascii.eqb c (right_par for_iri)); [|intros [= _ <-]; reflexivity].
  destruct (stack st1) as [|start stack'] eqn:S.
  - intros [= _ <-]. rewrite S. reflexivity.
  - intros H. apply bind_ok in H. destruct H as (o1 & node & o2 & _ & H & _).
    apply bind_ok in H. destruct H as (o3 & p' & o4 & _ & H & _).
    injection H as _ <-. reflexivity.
Qed.

(** The stack a completed scan leaves depends on the text alone. *)
Lemma scan_stack owl for_iri cs : forall i st out st',
  scan owl for_iri cs i st = (out, Ok st') ->
  stack st' = unmatched (left_par for_iri) (right_par for_iri) cs i (stack st).
Proof.
  induction cs as [|c cs IH]; intros i st out st'; simpl.
  - intros [= _ <-]. reflexivity.
  - intros H. apply bind_ok in H. destruct H as (o1 & st1 & o2 & H1 & H2 & _).
    apply scan_step_stack in H1. apply IH in H2. rewrite H2, H1. reflexivity.
Qed.

Lemma parse_by_parentheses_eq owl for_iri already :
  parse_by_parentheses owl for_iri already =
  bind (scan owl for_iri owl 0 (mkScan [] (initial_tree owl already)))
       (fun st => match stack st with
                  | [] => ret (parsed st)
                  | _ :: _ => raise too_many_opening
                  end).
Proof.
  unfold parse_by_parentheses. destruct already as [p|]; simpl initial_tree.
  - rewrite bind_ret. reflexivity.
  - change (lift (RangeNode_init 0 Inf (Some "Root") owl false))
      with (ret (mkRangeNode 0 Inf "Root@[0:inf]" owl false [])).
    rewrite bind_ret. reflexivity.
Qed.

Lemma parse_by_parentheses_opening owl for_iri already out st :
  scan owl for_iri owl 0 (mkScan [] (initial_tree owl already)) = (out, Ok st) ->
  stack st <> [] ->
  parse_by_parentheses owl for_iri already = (out, Err too_many_opening).
Proof.
  intros H N. rewrite parse_by_parentheses_eq, H. simpl.
  destruct (stack st); [contradiction|]. simpl. rewrite app_nil_r. reflexivity.
Qed.

Lemma parse_by_parentheses_unmatched owl for_iri already out tree :
  unmatched (left_par for_iri) (right_par for_iri) owl 0 [] <> [] ->
  parse_by_parentheses owl for_iri already <> (out, Ok tree).
Proof.
  intros N H. rewrite parse_by_parentheses_eq in H.
  apply bind_ok in H. destruct H as (o1 & st & o2 & Hs & H & _).
  apply scan_stack in Hs. simpl in Hs. rewrite <- Hs in N.
  destruct (stack st); [contradiction | discriminate].
Qed.


(* ================================================================== *)
(** * The abbreviator *)

Lemma prefix_nil s : String.prefix "" s = true.
Proof. destruct s; reflexivity. Qed.

Lemma prefix_cons a t b s :
  String.prefix (String a t) (String b s) = true <-> a = b /\ String.prefix t s = true.
Proof.
  simpl. destruct (ascii_dec a b) as [E|N]; split.
  - intros H. split; assumption.
  - intros [_ H]. exact H.
  - discriminate.
  - intros [E _]. contradiction.
Qed.

Lemma prefix_app_iff t : forall s,
  String.prefix t s = true <-> exists b, s = t ++ b.
Proof.
  induction t as [|a t IH]; intros s.
  - split; [intros _; exists s; reflexivity | intros _; apply prefix_nil].
  - destruct s as [|c s].
    + split; [discriminate | intros [b H]; discriminate].
    + rewrite prefix_cons, IH. split.
      * intros [-> [b ->]]. exists b. reflexivity.
      * intros [b H]. injection H as -> ->. split; [reflexivity | exists b; reflexivity].
Qed.

Lemma occurs_cons t c s :
  occurs t (String c s) <-> String.prefix t (String c s) = true \/ occurs t s.
Proof.
  split.
  - intros (a & b & H). destruct a as [|a0 a].
    + left. apply prefix_app_iff. exists b. exact H.
    + right. injection H as _ H. exists a, b. exact H.
  - intros [H|(a & b & H)].
    + apply prefix_app_iff in H. destruct H as [b H]. exists "", b. exact H.
    + exists (String c a), b. simpl. rewrite H. reflexivity.
Qed.

Lemma occurs_nil t : occurs t "" <-> t = "".
Proof.
  split.
  - intros (a & b & H). destruct a; [destruct t; [reflexivity | discriminate] | discriminate].
  - intros ->. exists "", "". reflexivity.
Qed.

Lemma occurs_drop t n : forall s, occurs t (drop n s) -> occurs t s.
Proof.
  induction n as [|n IH]; intros s H; [exact H|].
  destruct s as [|c s]; [exact H|]. apply occurs_cons. right. apply IH. exact H.
Qed.

Lemma length_drop n : forall s, (String.length (drop n s) <= String.length s)%nat.
Proof.
  induction n as [|n IH]; intros s; [simpl; lia|].
  destruct s as [|c s]; simpl; [lia|]. specialize (IH s). lia.
Qed.

Lemma clean_cons a t :
  clean (String a t) = true <-> a <> "["%char /\ a <> "]"%char /\ clean t = true.
Proof.
  unfold clean. simpl. rewrite !andb_true_iff, !negb_true_iff.
  rewrite <- !not_true_iff_false, !Ascii.eqb_eq. tauto.
Qed.

(** A bracket-free prefix of [u ++ "]" ++ b] ends within [u]. *)
Lemma clean_prefix_bound u : forall t b,
  clean t = true -> String.prefix t (u ++ String "]" b) = true ->
  (String.length t <= String.length u)%nat.
Proof.
  induction u as [|c u IH]; intros t b C P; destruct t as [|a t]; simpl; try lia.
  - simpl in P. apply clean_cons in C. destruct (ascii_dec a "]"); [tauto | discriminate].
  - change (String.prefix (String a t) (String c (u ++ String "]" b)) = true) in P.
    apply prefix_cons in P. apply clean_cons in C.
    specialize (IH t b (proj2 (proj2 C)) (proj2 P)). lia.
Qed.

Lemma is_tag_shape v :
  is_tag v = true ->
  exists x y z, v = String "[" (String x (String y (String z (String "]" "")))).
Proof.
  destruct v as [|a [|x [|y [|z [|b [|? ?]]]]]]; try discriminate.
  simpl. intros H. apply andb_true_iff in H. destruct H as [Ha Hb].
  apply Ascii.eqb_eq in Ha. apply Ascii.eqb_eq in Hb. subst. exists x, y, z. reflexivity.
Qed.

(** A bracket-free string of four characters or more that occurs in
    [v ++ r], [v] a tag, occurs in [r]. *)
Lemma occurs_after_tag v t r :
  is_tag v = true -> clean t = true -> (4 <= String.length t)%nat ->
  occurs t (v ++ r) -> occurs t r.
Proof.
  intros T C L H. apply is_tag_shape in T. destruct T as (x & y & z & ->).
  simpl in H.
  apply occurs_cons in H. destruct H as [P|H].
  { destruct t as [|a t]; [simpl in L; lia|].
    apply prefix_cons in P. apply clean_cons in C. destruct P as [-> _]. tauto. }
  apply occurs_cons in H. destruct H as [P|H].
  { apply (clean_prefix_bound (String x (String y (String z ""))) t r C) in P.
    simpl in P. lia. }
  apply occurs_cons in H. destruct H as [P|H].
  { apply (clean_prefix_bound (String y (String z "")) t r C) in P. simpl in P. lia. }
  apply occurs_cons in H. destruct H as [P|H].
  { apply (clean_prefix_bound (String z "") t r C) in P. simpl in P. lia. }
  apply occurs_cons in H. destruct H as [P|H].
  { apply (clean_prefix_bound "" t r C) in P. simpl in P. lia. }
  exact H.
Qed.

Lemma replace_from_drop k v : forall s n,
  replace_from k v n s = replace_from k v 0 (drop n s).
Proof.
  induction s as [|c s IH]; intros n.
  - destruct n; reflexivity.
  - destruct n as [|n]; [reflexivity|]. simpl. apply IH.
Qed.

Lemma replace_from_cons k v c s :
  replace_from k v 0 (String c s) =
  if String.prefix k (String c s)
  then v ++ replace_from k v 0 (drop (Nat.pred (String.length k)) s)
  else String c (replace_from k v 0 s).
Proof.
  cbn [replace_from]. destruct (String.prefix k (String c s)); [|reflexivity].
  rewrite replace_from_drop. reflexivity.
Qed.

Lemma replace_nonempty k v s : k <> "" -> replace k v s = replace_from k v 0 s.
Proof. destruct k; [contradiction | reflexivity]. Qed.

(** A bracket-free prefix of the result of a replacement by a tag is a
    prefix of the text the replacement started from. *)
Lemma clean_prefix_replace k v :
  is_tag v = true ->
  forall s p, clean p = true ->
  String.prefix p (replace_from k v 0 s) = true -> String.prefix p s = true.
Proof.
  intros T. pose proof (is_tag_shape v T) as (x & y & z & Ev).
  induction s as [|c s IH]; intros p C P; [exact P|].
  rewrite replace_from_cons in P.
  destruct p as [|a p]; [reflexivity|].
  destruct (String.prefix k (String c s)).
  - exfalso. rewrite Ev in P. simpl append in P.
    apply prefix_cons in P. apply clean_cons in C. destruct P as [-> _]. tauto.
  - apply prefix_cons in P. apply prefix_cons. split; [tauto|].
    apply IH; [apply clean_cons in C; tauto | tauto].
Qed.

(** Replacing [k] by a tag creates no occurrence of a bracket-free string
    of four characters or more. *)
Lemma replace_keeps_absent k v t :
  is_tag v = true -> clean t = true -> (4 <= String.length t)%nat ->
  forall s, occurs t (replace_from k v 0 s) -> occurs t s.
Proof.
  intros T C L s.
  remember (String.length s) as n eqn:En.
  assert (Hn : (String.length s <= n)%nat) by lia. clear En. revert s Hn.
  induction n as [|n IH]; intros s Hn H.
  - destruct s; [exact H | simpl in Hn; lia].
  - destruct s as [|c s]; [exact H|].
    rewrite replace_from_cons in H.
    destruct (String.prefix k (String c s)) eqn:P.
    + apply (occurs_after_tag v t _ T C L) in H.
      apply IH in H.
      * apply occurs_cons. right. eapply occurs_drop. exact H.
      * pose proof (length_drop (Nat.pred (String.length k)) s). simpl in Hn. lia.
    + apply occurs_cons in H. apply occurs_cons. destruct H as [H|H].
      * left. apply (clean_prefix_replace k v T (String c s) t C).
        rewrite replace_from_cons, P. exact H.
      * right. apply IH; [simpl in Hn; lia | exact H].
Qed.

(** After [k] is replaced by a tag, [k] occurs no more. *)
Lemma replace_removes k v :
  is_tag v = true -> clean k = true -> (4 <= String.length k)%nat ->
  forall s, ~ occurs k (replace_from k v 0 s).
Proof.
  intros T C L s.
  remember (String.length s) as n eqn:En.
  assert (Hn : (String.length s <= n)%nat) by lia. clear En. revert s Hn.
  induction n as [|n IH]; intros s Hn H.
  - destruct s; [|simpl in Hn; lia].
    simpl in H. apply occurs_nil in H. subst k. simpl in L. lia.
  - destruct s as [|c s].
    { simpl in H. apply occurs_nil in H. subst k. simpl in L. lia. }
    rewrite replace_from_cons in H.
    destruct (String.prefix k (String c s)) eqn:P.
    + apply (occurs_after_tag v k _ T C L) in H.
      apply IH in H; [exact H|].
      pose proof (length_drop (Nat.pred (String.length k)) s). simpl in Hn. lia.
    + apply occurs_cons in H. destruct H as [H|H].
      * assert (Q : String.prefix k (String c s) = true); [|congruence].
        apply (clean_prefix_replace k v T (String c s) k C).
        rewrite replace_from_cons, P. exact H.
      * apply IH in H; [exact H | simpl in Hn; lia].
Qed.

Lemma abbreviation_parts kv :
  abbreviation kv = true ->
  clean (fst kv) = true /\ (4 <= String.length (fst kv))%nat /\ is_tag (snd kv) = true /\
  fst kv <> "".
Proof.
  unfold abbreviation. rewrite !andb_true_iff, Nat.leb_le. intros [[C L] T].
  repeat split; try assumption. intros E. rewrite E in L. simpl in L. lia.
Qed.

Lemma abbreviate_with_cons kv d s :
  abbreviate_with (kv :: d) s = abbreviate_with d (replace (fst kv) (snd kv) s).
Proof. reflexivity. Qed.

Lemma abbreviate_with_keeps_absent d : forall s t,
  Forall (fun kv => abbreviation kv = true) d ->
  clean t = true -> (4 <= String.length t)%nat ->
  ~ occurs t s -> ~ occurs t (abbreviate_with d s).
Proof.
  induction d as [|kv d IH]; intros s t F C L N; [exact N|].
  inversion F as [|? ? Hkv Hd]; subst.
  rewrite abbreviate_with_cons. apply IH; try assumption.
  apply abbreviation_parts in Hkv. destruct Hkv as (_ & _ & T & K).
  rewrite (replace_nonempty _ _ _ K). intros H. apply N.
  apply (replace_keeps_absent (fst kv) (snd kv) t T C L s H).
Qed.

Lemma abbreviate_with_removes d : forall s kv,
  Forall (fun kv => abbreviation kv = true) d ->
  In kv d -> ~ occurs (fst kv) (abbreviate_with d s).
Proof.
  induction d as [|kv0 d IH]; intros s kv F I; [contradiction|].
  inversion F as [|? ? Hkv Hd]; subst.
  rewrite abbreviate_with_cons. destruct I as [->|I]; [|apply IH; assumption].
  apply abbreviation_parts in Hkv. destruct Hkv as (C & L & T & K).
  apply abbreviate_with_keeps_absent; try assumption.
  rewrite (replace_nonempty _ _ _ K). apply replace_removes; assumption.
Qed.

Lemma dict_abbreviations : Forall (fun kv => abbreviation kv = true) ABBREVIATION_DICT.
Proof. apply Forall_forall. apply forallb_forall. vm_compute. reflexivity. Qed.

Lemma append_length a : forall b,
  String.length (a ++ b) = (String.length a + String.length b)%nat.
Proof. induction a as [|c a IH]; intros b; simpl; [reflexivity | rewrite IH; reflexivity]. Qed.



(* ================================================================== *)
(** * The verbaliser *)

Lemma bind_raise {A B : Type} (e : exn) (k : A -> M B) : bind (raise e) k = raise e.
Proof. reflexivity. Qed.

Lemma startswith_cons s a p :
  startswith s (String a p) = true ->
  exists s', s = String a s' /\ startswith s' p = true.
Proof.
  unfold startswith. destruct s as [|b s]; [discriminate|].
  intros H. apply prefix_cons in H. destruct H as [-> H]. exists s. split; [reflexivity | exact H].
Qed.

Lemma restriction_not_negation nm :
  startswith nm "EX." = true \/ startswith nm "ALL" = true -> startswith nm "NEG" = false.
Proof.
  intros [H|H]; apply startswith_cons in H; destruct H as (s' & -> & _); reflexivity.
Qed.

Lemma verbalise_restriction_children nlp self vce node add_something :
  List.length (children node) <> 2%nat ->
  _verbalise_restriction nlp self vce node add_something = ([], Err restriction_shape_error).
Proof.
  intros H. unfold _verbalise_restriction.
  apply Nat.eqb_neq in H. rewrite H, andb_false_r. reflexivity.
Qed.

Lemma verbalise_restriction_name nlp self vce node add_something :
  startswith (name node) "EX." = false -> startswith (name node) "ALL" = false ->
  _verbalise_restriction nlp self vce node add_something = ([], Err restriction_shape_error).
Proof. intros H1 H2. unfold _verbalise_restriction. rewrite H1, H2. reflexivity. Qed.

Lemma verbalise_restriction_ok nlp self vce node p c add_something o1 P o2 C :
  startswith (name node) "EX." = true \/ startswith (name node) "ALL" = true ->
  children node = [p; c] ->
  _verbalise_property nlp self p = (o1, Ok P) ->
  vce (FromText (text c)) = (o2, Ok C) ->
  _verbalise_restriction nlp self vce node add_something =
    ((o1 ++ o2)%list,
     Ok (mkRestriction
           ((if add_something then "something that " else "") ++
            lstrip (verbal P ++ " " ++
                    (if add_quantifier_word self
                     then (if startswith (name node) "EX." then "some" else "only") ++ " "
                     else "") ++
                    verbal C))
           P C (take 3 (name node)))).
Proof.
  intros N Ch HP HC. unfold _verbalise_restriction. rewrite Ch.
  assert (E : (startswith (name node) "EX." || startswith (name node) "ALL")%bool = true)
    by (destruct N as [-> | ->]; [reflexivity | apply orb_true_r]).
  rewrite E. cbn [List.length Nat.eqb andb negb].
  rewrite HP. cbn [bind]. rewrite HC.
  destruct add_something, (add_quantifier_word self), (startswith (name node) "EX.");
    cbn [bind ret]; rewrite ?app_nil_r; reflexivity.
Qed.

Lemma verbalise_class_expression_iri nlp self d node :
  is_iri node = true ->
  verbalise_class_expression nlp self (S d) (FromNode node) = _verbalise_iri nlp self node false.
Proof.
  intros H. cbn [verbalise_class_expression]. unfold verbalise_class_expression_body.
  rewrite bind_ret, H. reflexivity.
Qed.

Lemma verbalise_class_expression_restriction nlp self d node :
  is_iri node = false ->
  startswith (name node) "EX." = true \/ startswith (name node) "ALL" = true ->
  verbalise_class_expression nlp self (S d) (FromNode node) =
  bind (_verbalise_restriction nlp self (verbalise_class_expression nlp self d) node true)
       (fun r => ret (cfg_of_restriction r)).
Proof.
  intros I N. cbn [verbalise_class_expression]. unfold verbalise_class_expression_body.
  rewrite bind_ret, I, (restriction_not_negation _ N).
  destruct N as [-> | ->]; rewrite ?orb_true_r; reflexivity.
Qed.

Lemma lookup_update k v d : lookup k (update k v d) = Some v.
Proof.
  induction d as [|[k' v'] d IH]; simpl.
  - rewrite String.eqb_refl. reflexivity.
  - destruct (String.eqb k' k) eqn:E; simpl.
    + rewrite String.eqb_refl. reflexivity.
    + rewrite E. exact IH.
Qed.

Lemma verbalise_iri_found nlp self node is_property n :
  keep_iri self = false -> lookup (iri_of node) (vocab self) = Some n ->
  _verbalise_iri nlp self node is_property =
  bind (if apply_auto_correction self
        then if is_property then lift (_fix_verb_phrase nlp n) else ret (_fix_noun_phrase n)
        else ret n)
       (fun verbal => ret (IriCfg verbal (iri_of node))).
Proof.
  intros K L. unfold _verbalise_iri. fold (iri_of node). rewrite K, L, bind_ret. reflexivity.
Qed.

Lemma verbalise_iri_missing nlp self node is_property :
  keep_iri self = false -> lookup (iri_of node) (vocab self) = None ->
  _verbalise_iri nlp self node is_property =
  bind (emit (missing_name_warning (iri_of node)))
       (fun _ => bind (if apply_auto_correction self
                       then if is_property then lift (_fix_verb_phrase nlp (text node))
                            else ret (_fix_noun_phrase (text node))
                       else ret (text node))
                      (fun verbal => ret (IriCfg verbal (iri_of node)))).
Proof.
  intros K L. unfold _verbalise_iri. fold (iri_of node). rewrite K, L.
  unfold missing_name_warning.
  destruct (apply_auto_correction self); [destruct is_property|]; reflexivity.
Qed.

(* ================================================================== *)
(** * Grouping the children of a junction *)

Lemma bind_assoc {A B C : Type} (m : M A) (f : A -> M B) (g : B -> M C) :
  bind (bind m f) g = bind m (fun x => bind (f x) g).
Proof.
  destruct m as [o [a|e]]; [|reflexivity]. simpl.
  destruct (f a) as [o1 [b|e]]; simpl; [|reflexivity].
  destruct (g b) as [o2 r]. rewrite app_assoc. reflexivity.
Qed.

Lemma bind_ext {A B : Type} (m : M A) (f g : A -> M B) :
  (forall x, f x = g x) -> bind m f = bind m g.
Proof. intros H. destruct m as [o [a|e]]; [|reflexivity]. simpl. rewrite H. reflexivity. Qed.

Lemma junction_step_absorb nlp self vce acc child :
  junction_step nlp self vce acc child =
  bind (verbalise_child nlp self vce child) (fun x => ret (absorb acc x)).
Proof.
  unfold junction_step, verbalise_child.
  destruct (startswith (name child) "EX."); [|destruct (startswith (name child) "ALL")];
    rewrite bind_assoc; apply bind_ext; intros x; rewrite bind_ret; reflexivity.
Qed.

Lemma for_each_junction_step nlp self vce cs : forall acc,
  for_each (junction_step nlp self vce) cs acc =
  bind (map_m (verbalise_child nlp self vce) cs)
       (fun rs => ret (List.fold_left absorb rs acc)).
Proof.
  induction cs as [|c cs IH]; intros acc; [reflexivity|].
  cbn [for_each map_m]. rewrite junction_step_absorb, !bind_assoc.
  apply bind_ext. intros x. rewrite bind_ret, IH, bind_assoc.
  apply bind_ext. intros xs. rewrite bind_ret. reflexivity.
Qed.

Lemma fold_absorb rs : forall acc,
  List.fold_left absorb rs acc =
  mkAcc
    (List.fold_left (fun d r => dd_append (property_key r) r d) (existentials rs)
       (existential_restriction_children acc))
    (List.fold_left (fun d r => dd_append (property_key r) r d) (universals rs)
       (universal_restriction_children acc))
    (other_children acc ++ others rs)%list.
Proof.
  induction rs as [|x rs IH]; intros acc.
  - simpl. rewrite app_nil_r. destruct acc; reflexivity.
  - cbn [List.fold_left]. rewrite IH. destruct x; simpl; try reflexivity.
    rewrite <- app_assoc. reflexivity.
Qed.

Lemma in_first_occurrences ks : forall x, In x (first_occurrences ks) <-> In x ks.
Proof.
  induction ks as [|k ks IH]; intros x; simpl; [tauto|].
  rewrite filter_In, IH, negb_true_iff, String.eqb_neq.
  destruct (String.eqb_spec x k) as [->|N]; [tauto|]. intuition congruence.
Qed.

Lemma nodup_first_occurrences ks : NoDup (first_occurrences ks).
Proof.
  induction ks as [|k ks IH]; simpl; constructor.
  - rewrite filter_In, negb_true_iff, String.eqb_neq. tauto.
  - apply NoDup_filter. exact IH.
Qed.

Lemma mem_in x xs : mem x xs = true <-> In x xs.
Proof.
  unfold mem. rewrite existsb_exists. split.
  - intros (y & I & E). apply String.eqb_eq in E. subst. exact I.
  - intros I. exists x. split; [exact I | apply String.eqb_refl].
Qed.

Lemma first_occurrences_snoc k : forall ks,
  first_occurrences (ks ++ [k]) =
  (first_occurrences ks ++ if mem k ks then [] else [k])%list.
Proof.
  induction ks as [|a ks IH]; [reflexivity|].
  cbn [app first_occurrences]. rewrite IH, filter_app. cbn [app]. f_equal. f_equal.
  unfold mem. cbn [existsb]. fold (mem k ks).
  destruct (String.eqb k a) eqn:E.
  - destruct (mem k ks); simpl; [reflexivity | rewrite E; reflexivity].
  - destruct (mem k ks); simpl; [reflexivity | rewrite E; reflexivity].
Qed.

(** Appending to a dictionary given by its keys, no key twice. *)
Lemma dd_append_map {A : Type} (k : string) (r : A) (f : string -> list A) ks :
  NoDup ks ->
  dd_append k r (List.map (fun k' => (k', f k')) ks) =
  (List.map (fun k' => (k', f k' ++ if String.eqb k' k then [r] else [])%list) ks
   ++ if mem k ks then [] else [(k, [r])])%list.
Proof.
  induction ks as [|k0 ks IH]; intros N; [reflexivity|].
  inversion N as [|? ? Nk Nks]; subst.
  cbn [List.map dd_append app]. unfold mem. cbn [existsb]. fold (mem k ks).
  rewrite (String.eqb_sym k k0).
  destruct (String.eqb_spec k0 k) as [->|D].
  - cbn [orb]. rewrite app_nil_r. f_equal. apply map_ext_in. intros x I.
    destruct (String.eqb_spec x k) as [->|_]; [contradiction|]. rewrite app_nil_r. reflexivity.
  - cbn [orb]. rewrite app_nil_r. f_equal. apply IH. exact Nks.
Qed.

Lemma filter_absent (k : string) (l : list restriction) :
  ~ In k (List.map property_key l) ->
  List.filter (fun r => String.eqb (property_key r) k) l = [].
Proof.
  induction l as [|r l IH]; intros N; [reflexivity|]. simpl in *.
  destruct (String.eqb_spec (property_key r) k) as [E|_]; [tauto|]. apply IH. tauto.
Qed.

Lemma group_by_property_snoc l r :
  dd_append (property_key r) r (group_by_property l) = group_by_property (l ++ [r]).
Proof.
  unfold group_by_property.
  rewrite dd_append_map by apply nodup_first_occurrences.
  rewrite map_app. cbn [List.map]. rewrite first_occurrences_snoc, map_app.
  f_equal.
  - apply map_ext. intros k. rewrite filter_app. cbn [List.filter].
    destruct (String.eqb (property_key r) k) eqn:E; rewrite String.eqb_sym, E; reflexivity.
  - destruct (mem (property_key r) (first_occurrences (List.map property_key l))) eqn:M1;
    destruct (mem (property_key r) (List.map property_key l)) eqn:M2; try reflexivity.
    + apply mem_in in M1. apply (proj1 (in_first_occurrences _ _)) in M1.
      apply (proj2 (mem_in _ _)) in M1. congruence.
    + apply mem_in in M2. apply (proj2 (in_first_occurrences _ _)) in M2.
      apply (proj2 (mem_in _ _)) in M2. congruence.
    + cbn [List.map]. rewrite filter_app. cbn [List.filter]. rewrite String.eqb_refl.
      rewrite filter_absent; [reflexivity|]. rewrite <- mem_in. congruence.
Qed.

Lemma fold_dd_append rs : forall l,
  List.fold_left (fun d r => dd_append (property_key r) r d) rs (group_by_property l) =
  group_by_property (l ++ rs).
Proof.
  induction rs as [|r rs IH]; intros l; cbn [List.fold_left].
  - rewrite app_nil_r. reflexivity.
  - rewrite group_by_property_snoc, IH, <- app_assoc. reflexivity.
Qed.

Lemma verbalise_junction_eq nlp self vce node :
  startswith (name node) "AND" = true \/ startswith (name node) "OR." = true ->
  let junction_word := if startswith (name node) "AND" then "and" else "or" in
  _verbalise_junction nlp self vce node =
  bind (map_m (verbalise_child nlp self vce) (children node))
    (fun rs =>
       let merged := merged_children junction_word (take 3 (name node)) rs in
       ret (JunctionCfg (junction_verbal junction_word (others rs) merged)
              (others rs ++ merged)%list
              (take 3 (name node)))).
Proof.
  intros N w. unfold _verbalise_junction.
  assert (E : (startswith (name node) "AND" || startswith (name node) "OR.")%bool = true)
    by (destruct N as [-> | ->]; [reflexivity | apply orb_true_r]).
  rewrite E. cbn [negb]. rewrite for_each_junction_step, bind_assoc.
  apply bind_ext. intros rs. rewrite bind_ret, fold_absorb. cbn [existential_restriction_children
    universal_restriction_children other_children app].
  change (@nil (string * list restriction)) with (group_by_property []).
  rewrite !fold_dd_append. reflexivity.
Qed.

(** ** Re-inserting an existing range *)



Lemma insert_loop_duplicate todo : forall kept node ch0 b,
  Forall duplicate_rejected todo ->
  Forall well_formed todo ->
  ForallOrdPairs separated todo ->
  In ch0 todo -> In b (nodes ch0) -> same_range node b ->
  insert_loop insert_child todo kept node = Err invalid_child_error.
Proof.
  induction todo as [|ch rest IH]; intros kept node ch0 b Hrej Wt Pt Hch0 Hb SR; [contradiction|].
  inversion Hrej as [|? ? Rch Rrest]; subst.
  inversion Wt as [|? ? Wch Wrest]; subst.
  inversion Pt as [|? ? Sch Prest]; subst.
  assert (Wch0 : well_formed ch0).
  { rewrite Forall_forall in Wt. apply Wt. exact Hch0. }
  destruct (nodes_within _ Wch0 b Hb) as [Cb Vb].
  pose proof (wf_valid _ Wch) as Vch.
  rewrite Forall_forall in Sch.
  simpl. unfold __lt__.
  destruct (__gt__ ch node) as [c1|e1] eqn:G1.
  - assert (Hc1 : c1 = CTrue \/ c1 <> CTrue) by (destruct c1; auto; right; discriminate).
    destruct Hc1 as [->|Hc1].
    + apply gt_true in G1. destruct Hch0 as [<-|Hin].
      * rewrite (Rch Wch node b Hb SR). reflexivity.
      * exfalso. specialize (Sch ch0 Hin). clear - G1 Sch Cb Vb SR. ranges.
    + assert (NC : ~ contains ch node) by (rewrite <- gt_true; congruence).
      assert (Step : forall X : result (list RangeNode),
                 match c1 with
                 | CTrue =>
                     match insert_child ch node with
                     | Ok ch' => Ok (kept ++ ch' :: rest)%list
                     | Err e => Err e
                     end
                 | _ => X
                 end = X) by (intros X; destruct c1; congruence).
      rewrite Step. clear Step.
      destruct Hch0 as [<-|Hin]; [exfalso; clear - NC Cb SR; ranges|].
      specialize (Sch ch0 Hin).
      assert (S : separated node ch) by (clear - Sch Cb SR; ranges).
      destruct (__gt__ node ch) as [c2|e2] eqn:G2;
        [|exfalso; apply gt_error in G2; clear - G2 S; ranges].
      destruct c2.
      * exfalso. apply gt_true in G2. clear - G2 S Vch. ranges.
      * apply (IH (kept ++ [ch])%list node ch0 b); assumption.
      * apply (IH (kept ++ [ch])%list node ch0 b); assumption.
  - exfalso. apply gt_error in G1. destruct Hch0 as [<-|Hin].
    + clear - G1 Cb SR. ranges.
    + specialize (Sch ch0 Hin). clear - G1 Sch Cb SR. ranges.
Qed.

Lemma insert_child_duplicate t : duplicate_rejected t.
Proof.
  induction t as [s e nm tx iri chs IH] using RangeNode_forall_ind.
  intros W node b Hb SR. rewrite insert_child_eq.
  destruct (nodes_within _ W b Hb) as [Cb _].
  inversion W as [? V Ic Pc Wc]; subst; simpl in V, Ic, Pc, Wc.
  destruct (__gt__ node _) as [c|x] eqn:G;
    [|exfalso; apply gt_error in G; clear - G Cb SR; ranges].
  destruct c; simpl truthy; cbv iota; try reflexivity.
  apply gt_false in G.
  destruct ((start node =? _) && _)%bool eqn:D.
  { exfalso. apply andb_true_iff in D. destruct D as [D1 D2].
    apply Z.eqb_eq in D1. apply num_eqb_eq in D2. simpl in *.
    clear - G D1 D2. ranges. }
  apply in_nodes in Hb. simpl in Hb.
  destruct Hb as [->|(c & Hc & Hn)]; [exfalso; clear - G SR; ranges|].
  destruct chs as [|c0 chs0]; [contradiction|]. cbn [children].
  rewrite (insert_loop_duplicate (c0 :: chs0) [] node c b); auto.
Qed.

(* ================================================================== *)
(** * The claims about the range tree *)

(** C1.  Every tree returned by [parse] has no partial overlap: of any two
    of its nodes, one range contains the other or the two ranges are
    disjoint.  Inserting a node whose range partially overlaps the range of
    a node already in a tree built by insertions raises the
    partial-overlap [RuntimeError]; inside the scanning loop that exception
    ends the scan, so no tree is returned.  The trees [parse] returns are
    built by insertions. *)
Theorem parse_no_partial_overlap :
  (forall owl out tree,
     parse owl = (out, Ok tree) ->
     built tree /\
     forall a b, In a (nodes tree) -> In b (nodes tree) ->
       contains a b \/ contains b a \/ disjoint a b) /\
  (forall tree s e nm tx iri node b,
     built tree ->
     RangeNode_init s e nm tx iri = Ok node ->
     In b (nodes tree) -> partial_overlap node b ->
     insert_child tree node = Err partial_overlap_error) /\
  (forall owl for_iri st i c cs start stack' node b,
     built (parsed st) ->
     Ascii.eqb c (left_par for_iri) = false ->
     Ascii.eqb c (right_par for_iri) = true ->
     stack st = start :: stack' ->
     node_of_pair owl for_iri start i = Ok node ->
     In b (nodes (parsed st)) -> partial_overlap node b ->
     scan owl for_iri (String c cs) i st = ([], Err partial_overlap_error)).
Proof.
  split; [|split].
  - intros owl out tree H. apply parse_built in H. split; [exact H|].
    apply laminar. apply built_wf. exact H.
  - intros tree s e nm tx iri node b B _ Hb PO.
    apply (insert_child_overlap tree (built_wf _ B) node b Hb PO).
  - intros owl for_iri st i c cs start stack' node b B L R S N Hb PO.
    eapply scan_insertion_error; try eassumption.
    apply (insert_child_overlap _ (built_wf _ B) node b Hb PO).
Qed.

Lemma parse_no_partial_overlap_witness :
  exists tree node b,
    parse "[NEG](<http://x/A>)" = ([], Ok tree) /\
    (forall x y, In x (nodes tree) -> In y (nodes tree) ->
       contains x y \/ contains y x \/ disjoint x y) /\
    RangeNode_init 10 (Fin 30) None "" false = Ok node /\
    In b (nodes tree) /\ partial_overlap node b /\
    insert_child tree node = Err partial_overlap_error.
Proof.
  eexists. eexists. eexists.
  split; [vm_compute; reflexivity|].
  split.
  { apply (proj1 parse_no_partial_overlap "[NEG](<http://x/A>)" []).
    vm_compute. reflexivity. }
  split; [vm_compute; reflexivity|].
  assert (PO : partial_overlap
                 (mkRangeNode 10 (Fin 30) "Root@[10:30]" "" false [])
                 (mkRangeNode 0 (Fin 19) "NEG@[0:19]" "[NEG](<http://x/A>)" false
                    [mkRangeNode 6 (Fin 18) "A@[6:18]" "<http://x/A>" true []])).
  { unfold partial_overlap, contains, disjoint. simpl. lia. }
  split; [|split; [exact PO|]].
  { simpl. right. left. reflexivity. }
  eapply (proj1 (proj2 parse_no_partial_overlap) _ 10 (Fin 30) None "" false).
  - apply (parse_built "[NEG](<http://x/A>)" []). vm_compute. reflexivity.
  - vm_compute. reflexivity.
  - simpl. right. left. reflexivity.
  - exact PO.
Defined.

(** C10.  Constructing a [RangeNode] raises exactly when [start >= end];
    so every node of a tree built by insertions, and every node of a tree
    [parse] returns (the identifier leaves of the second pass among them),
    has [start < end]. *)
Theorem range_node_never_empty :
  (forall s e nm tx iri,
     (exists x, RangeNode_init s e nm tx iri = Err x) <-> num_le e (Fin s)) /\
  (forall s e nm tx iri n,
     RangeNode_init s e nm tx iri = Ok n -> num_lt (Fin (start n)) (end_ n)) /\
  (forall tree, built tree ->
     forall n, In n (nodes tree) -> num_lt (Fin (start n)) (end_ n)) /\
  (forall owl out tree, parse owl = (out, Ok tree) ->
     forall n, In n (nodes tree) -> num_lt (Fin (start n)) (end_ n)).
Proof.
  split; [exact init_error|]. split; [|split].
  - intros s e nm tx iri n H. apply init_ok in H. apply H.
  - intros tree B n Hn. apply (nodes_within tree (built_wf _ B) n Hn).
  - intros owl out tree H n Hn. apply parse_built in H.
    apply (nodes_within tree (built_wf _ H) n Hn).
Qed.

Lemma range_node_never_empty_witness :
  (exists x, RangeNode_init 7 (Fin 7) (Some "NEG") "" false = Err x) /\
  (exists tree, parse "[NEG](<http://x/A>)" = ([], Ok tree) /\
     forall n, In n (nodes tree) -> num_lt (Fin (start n)) (end_ n)).
Proof.
  split.
  - apply (proj1 range_node_never_empty). simpl. lia.
  - eexists. split; [vm_compute; reflexivity|].
    apply (proj2 (proj2 (proj2 range_node_never_empty)) "[NEG](<http://x/A>)" []).
    vm_compute. reflexivity.
Defined.

(** C4 (the code departs from the claim).  Inserting a node whose range
    equals the range of a node of the tree does not return: [node > self]
    is already true for equal ranges, so [insert_child] raises
    ["invalid child node"] before it reaches its duplicate check.  Here the
    tree is the one parsed from [[NEG](<http://x/A>)] and the node has the
    range of its [NEG] node. *)
Theorem reinsertion_raises :
  exists tree node b,
    parse "[NEG](<http://x/A>)" = ([], Ok tree) /\
    RangeNode_init 0 (Fin 19) (Some "NEG") "[NEG](<http://x/A>)" false = Ok node /\
    In b (nodes tree) /\ start node = start b /\ end_ node = end_ b /\
    insert_child tree node = Err (RuntimeError "invalid child node").
Proof.
  eexists. eexists. eexists.
  split; [vm_compute; reflexivity|].
  split; [vm_compute; reflexivity|].
  split; [simpl; right; left; reflexivity|].
  split; [reflexivity|]. split; [reflexivity|].
  vm_compute. reflexivity.
Qed.

(** C5.  When the scanning loop of a pass ends with opening brackets left
    on the stack, [parse_by_parentheses] raises the [RuntimeError]
    ["Too many opening parentheses"], and so does [parse], whichever of its
    two passes that was: no tree is returned.  The stack a completed scan
    leaves is determined by the brackets of the text ([unmatched]), so a text
    with an unmatched opening bracket is never parsed into a tree.  A closing
    bracket met with an empty stack prints ["Too many closing parentheses"],
    leaves the stack and the tree as they were, and the scan goes on with the
    next character. *)
Theorem unbalanced_brackets :
  (forall owl for_iri already out st,
     scan owl for_iri owl 0 (mkScan [] (initial_tree owl already)) = (out, Ok st) ->
     stack st <> [] ->
     parse_by_parentheses owl for_iri already = (out, Err too_many_opening)) /\
  (forall owl out st,
     let e := abbreviate_owl_expression owl in
     scan e false e 0 (mkScan [] (initial_tree e None)) = (out, Ok st) ->
     stack st <> [] ->
     parse owl = (out, Err too_many_opening)) /\
  (forall owl out1 cur out2 st,
     let e := abbreviate_owl_expression owl in
     parse_by_parentheses e false None = (out1, Ok cur) ->
     scan e true e 0 (mkScan [] cur) = (out2, Ok st) ->
     stack st <> [] ->
     parse owl = ((out1 ++ out2)%list, Err too_many_opening)) /\
  (forall owl for_iri out tree,
     let e := abbreviate_owl_expression owl in
     unmatched (left_par for_iri) (right_par for_iri) e 0 [] <> [] ->
     parse owl <> (out, Ok tree)) /\
  (forall owl for_iri st i c cs,
     Ascii.eqb c (right_par for_iri) = true ->
     stack st = [] ->
     scan_step owl for_iri st i c = (["Too many closing parentheses"], Ok st) /\
     scan owl for_iri (String c cs) i st =
       bind (emit "Too many closing parentheses") (fun _ => scan owl for_iri cs (i + 1) st)).
Proof.
  split; [|split; [|split; [|split]]].
  - exact parse_by_parentheses_opening.
  - intros owl out st e H N. unfold parse. fold e.
    rewrite (parse_by_parentheses_opening e false None out st H N). reflexivity.
  - intros owl out1 cur out2 st e H1 H2 N. unfold parse. fold e.
    rewrite H1. cbn [bind].
    rewrite (parse_by_parentheses_opening e true (Some cur) out2 st H2 N). reflexivity.
  - intros owl for_iri out tree e N H. unfold parse in H. fold e in H.
    apply bind_ok in H. destruct H as (o1 & cur & o2 & H1 & H2 & _).
    destruct for_iri.
    + exact (parse_by_parentheses_unmatched e true (Some cur) o2 tree N H2).
    + exact (parse_by_parentheses_unmatched e false None o1 cur N H1).
  - intros owl for_iri st i c cs R S.
    assert (L : Ascii.eqb c (left_par for_iri) = false).
    { apply Ascii.eqb_eq in R. subst c. destruct for_iri; reflexivity. }
    assert (Step : scan_step owl for_iri st i c = (["Too many closing parentheses"], Ok st)).
    { unfold scan_step. rewrite L, R, S. reflexivity. }
    split; [exact Step|].
    simpl. rewrite Step. unfold bind, emit. simpl.
    destruct (scan owl for_iri cs (i + 1) st). reflexivity.
Qed.

Lemma unbalanced_brackets_witness :
  parse "ObjectIntersectionOf(<http://x/A>" = ([], Err too_many_opening) /\
  (forall out tree, parse "ObjectIntersectionOf(<http://x/A" <> (out, Ok tree)) /\
  scan ")" false ")" 0 (mkScan [] (initial_tree ")" None)) =
    (["Too many closing parentheses"], Ok (mkScan [] (initial_tree ")" None))).
Proof.
  split; [|split].
  - eapply (proj1 (proj2 unbalanced_brackets) "ObjectIntersectionOf(<http://x/A>" []).
    + vm_compute. reflexivity.
    + simpl. discriminate.
  - intros out tree.
    apply (proj1 (proj2 (proj2 (proj2 unbalanced_brackets)))
             "ObjectIntersectionOf(<http://x/A" true out tree).
    vm_compute. discriminate.
  - rewrite (proj2 (proj2 (proj2 (proj2 (proj2 unbalanced_brackets)))
                      ")" false (mkScan [] (initial_tree ")" None)) 0 ")"%char ""
                      eq_refl eq_refl)).
    reflexivity.
Defined.



(* ================================================================== *)
(** * The claims about the verbaliser *)

(** C6.  [_verbalise_restriction] raises its [RuntimeError] whenever the
    node does not have exactly two children, and so does
    [verbalise_class_expression] on a node named [EX.] or [ALL]; each of
    the seven axiom entry points raises the [AssertionError] of
    [_axiom_input_check] whenever the type of the axiom is not among the
    types it asks for.  In both cases nothing is printed and no result is
    returned. *)
Theorem structural_shape_errors :
  (forall nlp self vce node add_something,
     List.length (children node) <> 2%nat ->
     _verbalise_restriction nlp self vce node add_something
       = ([], Err restriction_shape_error)) /\
  (forall nlp self d node,
     is_iri node = false ->
     startswith (name node) "EX." = true \/ startswith (name node) "ALL" = true ->
     List.length (children node) <> 2%nat ->
     verbalise_class_expression nlp self (S d) (FromNode node)
       = ([], Err restriction_shape_error)) /\
  (forall (OWLAxiom : Type) (str_of_axiom get_axiom_type : OWLAxiom -> string)
          nlp self depth axiom,
     let absent required := mem (get_axiom_type axiom) required = false in
     let error required := axiom_type_error (get_axiom_type axiom) required in
     (forall required, absent required ->
        _axiom_input_check OWLAxiom get_axiom_type axiom required
          = ([], Err (error required))) /\
     (absent ["SubClassOf"; "SuperClassOf"] ->
        verbalise_class_subsumption_axiom OWLAxiom str_of_axiom get_axiom_type
          nlp self depth axiom
          = ([], Err (error ["SubClassOf"; "SuperClassOf"]))) /\
     (absent ["EquivalentClasses"] ->
        verbalise_class_equivalence_axiom OWLAxiom str_of_axiom get_axiom_type
          nlp self depth axiom
          = ([], Err (error ["EquivalentClasses"]))) /\
     (absent ["ClassAssertion"] ->
        verbalise_class_assertion_axiom OWLAxiom str_of_axiom get_axiom_type
          nlp self depth axiom
          = ([], Err (error ["ClassAssertion"]))) /\
     (absent ["SubObjectPropertyOf"; "SuperObjectPropertyOf";
              "SubPropertyChainOf"; "SuperPropertyChainOf"] ->
        verbalise_object_property_subsumption_axiom OWLAxiom str_of_axiom get_axiom_type
          nlp self axiom
          = ([], Err (error ["SubObjectPropertyOf"; "SuperObjectPropertyOf";
                             "SubPropertyChainOf"; "SuperPropertyChainOf"]))) /\
     (absent ["ObjectPropertyAssertion"] ->
        verbalise_object_property_assertion_axiom OWLAxiom str_of_axiom get_axiom_type
          nlp self axiom
          = ([], Err (error ["ObjectPropertyAssertion"]))) /\
     (absent ["ObjectPropertyDomain"] ->
        verbalise_object_property_domain_axiom OWLAxiom str_of_axiom get_axiom_type
          nlp self depth axiom
          = ([], Err (error ["ObjectPropertyDomain"]))) /\
     (absent ["ObjectPropertyRange"] ->
        verbalise_object_property_range_axiom OWLAxiom str_of_axiom get_axiom_type
          nlp self depth axiom
          = ([], Err (error ["ObjectPropertyRange"])))).
Proof.
  split; [|split].
  - exact verbalise_restriction_children.
  - intros nlp self d node I N L.
    rewrite (verbalise_class_expression_restriction nlp self d node I N).
    rewrite (verbalise_restriction_children _ _ _ _ _ L). reflexivity.
  - intros OWLAxiom str_of_axiom get_axiom_type nlp self depth axiom absent error.
    assert (C : forall required, absent required ->
              _axiom_input_check OWLAxiom get_axiom_type axiom required
                = ([], Err (error required))).
    { intros required A. unfold _axiom_input_check. unfold absent in A. rewrite A.
      reflexivity. }
    split; [exact C|].
    repeat split; intros A;
      [ unfold verbalise_class_subsumption_axiom
      | unfold verbalise_class_equivalence_axiom
      | unfold verbalise_class_assertion_axiom
      | unfold verbalise_object_property_subsumption_axiom
      | unfold verbalise_object_property_assertion_axiom
      | unfold verbalise_object_property_domain_axiom
      | unfold verbalise_object_property_range_axiom ];
      rewrite (C _ A); reflexivity.
Qed.

Lemma structural_shape_errors_witness :
  (exists node,
     parse "ObjectSomeValuesFrom(<http://x/r>)"
       = ([], Ok (mkRangeNode 0 Inf "Root@[0:inf]" "[EX.](<http://x/r>)" false [node])) /\
     verbalise_class_expression (fun _ => []) (mkVerbaliser [] false false false) 1
       (FromNode node) = ([], Err restriction_shape_error)) /\
  verbalise_class_subsumption_axiom string (fun a => a) (fun _ => "EquivalentClasses")
    (fun _ => []) (mkVerbaliser [] false false false) 3
    "EquivalentClasses(<http://x/A> <http://x/B>)"
    = ([], Err (AssertionError
         "Input axiom type `EquivalentClasses` is not in ['SubClassOf', 'SuperClassOf'].")).
Proof.
  split.
  - eexists. split; [vm_compute; reflexivity|].
    apply (proj1 (proj2 structural_shape_errors)).
    + reflexivity.
    + left. reflexivity.
    + simpl. lia.
  - apply (proj1 (proj2
      (proj2 (proj2 structural_shape_errors)
         string (fun a => a) (fun _ => "EquivalentClasses")
         (fun _ => []) (mkVerbaliser [] false false false) 3%nat
         "EquivalentClasses(<http://x/A> <http://x/B>)"))).
    reflexivity.
Defined.

(** C7.  With the names [B], [r] and [C] for the three IRIs, the
    expression [[AND](<http://x/B> [EX.](<http://x/r> <http://x/C>))] (also
    in its unabbreviated form) is verbalised as ["B that r C"] without
    quantifier words and as ["B that r some C"] with them.  In general a
    restriction with the children [p] and [c] is verbalised as the text of
    [p], a space, ["some "] or ["only "] if quantifier words are asked for,
    and the text of [c], stripped of leading white space, and after
    ["something that "] when the restriction is not part of a junction. *)
Theorem restriction_verbalisation :
  (forall nlp d q,
     let self :=
       mkVerbaliser [("http://x/B", "B"); ("http://x/r", "r"); ("http://x/C", "C")]
         false false q in
     forall e,
       e = "[AND](<http://x/B> [EX.](<http://x/r> <http://x/C>))" \/
       e = "ObjectIntersectionOf(<http://x/B> ObjectSomeValuesFrom(<http://x/r> <http://x/C>))" ->
       exists cfg,
         verbalise_class_expression nlp self (S (S d)) (FromText e) = ([], Ok cfg) /\
         verbal cfg = if q then "B that r some C" else "B that r C") /\
  (forall nlp self vce node p c add_something o1 P o2 C,
     startswith (name node) "EX." = true \/ startswith (name node) "ALL" = true ->
     children node = [p; c] ->
     _verbalise_property nlp self p = (o1, Ok P) ->
     vce (FromText (text c)) = (o2, Ok C) ->
     _verbalise_restriction nlp self vce node add_something =
       ((o1 ++ o2)%list,
        Ok (mkRestriction
              ((if add_something then "something that " else "") ++
               lstrip (verbal P ++ " " ++
                       (if add_quantifier_word self
                        then (if startswith (name node) "EX." then "some" else "only") ++ " "
                        else "") ++
                       verbal C))
              P C (take 3 (name node))))).
Proof.
  split; [|exact verbalise_restriction_ok].
  intros nlp d q self e [-> | ->]; destruct q; eexists; (split; [vm_compute; reflexivity|]);
    reflexivity.
Qed.

Lemma restriction_verbalisation_witness :
  exists cfg,
    verbalise_class_expression (fun _ => [])
      (mkVerbaliser [("http://x/B", "B"); ("http://x/r", "r"); ("http://x/C", "C")]
         false false true) 2
      (FromText "[AND](<http://x/B> [EX.](<http://x/r> <http://x/C>))") = ([], Ok cfg) /\
    verbal cfg = "B that r some C".
Proof.
  apply (proj1 restriction_verbalisation (fun _ => []) 0%nat true). left. reflexivity.
Defined.

(** C8 as the claim states it fails: with [keep_iri] set the vocabulary
    is not looked at, so an IRI without a name is verbalised without a
    warning; and with the auto-correction of a property whose first token is
    tagged as a noun the text returned is not the text of the leaf. *)
Lemma missing_name_counterexample :
  let node := mkRangeNode 6 (Fin 18) "A@[6:18]" "<http://x/A>" true [] in
  lookup (iri_of node) [] = None /\
  _verbalise_iri (fun _ => []) (mkVerbaliser [] true false false) node false
    = ([], Ok (IriCfg "<http://x/A>" "http://x/A")) /\
  _verbalise_iri (fun _ => [mkToken "NOUN" "<"]) (mkVerbaliser [] false true false) node true
    = ([missing_name_warning "http://x/A"], Ok (IriCfg "is <http://x/A>" "http://x/A")) /\
  "is <http://x/A>" <> text node.
Proof.
  intros node. split; [reflexivity|]. split; [reflexivity|]. split; [reflexivity|].
  discriminate.
Qed.

(** C8, amended.  When IRIs are not kept and the IRI of an identifier leaf
    is not a key of the vocabulary, [_verbalise_iri] logs the missing-name
    warning and goes on as it would with the text of the leaf as the name:
    without auto-correction it returns that text, with auto-correction that
    text as the noun or verb phrase rule leaves it.  It raises nothing,
    unless the auto-correction of a property meets an empty document.  The
    same holds for [verbalise_class_expression] on the leaf.  When IRIs are
    kept the vocabulary is not looked at: the call does what it does in the
    first case, but logs nothing. *)
Theorem missing_name_fallback :
  (forall nlp self node is_property,
     keep_iri self = false -> lookup (iri_of node) (vocab self) = None ->
     _verbalise_iri nlp self node is_property =
     bind (emit (missing_name_warning (iri_of node)))
       (fun _ => _verbalise_iri nlp
                   (update_entity_name self (iri_of node) (text node)) node is_property)) /\
  (forall nlp self node is_property,
     keep_iri self = false -> lookup (iri_of node) (vocab self) = None ->
     apply_auto_correction self = false ->
     _verbalise_iri nlp self node is_property =
       ([missing_name_warning (iri_of node)], Ok (IriCfg (text node) (iri_of node)))) /\
  (forall nlp self node is_property,
     keep_iri self = false -> lookup (iri_of node) (vocab self) = None ->
     is_property = false \/ nlp (text node) <> [] ->
     exists verbal,
       _verbalise_iri nlp self node is_property =
         ([missing_name_warning (iri_of node)], Ok (IriCfg verbal (iri_of node)))) /\
  (forall nlp self d node,
     is_iri node = true ->
     keep_iri self = false -> lookup (iri_of node) (vocab self) = None ->
     exists verbal,
       verbalise_class_expression nlp self (S d) (FromNode node) =
         ([missing_name_warning (iri_of node)], Ok (IriCfg verbal (iri_of node)))) /\
  (forall nlp self node is_property,
     keep_iri self = false -> lookup (iri_of node) (vocab self) = None ->
     _verbalise_iri nlp self node is_property =
     bind (emit (missing_name_warning (iri_of node)))
       (fun _ => bind (if apply_auto_correction self
                       then if is_property then lift (_fix_verb_phrase nlp (text node))
                            else ret (_fix_noun_phrase (text node))
                       else ret (text node))
                      (fun verbal => ret (IriCfg verbal (iri_of node))))) /\
  (forall nlp self node is_property,
     keep_iri self = true ->
     _verbalise_iri nlp self node is_property =
     bind (if apply_auto_correction self
           then if is_property then lift (_fix_verb_phrase nlp (text node))
                else ret (_fix_noun_phrase (text node))
           else ret (text node))
          (fun verbal => ret (IriCfg verbal (iri_of node)))).
Proof.
  assert (NoFail : forall nlp self node is_property,
     keep_iri self = false -> lookup (iri_of node) (vocab self) = None ->
     is_property = false \/ nlp (text node) <> [] ->
     exists verbal,
       _verbalise_iri nlp self node is_property =
         ([missing_name_warning (iri_of node)], Ok (IriCfg verbal (iri_of node)))).
  { intros nlp self node is_property K L H.
    rewrite (verbalise_iri_missing nlp self node is_property K L).
    destruct (apply_auto_correction self); [|eexists; reflexivity].
    destruct is_property; [|eexists; reflexivity].
    destruct H as [H|H]; [discriminate|].
    unfold _fix_verb_phrase. destruct (nlp (text node)) as [|t ts]; [contradiction|].
    destruct (_ || _)%bool; eexists; reflexivity. }
  split; [|split; [|split; [exact NoFail|split; [|split]]]].
  - intros nlp self node is_property K L.
    rewrite (verbalise_iri_missing nlp self node is_property K L).
    rewrite (verbalise_iri_found nlp (update_entity_name self (iri_of node) (text node))
               node is_property (text node) K (lookup_update _ _ _)).
    reflexivity.
  - intros nlp self node is_property K L A.
    rewrite (verbalise_iri_missing nlp self node is_property K L), A. reflexivity.
  - intros nlp self d node I K L.
    rewrite (verbalise_class_expression_iri nlp self d node I).
    apply NoFail; [assumption.. | left; reflexivity].
  - exact verbalise_iri_missing.
  - intros nlp self node is_property K. unfold _verbalise_iri. fold (iri_of node).
    rewrite K, bind_ret. reflexivity.
Qed.

Lemma missing_name_fallback_witness :
  _verbalise_iri (fun _ => []) (mkVerbaliser [("http://x/B", "B")] false false false)
    (mkRangeNode 6 (Fin 18) "A@[6:18]" "<http://x/A>" true []) false
  = (["Use full IRI as no vocab (defaults to `rdfs:label`) found for http://x/A. "],
     Ok (IriCfg "<http://x/A>" "http://x/A")).
Proof.
  apply (proj1 (proj2 missing_name_fallback)); reflexivity.
Defined.

(** C2 (the code departs from the claim).  The value of
    [results.verbal.lstrip()] is dropped, so the text of a junction of
    restrictions only starts with a space: for two existential restrictions
    on [r] under a conjunction it is [" something that r C1 and C2"], the two
    restrictions being merged into one group.  The expression as the claim
    writes it, with no space between [<r>] and [<C1>], is not parsed at
    all. *)
Theorem junction_of_restrictions_only :
  (forall nlp d,
     let self :=
       mkVerbaliser [("http://x/r", "r"); ("http://x/C1", "C1"); ("http://x/C2", "C2")]
         false false false in
     exists group,
       verbalise_class_expression nlp self (S (S d))
         (FromText "[AND]([EX.](<http://x/r> <http://x/C1>) [EX.](<http://x/r> <http://x/C2>))")
       = ([], Ok (JunctionCfg " something that r C1 and C2" [group] "AND")) /\
       verbal group = "r C1 and C2") /\
  (forall junction_word merged_children,
     junction_verbal junction_word [] merged_children =
     " something that "
       ++ join (" " ++ junction_word ++ " ") (List.map verbal merged_children)) /\
  (forall nlp self d,
     verbalise_class_expression nlp self (S d)
       (FromText "[AND]([EX.](<r><C1>) [EX.](<r><C2>))")
     = ([], Err partial_overlap_error)).
Proof.
  split; [|split].
  - intros nlp d self. eexists. split; [vm_compute; reflexivity | reflexivity].
  - reflexivity.
  - intros nlp self d. cbn [verbalise_class_expression].
    unfold verbalise_class_expression_body.
    replace (parse "[AND]([EX.](<r><C1>) [EX.](<r><C2>))")
      with (@raise RangeNode partial_overlap_error) by (vm_compute; reflexivity).
    reflexivity.
Qed.

(** C3 as the claim states it fails: in the conjunction below the universal
    restriction comes before the existential one, and in the result the
    existential one comes first. *)
Lemma junction_order_counterexample :
  exists root junction universal existential first second,
    parse "[AND]([ALL](<http://x/r> <http://x/C>) [EX.](<http://x/s> <http://x/D>))"
      = ([], Ok root) /\
    children root = [junction] /\
    children junction = [universal; existential] /\
    startswith (name universal) "ALL" = true /\
    startswith (name existential) "EX." = true /\
    verbalise_class_expression (fun _ => [])
      (mkVerbaliser [("http://x/r", "r"); ("http://x/s", "s");
                     ("http://x/C", "C"); ("http://x/D", "D")] false false true)
      2 (FromNode junction)
      = ([], Ok (JunctionCfg " something that s some D and r only C" [first; second] "AND")) /\
    (verbal first, cfg_type first) = ("s some D", "EX.") /\
    (verbal second, cfg_type second) = ("r only C", "ALL").
Proof.
  do 6 eexists.
  split; [vm_compute; reflexivity|].
  split; [reflexivity|]. split; [reflexivity|].
  split; [reflexivity|]. split; [reflexivity|].
  split; [vm_compute; reflexivity|].
  split; reflexivity.
Qed.

(** C3, amended.  [_verbalise_junction] verbalises the children from left
    to right, the restrictions without ["something that "], and fails where
    the first of them fails.  In the result the children that are no
    restrictions come first, in their order in the tree; then the groups of
    the existential restrictions; then the groups of the universal
    restrictions.  A group holds the restrictions of one kind whose property
    is verbalised as the same string, in their order in the tree, and the
    groups of a kind are in the order of their first members
    ([group_by_property]); each group is one child of the result
    ([merge_groups]). *)
Theorem junction_grouping :
  forall nlp self vce node,
    startswith (name node) "AND" = true \/ startswith (name node) "OR." = true ->
    let junction_word := if startswith (name node) "AND" then "and" else "or" in
    _verbalise_junction nlp self vce node =
    bind (map_m (verbalise_child nlp self vce) (children node))
      (fun rs =>
         let merged :=
           merge_groups junction_word (take 3 (name node))
             (group_by_property (existentials rs) ++ group_by_property (universals rs)) in
         ret (JunctionCfg (junction_verbal junction_word (others rs) merged)
                (others rs ++ merged)%list
                (take 3 (name node)))).
Proof. exact verbalise_junction_eq. Qed.

Lemma junction_grouping_witness :
  let C := mkRangeNode 19 (Fin 31) "C@[19:31]" "<http://x/C>" true [] in
  let r := mkRangeNode 6 (Fin 18) "r@[6:18]" "<http://x/r>" true [] in
  let e := mkRangeNode 0 (Fin 32) "EX.@[0:32]" "[EX.](<http://x/r> <http://x/C>)" false [r; C] in
  let B := mkRangeNode 33 (Fin 45) "B@[33:45]" "<http://x/B>" true [] in
  let j := mkRangeNode (-6) (Fin 46) "AND@[-6:46]" "" false [e; B] in
  let self := mkVerbaliser [("http://x/B", "B"); ("http://x/r", "r"); ("http://x/C", "C")]
                false false false in
  exists group,
    _verbalise_junction (fun _ => []) self (verbalise_class_expression (fun _ => []) self 1) j
    = ([], Ok (JunctionCfg "B that r C" [IriCfg "B" "http://x/B"; group] "AND")).
Proof.
  intros C r e B j self. eexists.
  rewrite (junction_grouping (fun _ => []) self
             (verbalise_class_expression (fun _ => []) self 1) j (or_introl eq_refl)).
  vm_compute. reflexivity.
Defined.

(* ================================================================== *)
(** * More on the range tree *)

(** ** Comparison *)

(** X1.  [a > b] raises exactly when neither range contains the other and
    no gap separates them, and then with the partial-overlap error; so two
    ranges of which one ends where the other starts cannot be compared.
    [a > b] and [b > a] are both [True] exactly for equal ranges. *)
Theorem comparison_outcomes :
  forall a b,
    (__gt__ a b = Err partial_overlap_error <->
       ~ contains a b /\ ~ contains b a /\ ~ separated a b) /\
    (forall e, __gt__ a b = Err e -> e = partial_overlap_error) /\
    (__gt__ a b = Ok CFalse <-> contains b a /\ ~ contains a b) /\
    (__gt__ a b = Ok CIrrelevant <-> separated a b /\ ~ contains a b /\ ~ contains b a) /\
    (__gt__ a b = Ok CTrue /\ __gt__ b a = Ok CTrue <-> same_range a b) /\
    (valid a -> valid b -> end_ a = Fin (start b) ->
       __gt__ a b = Err partial_overlap_error /\ __gt__ b a = Err partial_overlap_error).
Proof.
  intros a b.
  assert (Err_iff : forall x y, __gt__ x y = Err partial_overlap_error <->
            ~ contains x y /\ ~ contains y x /\ ~ separated x y).
  { intros x y. split; [intros H; apply gt_error in H; tauto|].
    intros (N1 & N2 & N3).
    destruct (gt_total x y) as [H|[H|[H|H]]]; [| | |exact H]; exfalso.
    - apply gt_true in H. tauto.
    - apply gt_false in H. tauto.
    - apply gt_irrelevant in H. tauto. }
  split; [apply Err_iff|]. split; [intros e H; apply gt_error in H; tauto|].
  split; [|split; [|split]].
  - split; [apply gt_false|]. intros [C N].
    destruct (gt_total a b) as [H|[H|[H|H]]]; [|exact H| |]; exfalso.
    + apply gt_true in H. tauto.
    + apply gt_irrelevant in H. tauto.
    + apply gt_error in H. tauto.
  - split; [apply gt_irrelevant|]. intros (S & N1 & N2).
    destruct (gt_total a b) as [H|[H|[H|H]]]; [| |exact H|]; exfalso.
    + apply gt_true in H. tauto.
    + apply gt_false in H. tauto.
    + apply gt_error in H. tauto.
  - rewrite !gt_true. clear. split; ranges.
    + split; [lia | f_equal; lia].
    + split; [lia | reflexivity].
  - intros Va Vb E. rewrite !Err_iff. clear Err_iff. revert Va Vb E. ranges.
Qed.

Lemma comparison_outcomes_witness :
  __gt__ (mkRangeNode 6 (Fin 18) "A@[6:18]" "<http://x/A>" true [])
         (mkRangeNode 18 (Fin 30) "B@[18:30]" "<http://x/B>" true [])
  = Err partial_overlap_error.
Proof.
  apply (proj2 (proj2 (proj2 (proj2 (proj2
    (comparison_outcomes
       (mkRangeNode 6 (Fin 18) "A@[6:18]" "<http://x/A>" true [])
       (mkRangeNode 18 (Fin 30) "B@[18:30]" "<http://x/B>" true []))))))).
  - unfold valid. simpl. lia.
  - unfold valid. simpl. lia.
  - reflexivity.
Defined.

(** ** Sorting siblings *)

Lemma perm_insert_by_start n l : Permutation (insert_by_start n l) (n :: l).
Proof.
  induction l as [|m l IH]; simpl; [reflexivity|].
  destruct (start n <=? start m); [reflexivity|].
  rewrite IH. apply perm_swap.
Qed.

Lemma perm_sort_by_start l : Permutation (sort_by_start l) l.
Proof.
  induction l as [|n l IH]; simpl; [reflexivity|].
  rewrite perm_insert_by_start, IH. reflexivity.
Qed.

Lemma sorted_insert_by_start n l :
  ForallOrdPairs le_start l -> ForallOrdPairs le_start (insert_by_start n l).
Proof.
  induction l as [|m l IH]; simpl; intros H.
  - constructor; constructor.
  - inversion H as [|? ? Hm Hl]; subst.
    destruct (start n <=? start m) eqn:E.
    + apply Z.leb_le in E. constructor; [|exact H].
      constructor; [exact E|]. eapply Forall_impl; [|exact Hm].
      intros x Hx. unfold le_start in *. lia.
    + apply Z.leb_gt in E. constructor; [|apply IH; exact Hl].
      apply Forall_forall. intros x Hx. apply in_insert_by_start in Hx.
      destruct Hx as [->|Hx]; [unfold le_start; lia|].
      rewrite Forall_forall in Hm. apply Hm. exact Hx.
Qed.

Lemma sorted_sort_by_start l : ForallOrdPairs le_start (sort_by_start l).
Proof.
  induction l as [|n l IH]; simpl; [constructor | apply sorted_insert_by_start; exact IH].
Qed.

(** ** [sort_by_start] on a list of objects *)

Lemma in_dict_keys refs : forall r, In r (dict_keys refs) <-> In r refs.
Proof.
  induction refs as [|a refs IH]; intros r; simpl; [tauto|].
  rewrite filter_In, IH, negb_true_iff, Nat.eqb_neq.
  destruct (Nat.eq_dec r a) as [->|N]; [tauto|]. intuition congruence.
Qed.

Lemma nodup_dict_keys refs : NoDup (dict_keys refs).
Proof.
  induction refs as [|a refs IH]; simpl; constructor.
  - rewrite filter_In, negb_true_iff, Nat.eqb_neq. tauto.
  - apply NoDup_filter. exact IH.
Qed.

Lemma filter_all {A : Type} (p : A -> bool) l :
  Forall (fun x => p x = true) l -> List.filter p l = l.
Proof.
  induction 1 as [|x l Hx _ IH]; simpl; [reflexivity|]. rewrite Hx, IH. reflexivity.
Qed.

Lemma dict_keys_distinct refs : NoDup refs -> dict_keys refs = refs.
Proof.
  induction 1 as [|a refs Ha _ IH]; simpl; [reflexivity|].
  rewrite IH. f_equal. apply filter_all. apply Forall_forall. intros x Hx.
  apply negb_true_iff, Nat.eqb_neq. intros ->. contradiction.
Qed.

Lemma length_filter_le {A : Type} (p : A -> bool) l :
  (List.length (List.filter p l) <= List.length l)%nat.
Proof. induction l as [|x l IH]; simpl; [lia|]. destruct (p x); simpl; lia. Qed.

Lemma length_filter_all {A : Type} (p : A -> bool) l :
  List.length (List.filter p l) = List.length l -> Forall (fun x => p x = true) l.
Proof.
  induction l as [|x l IH]; simpl; intros H; [constructor|].
  pose proof (length_filter_le p l) as L.
  destruct (p x) eqn:E; simpl in H; [|lia].
  constructor; [exact E | apply IH; lia].
Qed.

Lemma length_dict_keys refs : (List.length (dict_keys refs) <= List.length refs)%nat.
Proof.
  induction refs as [|a refs IH]; simpl; [lia|].
  pose proof (length_filter_le (fun x => negb (Nat.eqb x a)) (dict_keys refs)). lia.
Qed.

Lemma length_dict_keys_distinct refs :
  List.length (dict_keys refs) = List.length refs -> NoDup refs.
Proof.
  induction refs as [|a refs IH]; simpl; intros H; [constructor|].
  pose proof (length_filter_le (fun x => negb (Nat.eqb x a)) (dict_keys refs)) as L1.
  pose proof (length_dict_keys refs) as L2.
  assert (E : List.length (dict_keys refs) = List.length refs) by lia.
  specialize (IH E). constructor; [|exact IH].
  assert (F : List.length (List.filter (fun x => negb (Nat.eqb x a)) (dict_keys refs))
              = List.length (dict_keys refs)) by lia.
  apply length_filter_all in F. rewrite Forall_forall in F.
  intros Ha. apply in_dict_keys in Ha. specialize (F a Ha).
  rewrite Nat.eqb_refl in F. discriminate.
Qed.

Section StoreFacts.
Variable store : nat -> RangeNode.

Lemma in_insert_ref r l x : In x (insert_ref store r l) <-> x = r \/ In x l.
Proof.
  induction l as [|m l IH]; simpl; [intuition congruence|].
  destruct (start (store r) <=? start (store m)); simpl; [intuition congruence|].
  rewrite IH. intuition congruence.
Qed.

Lemma perm_insert_ref r l : Permutation (insert_ref store r l) (r :: l).
Proof.
  induction l as [|m l IH]; simpl; [reflexivity|].
  destruct (start (store r) <=? start (store m)); [reflexivity|].
  rewrite IH. apply perm_swap.
Qed.

Lemma perm_fold_insert_ref l : Permutation (List.fold_right (insert_ref store) [] l) l.
Proof.
  induction l as [|r l IH]; simpl; [reflexivity|].
  rewrite perm_insert_ref, IH. reflexivity.
Qed.

Lemma sorted_insert_ref r l :
  ForallOrdPairs (fun a b => start (store a) <= start (store b)) l ->
  ForallOrdPairs (fun a b => start (store a) <= start (store b)) (insert_ref store r l).
Proof.
  induction l as [|m l IH]; simpl; intros H.
  - constructor; constructor.
  - inversion H as [|? ? Hm Hl]; subst.
    destruct (start (store r) <=? start (store m)) eqn:E.
    + apply Z.leb_le in E. constructor; [|exact H].
      constructor; [exact E|]. eapply Forall_impl; [|exact Hm].
      simpl. intros x Hx. lia.
    + apply Z.leb_gt in E. constructor; [|apply IH; exact Hl].
      apply Forall_forall. intros x Hx. apply in_insert_ref in Hx.
      destruct Hx as [->|Hx]; [lia|].
      rewrite Forall_forall in Hm. apply Hm. exact Hx.
Qed.

Lemma filter_insert_ref k r l :
  List.filter (fun x => start (store x) =? k) (insert_ref store r l) =
  if start (store r) =? k then r :: List.filter (fun x => start (store x) =? k) l
  else List.filter (fun x => start (store x) =? k) l.
Proof.
  induction l as [|m l IH]; simpl; [reflexivity|].
  destruct (start (store r) <=? start (store m)) eqn:E; simpl; [reflexivity|].
  rewrite IH. apply Z.leb_gt in E.
  destruct (start (store r) =? k) eqn:En; [|reflexivity].
  destruct (start (store m) =? k) eqn:Em; [|reflexivity].
  apply Z.eqb_eq in En. apply Z.eqb_eq in Em. lia.
Qed.

Lemma map_insert_ref r l :
  List.map store (insert_ref store r l) = insert_by_start (store r) (List.map store l).
Proof.
  induction l as [|m l IH]; simpl; [reflexivity|].
  destruct (start (store r) <=? start (store m)); simpl; [reflexivity|].
  rewrite IH. reflexivity.
Qed.

(** On a list that names no object twice the method is the function on the
    values of the objects which [insert_child] is modelled with. *)
Lemma sort_by_start_refs_distinct refs :
  NoDup refs ->
  List.map store (sort_by_start_refs store refs) = sort_by_start (List.map store refs).
Proof.
  intros N. unfold sort_by_start_refs, sort_by_start. rewrite (dict_keys_distinct refs N).
  clear N. induction refs as [|r refs IH]; simpl; [reflexivity|].
  rewrite map_insert_ref, IH. reflexivity.
Qed.
End StoreFacts.

(** X2.  [sort_by_start] returns each object the list names once, however
    often the list names it, in non-decreasing order of [start]; objects
    with the same [start] are in the order in which the list names them
    first.  A list that names no object twice is returned rearranged, and as
    it is if it is already in order; a list that names an object twice comes
    back shorter. *)
Theorem sort_by_start_sorts :
  forall store refs,
    let le a b := start (store a) <= start (store b) in
    let sorted := sort_by_start_refs store refs in
    NoDup sorted /\
    (forall r, In r sorted <-> In r refs) /\
    ForallOrdPairs le sorted /\
    (forall k, List.filter (fun r => start (store r) =? k) sorted
               = List.filter (fun r => start (store r) =? k) (dict_keys refs)) /\
    (NoDup refs ->
       Permutation sorted refs /\
       (ForallOrdPairs le refs -> sorted = refs) /\
       List.map store sorted = sort_by_start (List.map store refs)) /\
    (~ NoDup refs -> (List.length sorted < List.length refs)%nat).
Proof.
  intros store refs le sorted.
  assert (P : Permutation sorted (dict_keys refs)) by apply perm_fold_insert_ref.
  split; [|split; [|split; [|split; [|split]]]].
  - apply (Permutation_NoDup (Permutation_sym P)). apply nodup_dict_keys.
  - intros r. split; intros H.
    + apply in_dict_keys. apply (Permutation_in _ P H).
    + apply in_dict_keys in H. apply (Permutation_in _ (Permutation_sym P) H).
  - clear P. unfold sorted, sort_by_start_refs. generalize (dict_keys refs). intros l.
    induction l as [|r l IH]; simpl; [constructor | apply sorted_insert_ref; exact IH].
  - intros k. clear P. unfold sorted, sort_by_start_refs. generalize (dict_keys refs).
    intros l. induction l as [|r l IH]; simpl; [reflexivity|].
    rewrite filter_insert_ref, IH. reflexivity.
  - intros N. split; [|split].
    + rewrite (dict_keys_distinct refs N) in P. exact P.
    + clear P. unfold sorted, sort_by_start_refs. rewrite (dict_keys_distinct refs N).
      clear N sorted. induction refs as [|n l IH]; intros H; [reflexivity|].
      inversion H as [|? ? Hn Hl]; subst. simpl. rewrite (IH Hl).
      destruct l as [|m l]; [reflexivity|]. simpl.
      inversion Hn as [|? ? Hnm _]; subst. unfold le in Hnm.
      apply Z.leb_le in Hnm. rewrite Hnm. reflexivity.
    + apply sort_by_start_refs_distinct. exact N.
  - intros N. pose proof (length_dict_keys refs) as L.
    rewrite (Permutation_length P).
    assert (D : List.length (dict_keys refs) <> List.length refs).
    { intros E. apply N. apply length_dict_keys_distinct. exact E. }
    lia.
Qed.

Lemma sort_by_start_sorts_witness :
  let C := mkRangeNode 19 (Fin 31) "C@[19:31]" "<http://x/C>" true [] in
  let r := mkRangeNode 6 (Fin 18) "r@[6:18]" "<http://x/r>" true [] in
  let store := fun a => match a with O => C | _ => r end in
  sort_by_start_refs store [0; 1; 0]%nat = [1; 0]%nat /\
  (List.length (sort_by_start_refs store [0; 1; 0]%nat) < 3)%nat /\
  List.map store (sort_by_start_refs store [0; 1]%nat) = sort_by_start [C; r].
Proof.
  intros C r store. split; [reflexivity|]. split.
  - apply (proj2 (proj2 (proj2 (proj2 (proj2 (sort_by_start_sorts store [0; 1; 0]%nat)))))).
    intros N. inversion N as [|? ? H _]; subst. apply H. simpl. tauto.
  - apply (proj1 (proj2 (proj2 (proj2 (proj2 (sort_by_start_sorts store [0; 1]%nat)))))).
    constructor; [simpl; intros [E|[]]; discriminate|]. constructor; [simpl; tauto | constructor].
Defined.

(** ** Insertion *)

Lemma insert_child_label t node t' : insert_child t node = Ok t' -> label t' = label t.
Proof.
  rewrite insert_child_eq. destruct (__gt__ node t) as [c|]; [|discriminate].
  destruct (truthy c); [discriminate|].
  destruct (_ && _)%bool; [intros [= <-]; reflexivity|].
  destruct (children t).
  - intros [= <-]. reflexivity.
  - destruct (insert_loop _ _ _ _); [|discriminate]. intros [= <-]. reflexivity.
Qed.

(** X3.  A successful insertion of a fresh node into a well-formed tree
    gives a well-formed tree: every child lies in the range of its parent
    without filling it, and any two siblings are separated by a gap.  The
    root keeps its range, name and text. *)
Theorem insertion_keeps_shape :
  forall t node t',
    well_formed t -> valid node -> children node = [] ->
    insert_child t node = Ok t' ->
    well_formed t' /\ label t' = label t.
Proof.
  intros t node t' W V C H. split.
  - apply (insert_child_wf t node t' W V C H).
  - apply (insert_child_label t node t' H).
Qed.

Lemma insertion_keeps_shape_witness :
  exists t',
    insert_child (mkRangeNode 0 Inf "Root@[0:inf]" "" false [])
                 (mkRangeNode 6 (Fin 18) "A@[6:18]" "<http://x/A>" true []) = Ok t' /\
    well_formed t'.
Proof.
  eexists. split; [reflexivity|].
  apply (insertion_keeps_shape (mkRangeNode 0 Inf "Root@[0:inf]" "" false [])
           (mkRangeNode 6 (Fin 18) "A@[6:18]" "<http://x/A>" true [])).
  - apply wf_leaf; [exact I | reflexivity].
  - unfold valid. simpl. lia.
  - reflexivity.
  - reflexivity.
Defined.

(** X4.  Inserting a node whose range is the range of a node of a
    well-formed tree, at any depth, raises ["invalid child node"]: the
    check for a duplicated node is never reached. *)
Theorem duplicate_range_rejected :
  forall t node b,
    well_formed t -> In b (nodes t) -> same_range node b ->
    insert_child t node = Err invalid_child_error.
Proof. intros t node b W I S. exact (insert_child_duplicate t W node b I S). Qed.

Lemma duplicate_range_rejected_witness :
  insert_child
    (mkRangeNode 0 Inf "Root@[0:inf]" "" false
       [mkRangeNode 6 (Fin 18) "A@[6:18]" "<http://x/A>" true []])
    (mkRangeNode 6 (Fin 18) "A@[6:18]" "<http://x/A>" true [])
  = Err invalid_child_error.
Proof.
  apply (duplicate_range_rejected _ _ (mkRangeNode 6 (Fin 18) "A@[6:18]" "<http://x/A>" true [])).
  - constructor; simpl.
    + exact I.
    + constructor; [|constructor]. unfold inside, contains. simpl. lia.
    + constructor; constructor.
    + constructor; [|constructor]. apply wf_leaf; [unfold valid; simpl; lia | reflexivity].
  - simpl. right. left. reflexivity.
  - split; reflexivity.
Defined.

(** X5.  A node whose range is not inside the range of the receiver is
    rejected with ["invalid child node"]: one that contains it, and also one
    that lies apart from it, since the string ["irrelevant"] counts as
    true. *)
Theorem outside_node_rejected :
  forall t node,
    valid t -> valid node ->
    contains node t \/ separated node t ->
    insert_child t node = Err invalid_child_error.
Proof.
  intros t node Vt Vn H. rewrite insert_child_eq.
  destruct (gt_total node t) as [G|[G|[G|G]]]; rewrite G; try reflexivity; exfalso.
  - apply gt_false in G. clear - G H Vt Vn. revert G H Vt Vn. ranges.
  - apply gt_error in G. tauto.
Qed.

Lemma outside_node_rejected_witness :
  insert_child (mkRangeNode 0 (Fin 19) "NEG@[0:19]" "" false [])
               (mkRangeNode 25 (Fin 30) "A@[25:30]" "" true [])
  = Err invalid_child_error.
Proof.
  apply outside_node_rejected.
  - unfold valid. simpl. lia.
  - unfold valid. simpl. lia.
  - right. unfold separated. simpl. lia.
Defined.

(** ** Insertion keeps every node *)

Lemma labels_eq t : labels t = label t :: List.flat_map labels (children t).
Proof.
  unfold labels. rewrite nodes_eq. simpl. f_equal.
  induction (children t) as [|c cs IH]; simpl; [reflexivity|].
  rewrite map_app, IH. reflexivity.
Qed.

Lemma labels_adopt node ch : labels (adopt node ch) = (labels node ++ labels ch)%list.
Proof.
  rewrite (labels_eq (adopt node ch)), (labels_eq node). simpl.
  rewrite flat_map_app. simpl. rewrite app_nil_r. reflexivity.
Qed.

Lemma insert_loop_labels todo : forall kept node res,
  Forall keeps_labels todo ->
  insert_loop insert_child todo kept node = Ok res ->
  Permutation (List.flat_map labels res)
    (List.flat_map labels kept ++ labels node ++ List.flat_map labels todo).
Proof.
  induction todo as [|ch rest IH]; intros kept node res F H; simpl in H.
  - injection H as <-. rewrite perm_sort_by_start, flat_map_app. simpl.
    rewrite !app_nil_r. reflexivity.
  - inversion F as [|? ? Hch Hrest]; subst. unfold __lt__ in H.
    assert (Descend :
      match insert_child ch node with
      | Ok ch' => Ok (kept ++ ch' :: rest)%list
      | Err e => Err e
      end = Ok res ->
      Permutation (List.flat_map labels res)
        (List.flat_map labels kept ++ labels node ++ List.flat_map labels (ch :: rest))).
    { destruct (insert_child ch node) as [ch'|] eqn:E; [|discriminate].
      intros [= <-]. rewrite flat_map_app. simpl. rewrite (Hch node ch' E).
      rewrite <- app_assoc. reflexivity. }
    assert (Stay :
      match __gt__ node ch with
      | Ok CTrue => insert_loop insert_child rest kept (adopt node ch)
      | Ok _ => insert_loop insert_child rest (kept ++ [ch]) node
      | Err e => Err e
      end = Ok res ->
      Permutation (List.flat_map labels res)
        (List.flat_map labels kept ++ labels node ++ List.flat_map labels (ch :: rest))).
    { assert (Keep : insert_loop insert_child rest (kept ++ [ch]) node = Ok res ->
        Permutation (List.flat_map labels res)
          (List.flat_map labels kept ++ labels node ++ List.flat_map labels (ch :: rest))).
      { intros L. apply (IH _ _ _ Hrest) in L. rewrite L, flat_map_app. simpl.
        rewrite app_nil_r, <- app_assoc. apply Permutation_app_head.
        apply Permutation_app_swap_app. }
      destruct (__gt__ node ch) as [[| |]|]; try discriminate; try exact Keep.
      intros L. apply (IH _ _ _ Hrest) in L. rewrite L, labels_adopt, <- app_assoc.
      reflexivity. }
    destruct (__gt__ ch node) as [[| |]|]; try discriminate; auto.
Qed.

Lemma insert_child_labels t : keeps_labels t.
Proof.
  induction t as [s e nm tx iri chs IH] using RangeNode_forall_ind.
  intros node t'. rewrite insert_child_eq.
  destruct (__gt__ node _) as [c|] eqn:G; [|discriminate].
  destruct c; simpl truthy; cbv iota; try discriminate.
  destruct ((start node =? _) && _)%bool eqn:D.
  { exfalso. apply gt_false in G. apply andb_true_iff in D. destruct D as [D1 D2].
    apply Z.eqb_eq in D1. apply num_eqb_eq in D2. simpl in *.
    clear - G D1 D2. ranges. }
  cbn [children]. destruct chs as [|c0 chs0].
  - intros [= <-].
    rewrite (labels_eq (set_children _ _)), (labels_eq (mkRangeNode s e nm tx iri [])).
    cbn [children set_children List.flat_map]. rewrite app_nil_r.
    apply Permutation_cons_append.
  - destruct (insert_loop insert_child (c0 :: chs0) [] node) as [res|] eqn:L; [|discriminate].
    intros [= <-]. apply (insert_loop_labels _ _ _ _ IH) in L.
    rewrite (labels_eq (set_children _ _)), (labels_eq (mkRangeNode s e nm tx iri _)).
    cbn [children set_children]. simpl app in L.
    change (label (set_children (mkRangeNode s e nm tx iri (c0 :: chs0)) res))
      with (label (mkRangeNode s e nm tx iri (c0 :: chs0))).
    rewrite L. apply Permutation_middle.
Qed.

Lemma insert_child_count t node t' :
  children node = [] -> insert_child t node = Ok t' ->
  List.length (nodes t') = S (List.length (nodes t)).
Proof.
  intros C H. pose proof (insert_child_labels t node t' H) as P.
  apply Permutation_length in P.
  rewrite length_app in P. unfold labels in P. rewrite !length_map in P.
  rewrite P, (nodes_eq node), C. reflexivity.
Qed.

(** X6.  A successful insertion loses no node and makes none up: the
    nodes of the new tree are, as to their ranges, names and texts, the
    nodes of the old tree and the nodes of the inserted one.  With a fresh
    node the tree grows by exactly one node. *)
Theorem insertion_keeps_nodes :
  forall t node t',
    insert_child t node = Ok t' ->
    Permutation (labels t') (labels node ++ labels t) /\
    (children node = [] -> List.length (nodes t') = S (List.length (nodes t))).
Proof.
  intros t node t' H. split.
  - apply (insert_child_labels t node t' H).
  - intros C. apply (insert_child_count t node t' C H).
Qed.

Lemma insertion_keeps_nodes_witness :
  exists t',
    insert_child
      (mkRangeNode 0 Inf "Root@[0:inf]" "" false
         [mkRangeNode 6 (Fin 18) "A@[6:18]" "<http://x/A>" true []])
      (mkRangeNode 0 (Fin 19) "NEG@[0:19]" "[NEG](<http://x/A>)" false []) = Ok t' /\
    List.length (nodes t') = 3%nat.
Proof.
  eexists. split; [reflexivity|].
  refine (proj2 (insertion_keeps_nodes
    (mkRangeNode 0 Inf "Root@[0:inf]" "" false
       [mkRangeNode 6 (Fin 18) "A@[6:18]" "<http://x/A>" true []])
    (mkRangeNode 0 (Fin 19) "NEG@[0:19]" "[NEG](<http://x/A>)" false []) _ eq_refl) eq_refl).
Defined.

(** ** The order of siblings *)

Lemma le_start_same l l' :
  Forall2 (fun a b => start a = start b) l l' ->
  ForallOrdPairs le_start l -> ForallOrdPairs le_start l'.
Proof.
  induction 1 as [|a a' l l' Ha Hl IH]; intros H; [constructor|].
  inversion H as [|? ? Hx Hp]; subst. constructor; [|apply IH; exact Hp].
  clear IH Hp H. induction Hl as [|b b' l l' Hb Hl IH]; [constructor|].
  inversion Hx; subst. constructor; [|apply IH; assumption].
  unfold le_start in *. lia.
Qed.

Lemma same_start_refl (l : list RangeNode) : Forall2 (fun a b => start a = start b) l l.
Proof. induction l; constructor; [reflexivity | assumption]. Qed.

Lemma insert_child_start t node t' : insert_child t node = Ok t' -> start t' = start t.
Proof. intros H. apply insert_child_label in H. unfold label in H. congruence. Qed.

Lemma ordered_children n : ordered n -> ForallOrdPairs le_start (children n).
Proof. inversion 1; assumption. Qed.

Lemma ordered_subtrees n : ordered n -> Forall ordered (children n).
Proof. inversion 1; assumption. Qed.

Lemma inside_adopt node ch c : inside node c -> inside (adopt node ch) c.
Proof. unfold adopt. ranges. Qed.

Lemma insert_loop_ordered todo : forall kept node res,
  Forall keeps_order todo ->
  ForallOrdPairs le_start (kept ++ todo) ->
  Forall ordered kept -> Forall ordered todo -> ordered node ->
  Forall (fun c => Forall (le_start c) todo) (children node) ->
  Forall well_formed todo -> ForallOrdPairs separated todo ->
  valid node ->
  Forall (inside node) (children node) -> Forall valid (children node) ->
  apart (children node) todo ->
  insert_loop insert_child todo kept node = Ok res ->
  ForallOrdPairs le_start res /\ Forall ordered res.
Proof.
  induction todo as [|ch rest IH];
    intros kept node res F S Ok_k Ok_t On A Wt Pt Vn Ic Vc Act H; simpl in H.
  - injection H as <-. split; [apply sorted_sort_by_start|].
    apply forall_sort_by_start. apply Forall_app. split; [exact Ok_k|].
    constructor; [exact On | constructor].
  - inversion F as [|? ? Hch Hrest]; subst.
    inversion Ok_t as [|? ? Och Orest]; subst.
    inversion Wt as [|? ? Wch Wrest]; subst.
    inversion Pt as [|? ? Sch Prest]; subst.
    unfold __lt__ in H.
    assert (Stay : ~ contains ch node ->
      match __gt__ node ch with
      | Ok CTrue => insert_loop insert_child rest kept (adopt node ch)
      | Ok _ => insert_loop insert_child rest (kept ++ [ch]) node
      | Err e => Err e
      end = Ok res ->
      ForallOrdPairs le_start res /\ Forall ordered res).
    { intros NC.
      assert (Keep : insert_loop insert_child rest (kept ++ [ch]) node = Ok res ->
                     ForallOrdPairs le_start res /\ Forall ordered res).
      { intros L. apply (IH (kept ++ [ch])%list node res); try assumption.
        - rewrite <- app_assoc. exact S.
        - apply Forall_app. split; [exact Ok_k | constructor; [exact Och | constructor]].
        - eapply Forall_impl; [|exact A]. intros c Hc. inversion Hc; assumption.
        - eapply apart_tail; exact Act. }
      destruct (__gt__ node ch) as [[| |]|] eqn:G2; try discriminate; try exact Keep.
      intros L. apply gt_true in G2.
      apply pairs_app in S. destruct S as (Sk & St & Akt).
      inversion St as [|? ? Lch Lrest]; subst.
      apply (IH kept (adopt node ch) res); try assumption.
      - apply pairs_app. repeat split; [exact Sk | exact Lrest |].
        eapply Forall_impl; [|exact Akt]. intros c Hc. inversion Hc; assumption.
      - constructor; simpl.
        + apply pairs_app. repeat split.
          * apply ordered_children. exact On.
          * constructor; constructor.
          * eapply Forall_impl; [|exact A]. intros c Hc. inversion Hc; subst.
            constructor; [assumption | constructor].
        + apply Forall_app. split; [apply ordered_subtrees; exact On|].
          constructor; [exact Och | constructor].
      - simpl. apply Forall_app. split.
        + eapply Forall_impl; [|exact A]. intros c Hc. inversion Hc; assumption.
        + constructor; [exact Lch | constructor].
      - simpl. apply Forall_app. split.
        + eapply Forall_impl; [|exact Ic]. intros c Hc. apply inside_adopt. exact Hc.
        + constructor; [|constructor]. apply inside_adopt. split; assumption.
      - simpl. apply Forall_app. split; [exact Vc|].
        constructor; [apply wf_valid; exact Wch | constructor].
      - simpl. unfold apart. apply Forall_app. split.
        + apply (apart_tail _ _ _ Act).
        + constructor; [exact Sch | constructor]. }
    destruct (__gt__ ch node) as [[| |]|] eqn:G1; try discriminate.
    + apply gt_true in G1.
      assert (Cn : children node = []).
      { destruct (children node) as [|r rs] eqn:Ec; [reflexivity|exfalso].
        inversion Ic as [|? ? Ir _]; subst.
        inversion Vc as [|? ? Vr _]; subst.
        inversion Act as [|? ? Sr _]; subst. inversion Sr as [|? ? Srch _]; subst.
        clear - G1 Ir Vr Srch. ranges. }
      destruct (insert_child ch node) as [ch'|] eqn:E; [|discriminate].
      injection H as <-. split.
      * apply (le_start_same (kept ++ ch :: rest)); [|exact S].
        apply Forall2_app; [apply same_start_refl|].
        constructor; [|apply same_start_refl].
        symmetry. apply (insert_child_start _ _ _ E).
      * apply Forall_app. split; [exact Ok_k|].
        constructor; [|exact Orest]. apply (Hch node ch' Wch Och Vn Cn E).
    + apply Stay; [|exact H]. rewrite <- gt_true. congruence.
    + apply Stay; [|exact H]. rewrite <- gt_true. congruence.
Qed.

Lemma insert_child_ordered t : keeps_order t.
Proof.
  induction t as [s e nm tx iri chs IH] using RangeNode_forall_ind.
  intros node t' W Ot Vn Cn. rewrite insert_child_eq.
  destruct (__gt__ node _) as [c|] eqn:G; [|discriminate].
  destruct (truthy c); [discriminate|].
  destruct ((start node =? _) && _)%bool; [intros [= <-]; exact Ot|].
  cbn [children]. destruct chs as [|c0 chs0].
  - intros [= <-]. constructor; simpl.
    + constructor; constructor.
    + constructor; [|constructor]. constructor; rewrite Cn; constructor.
  - destruct (insert_loop insert_child (c0 :: chs0) [] node) as [res|] eqn:L; [|discriminate].
    intros [= <-].
    inversion W as [? V Ic Pc Wc]; subst; simpl in V, Ic, Pc, Wc.
    apply (insert_loop_ordered _ _ _ _ IH) in L; rewrite ?Cn; try (constructor; fail).
    + constructor; simpl; tauto.
    + apply (ordered_children _ Ot).
    + apply (ordered_subtrees _ Ot).
    + constructor; rewrite Cn; constructor.
    + exact Wc.
    + exact Pc.
    + exact Vn.
Qed.

Lemma built_ordered t : built t -> ordered t.
Proof.
  induction 1 as [s e nm tx iri root Hi | t s e nm tx iri node t' Hb IH Hi Hins].
  - apply init_ok in Hi. destruct Hi as (_ & _ & _ & _ & C & _).
    constructor; rewrite C; constructor.
  - apply init_ok in Hi.
    apply (insert_child_ordered t node t' (built_wf _ Hb) IH); tauto.
Qed.

Lemma subtree_shape t :
  well_formed t -> ordered t ->
  forall n, In n (nodes t) -> well_formed n /\ ordered n.
Proof.
  induction t as [s e nm tx iri chs IH] using RangeNode_forall_ind.
  intros W O n Hn. apply in_nodes in Hn. destruct Hn as [->|(c & Hc & Hn)]; [tauto|].
  simpl in Hc. inversion W as [? _ _ _ Wc]; subst. inversion O as [? _ Oc]; subst.
  simpl in Wc, Oc. rewrite Forall_forall in IH, Wc, Oc.
  apply (IH c Hc (Wc c Hc) (Oc c Hc) n Hn).
Qed.

Lemma before_pairs l :
  Forall valid l -> ForallOrdPairs separated l -> ForallOrdPairs le_start l ->
  ForallOrdPairs before l.
Proof.
  induction l as [|a l IH]; intros V S L; [constructor|].
  inversion V as [|? ? Va Vl]; subst.
  inversion S as [|? ? Sa Sl]; subst.
  inversion L as [|? ? La Ll]; subst.
  constructor; [|apply IH; assumption].
  rewrite Forall_forall in *. intros b Hb.
  specialize (Vl b Hb). specialize (Sa b Hb). specialize (La b Hb).
  clear - Va Vl Sa La. unfold before, le_start in *. ranges.
Qed.

(** X7.  In a tree built by insertions of fresh nodes, and so in every tree
    [parse] returns, the children of every node are in the order of their
    positions: a child that comes earlier in the list ends before the later
    one starts. *)
Theorem children_in_order :
  (forall t, built t ->
     forall n, In n (nodes t) -> ForallOrdPairs before (children n)) /\
  (forall owl out tree, parse owl = (out, Ok tree) ->
     forall n, In n (nodes tree) -> ForallOrdPairs before (children n)).
Proof.
  assert (B : forall t, built t ->
            forall n, In n (nodes t) -> ForallOrdPairs before (children n)).
  { intros t Bt n Hn.
    destruct (subtree_shape t (built_wf _ Bt) (built_ordered _ Bt) n Hn) as [W O].
    inversion W as [? _ _ Pc Wc]; subst. apply before_pairs.
    - eapply Forall_impl; [|exact Wc]. intros c. apply wf_valid.
    - exact Pc.
    - apply ordered_children. exact O. }
  split; [exact B|].
  intros owl out tree H. apply B. apply (parse_built owl out tree H).
Qed.

Lemma children_in_order_witness :
  exists tree,
    parse "ObjectIntersectionOf(<http://x/B> ObjectSomeValuesFrom(<http://x/r> <http://x/C>))"
      = ([], Ok tree) /\
    forall n, In n (nodes tree) -> ForallOrdPairs before (children n).
Proof.
  eexists. split; [vm_compute; reflexivity|].
  apply (proj2 children_in_order
           "ObjectIntersectionOf(<http://x/B> ObjectSomeValuesFrom(<http://x/r> <http://x/C>))" []).
  vm_compute. reflexivity.
Defined.

(* ================================================================== *)
(** * More on the parser *)

Lemma node_of_pair_fresh owl for_iri start i node :
  node_of_pair owl for_iri start i = Ok node -> children node = [] /\ valid node.
Proof.
  unfold node_of_pair. destruct for_iri; intros H; apply init_ok in H; tauto.
Qed.

Lemma scan_step_cases owl for_iri st i c out st' :
  scan_step owl for_iri st i c = (out, Ok st') ->
  let stk1 := if Ascii.eqb c (left_par for_iri) then i :: stack st else stack st in
  (Ascii.eqb c (right_par for_iri) = false /\ st' = mkScan stk1 (parsed st)) \/
  (Ascii.eqb c (right_par for_iri) = true /\ stk1 = [] /\ st' = mkScan [] (parsed st)) \/
  (Ascii.eqb c (right_par for_iri) = true /\
   exists start stack' node tree,
     stk1 = start :: stack' /\
     node_of_pair owl for_iri start i = Ok node /\
     insert_child (parsed st) node = Ok tree /\
     st' = mkScan stack' tree).
Proof.
  unfold scan_step.
  set (st1 := if Ascii.eqb c (left_par for_iri) then _ else st).
  assert (E1 : stack st1 =
               if Ascii.eqb c (left_par for_iri) then i :: stack st else stack st)
    by (subst st1; destruct (Ascii.eqb c _); reflexivity).
  assert (E2 : parsed st1 = parsed st)
    by (subst st1; destruct (Ascii.eqb c _); reflexivity).
  cbv zeta. rewrite <- E1. clearbody st1. clear E1.
  destruct (Ascii.eqb c (right_par for_iri)).
  - destruct (stack st1) as [|start stack'] eqn:S.
    + intros [= _ <-]. right. left. split; [reflexivity|]. split; [reflexivity|].
      destruct st1; simpl in *; congruence.
    + intros H. apply bind_ok in H. destruct H as (o1 & node & o2 & Hn & H & _).
      apply bind_ok in H. destruct H as (o3 & tree & o4 & Ht & H & _).
      injection H as _ <-. unfold lift in Hn, Ht.
      injection Hn as _ Hn. injection Ht as _ Ht. rewrite E2 in Ht.
      right. right. split; [reflexivity|]. exists start, stack', node, tree. tauto.
  - intros [= _ <-]. left. split; [reflexivity|].
    destruct st1; simpl in *; congruence.
Qed.

Lemma scan_count owl for_iri cs : forall i st out st',
  scan owl for_iri cs i st = (out, Ok st') ->
  (List.length (nodes (parsed st')) + List.length (stack st') =
   List.length (nodes (parsed st)) + List.length (stack st)
     + count_char (left_par for_iri) cs)%nat.
Proof.
  induction cs as [|c cs IH]; intros i st out st'; simpl.
  - intros [= _ <-]. lia.
  - intros H. apply bind_ok in H. destruct H as (o1 & st1 & o2 & H1 & H2 & _).
    apply IH in H2. rewrite H2. clear H2 IH.
    apply scan_step_cases in H1. cbv zeta in H1.
    destruct H1 as [[_ ->]|[(_ & E & ->)|(_ & start & stack' & node & tree & E & N & T & ->)]];
      cbn [parsed stack].
    + destruct (Ascii.eqb c (left_par for_iri)); simpl; lia.
    + destruct (Ascii.eqb c (left_par for_iri)); [discriminate|]. rewrite E. simpl. lia.
    + rewrite (insert_child_count _ _ _ (proj1 (node_of_pair_fresh _ _ _ _ _ N)) T).
      destruct (Ascii.eqb c (left_par for_iri)); [injection E as _ <- | rewrite E]; simpl; lia.
Qed.

Lemma parse_by_parentheses_count owl for_iri already out tree :
  parse_by_parentheses owl for_iri already = (out, Ok tree) ->
  List.length (nodes tree) =
  (List.length (nodes (initial_tree owl already)) + count_char (left_par for_iri) owl)%nat.
Proof.
  rewrite parse_by_parentheses_eq. intros H.
  apply bind_ok in H. destruct H as (o1 & st & o2 & Hs & H & _).
  apply scan_count in Hs. simpl in Hs.
  destruct (stack st); [|discriminate]. injection H as _ <-. simpl in Hs. lia.
Qed.

(** X8.  A tree returned by [parse_by_parentheses] has one node more for
    each opening bracket of the kind it matches; so a tree returned by
    [parse] has the root and one node for each ["("] and each ["<"] of the
    abbreviated expression, however many unmatched closing brackets were
    reported. *)
Theorem one_node_per_bracket :
  (forall owl for_iri already out tree,
     parse_by_parentheses owl for_iri already = (out, Ok tree) ->
     List.length (nodes tree) =
     (List.length (nodes (initial_tree owl already)) + count_char (left_par for_iri) owl)%nat) /\
  (forall owl out tree,
     parse owl = (out, Ok tree) ->
     List.length (nodes tree) =
     (1 + count_char "(" (abbreviate_owl_expression owl)
        + count_char "<" (abbreviate_owl_expression owl))%nat).
Proof.
  split; [exact parse_by_parentheses_count|].
  intros owl out tree H. unfold parse in H.
  apply bind_ok in H. destruct H as (o1 & cur & o2 & H1 & H2 & _).
  apply parse_by_parentheses_count in H1. apply parse_by_parentheses_count in H2.
  simpl in H1, H2. rewrite H2, H1. reflexivity.
Qed.

Lemma one_node_per_bracket_witness :
  exists tree,
    parse "ObjectComplementOf(<http://x/A>))" = (["Too many closing parentheses"], Ok tree) /\
    List.length (nodes tree) = 3%nat.
Proof.
  eexists. split; [vm_compute; reflexivity|].
  apply (proj2 one_node_per_bracket "ObjectComplementOf(<http://x/A>))"
           ["Too many closing parentheses"]).
  vm_compute. reflexivity.
Defined.

(** ** The text and the name of a parsed node *)

Lemma substring_length s : forall n m,
  (n + m <= String.length s)%nat -> String.length (String.substring n m s) = m.
Proof.
  induction s as [|c s IH]; intros n m H; simpl in H.
  - assert (n = O) by lia. assert (m = O) by lia. subst. reflexivity.
  - destruct n as [|n]; simpl.
    + destruct m as [|m]; [reflexivity|]. simpl. rewrite IH; [reflexivity | lia].
    + apply IH. lia.
Qed.

Lemma slice_length s a b :
  0 <= a -> a <= b -> b <= str_len s -> str_len (slice s a b) = b - a.
Proof.
  intros Ha Hab Hb. unfold slice, norm_index, str_len in *.
  destruct (a <? 0) eqn:E1; [apply Z.ltb_lt in E1; lia|].
  destruct (b <? 0) eqn:E2; [apply Z.ltb_lt in E2; lia|].
  rewrite !Z.min_l by lia. rewrite substring_length; lia.
Qed.

Lemma take_named ty suffix :
  String.length ty = 3%nat -> take 3 (named ty suffix) = ty.
Proof.
  destruct ty as [|a [|b [|c [|d ty]]]]; try discriminate. intros _.
  unfold take, named. simpl. destruct suffix; reflexivity.
Qed.

Lemma init_label s e nm tx iri n :
  RangeNode_init s e nm tx iri = Ok n ->
  label n = (s, e,
             named (match nm with Some x => x | None => "" end)
                   ("@[" ++ str_of_int s ++ ":" ++ str_of_num e ++ "]"),
             tx, iri).
Proof.
  unfold RangeNode_init. destruct (num_leb e (Fin s)); [discriminate|].
  intros [= <-]. unfold label, named. simpl.
  destruct nm as [[|c x]|]; reflexivity.
Qed.

Lemma node_of_pair_cut owl for_iri p i node :
  0 <= p < i -> i < str_len owl ->
  node_of_pair owl for_iri p i = Ok node ->
  cut_from owl (label node).
Proof.
  intros Hp Hi H. unfold node_of_pair in H.
  destruct for_iri; apply init_label in H; rewrite H; unfold cut_from; right;
    exists (i + 1); repeat split; try lia; try discriminate.
  replace (p - 5 + 4) with (p - 1) by lia. eexists. reflexivity.
Qed.

Lemma labels_leaf n : children n = [] -> labels n = [label n].
Proof. intros C. rewrite labels_eq, C. reflexivity. Qed.

Lemma scan_cut owl for_iri cs : forall i st out st',
  0 <= i -> i + str_len cs = str_len owl ->
  Forall (fun p => 0 <= p < i) (stack st) ->
  Forall (cut_from owl) (labels (parsed st)) ->
  scan owl for_iri cs i st = (out, Ok st') ->
  Forall (cut_from owl) (labels (parsed st')) /\ label (parsed st') = label (parsed st).
Proof.
  induction cs as [|c cs IH]; intros i st out st' Hi Hlen Hstk Hcut; simpl.
  - intros [= _ <-]. tauto.
  - intros H. apply bind_ok in H. destruct H as (o1 & st1 & o2 & H1 & H2 & _).
    assert (Hc : i < str_len owl).
    { unfold str_len in *. simpl String.length in Hlen. lia. }
    assert (Hstk1 : Forall (fun p => 0 <= p < i + 1)
                      (if Ascii.eqb c (left_par for_iri) then i :: stack st else stack st)).
    { assert (W : Forall (fun p => 0 <= p < i + 1) (stack st))
        by (eapply Forall_impl; [|exact Hstk]; simpl; intros; lia).
      destruct (Ascii.eqb c (left_par for_iri)); [constructor; [lia | exact W] | exact W]. }
    assert (Step : Forall (fun p => 0 <= p < i + 1) (stack st1) /\
                   Forall (cut_from owl) (labels (parsed st1)) /\
                   label (parsed st1) = label (parsed st)).
    { apply scan_step_cases in H1. cbv zeta in H1.
      destruct H1 as [[_ ->]|[(_ & E & ->)|(R & p & stack' & node & tree & E & N & T & ->)]];
        cbn [parsed stack].
      - tauto.
      - split; [constructor | tauto].
      - rewrite E in Hstk1. inversion Hstk1 as [|? ? Hp Hrest]; subst.
        split; [exact Hrest|]. split; [|apply (insert_child_label _ _ _ T)].
        assert (Pi : 0 <= p < i \/ p = i) by lia.
        destruct Pi as [Pi | ->].
        + rewrite (insert_child_labels _ _ _ T).
          rewrite (labels_leaf _ (proj1 (node_of_pair_fresh _ _ _ _ _ N))).
          constructor; [|exact Hcut]. apply (node_of_pair_cut owl for_iri p i); assumption.
        + exfalso.
          destruct (Ascii.eqb c (left_par for_iri)) eqn:L.
          * apply Ascii.eqb_eq in L. apply Ascii.eqb_eq in R.
            rewrite L in R. destruct for_iri; discriminate.
          * rewrite Forall_forall in Hstk. specialize (Hstk i).
            rewrite E in Hstk. specialize (Hstk (or_introl eq_refl)). lia. }
    destruct Step as (S1 & S2 & S3).
    apply IH in H2; try assumption; [rewrite <- S3; exact H2 | lia |].
    unfold str_len in *. simpl String.length in Hlen. lia.
Qed.

Lemma parse_by_parentheses_cut owl for_iri already out tree :
  Forall (cut_from owl) (labels (initial_tree owl already)) ->
  parse_by_parentheses owl for_iri already = (out, Ok tree) ->
  Forall (cut_from owl) (labels tree) /\ label tree = label (initial_tree owl already).
Proof.
  intros C. rewrite parse_by_parentheses_eq. intros H.
  apply bind_ok in H. destruct H as (o1 & st & o2 & Hs & H & _).
  apply scan_cut in Hs; try assumption; try (simpl; lia); [|constructor].
  destruct (stack st); [|discriminate]. injection H as _ <-. exact Hs.
Qed.

Lemma parse_cut owl out tree :
  parse owl = (out, Ok tree) ->
  Forall (cut_from (abbreviate_owl_expression owl)) (labels tree) /\
  label tree = root_label (abbreviate_owl_expression owl).
Proof.
  unfold parse. intros H.
  apply bind_ok in H. destruct H as (o1 & cur & o2 & H1 & H2 & _).
  apply parse_by_parentheses_cut in H1.
  - destruct H1 as [C1 L1]. apply parse_by_parentheses_cut in H2; [|exact C1].
    destruct H2 as [C2 L2]. split; [exact C2|]. rewrite L2. exact L1.
  - constructor; [|constructor]. left. reflexivity.
Qed.

Lemma root_label_unique t n owl :
  well_formed t -> label t = root_label owl ->
  In n (nodes t) -> label n = root_label owl -> n = t.
Proof.
  intros W Lt Hn Ln. apply in_nodes in Hn. destruct Hn as [->|(c & Hc & Hn)]; [reflexivity|].
  exfalso. inversion W as [? _ Ic _ Wc]; subst. rewrite Forall_forall in Ic, Wc.
  specialize (Ic c Hc). destruct (nodes_within c (Wc c Hc) n Hn) as [Cn _].
  unfold label, root_label in Lt, Ln.
  injection Lt as St Et _ _ _. injection Ln as Sn En _ _ _.
  clear - Ic Cn St Et Sn En. unfold inside, contains in *.
  rewrite St, Et in Ic. rewrite Sn, En in Cn.
  destruct (end_ c); simpl in *; [tauto | lia].
Qed.

(** X9.  In a tree returned by [parse] the root has the range
    [[0, inf)] and the abbreviated expression as its text.  Every other node
    has a range that lies within the expression, as its text the part of the
    expression at exactly that range, and, if it is not an IRI, a name that
    starts with the three characters after its first one, the tag without
    its brackets. *)
Theorem parsed_nodes_span :
  forall owl out tree,
    parse owl = (out, Ok tree) ->
    let e := abbreviate_owl_expression owl in
    label tree = root_label e /\
    forall n, In n (nodes tree) ->
      n = tree \/
      exists e',
        end_ n = Fin e' /\ 0 <= start n /\ start n < e' /\ e' <= str_len e /\
        text n = slice e (start n) e' /\
        str_len (text n) = e' - start n /\
        (is_iri n = false -> take 3 (name n) = slice e (start n + 1) (start n + 4)).
Proof.
  intros owl out tree H e.
  pose proof (built_wf _ (parse_built owl out tree H)) as W.
  destruct (parse_cut owl out tree H) as [C L]. fold e in C, L.
  split; [exact L|]. intros n Hn.
  assert (Cn : cut_from e (label n)).
  { rewrite Forall_forall in C. apply C. unfold labels. apply in_map. exact Hn. }
  assert (S0 : 0 <= start n).
  { destruct (nodes_within tree W n Hn) as [[S _] _].
    unfold label, root_label in L. injection L as St _ _ _ _. lia. }
  unfold cut_from, label in Cn. destruct Cn as [R|(e' & E & Hlt & Hle & Tx & Nm)].
  - left. apply (root_label_unique tree n e W L Hn R).
  - right. exists e'. repeat split; try assumption.
    + rewrite Tx. apply slice_length; lia.
    + intros I. destruct (Nm I) as (B & suffix & ->).
      apply take_named. apply Nat2Z.inj. change (str_len (slice e (start n + 1) (start n + 4)) = 3).
      rewrite slice_length; lia.
Qed.

Lemma parsed_nodes_span_witness :
  exists tree,
    parse "ObjectIntersectionOf(<http://x/B> ObjectSomeValuesFrom(<http://x/r> <http://x/C>))"
      = ([], Ok tree) /\
    label tree
      = root_label
          (abbreviate_owl_expression
             "ObjectIntersectionOf(<http://x/B> ObjectSomeValuesFrom(<http://x/r> <http://x/C>))").
Proof.
  eexists. split; [vm_compute; reflexivity|].
  refine (proj1 (parsed_nodes_span
    "ObjectIntersectionOf(<http://x/B> ObjectSomeValuesFrom(<http://x/r> <http://x/C>))" [] _ _)).
  vm_compute. reflexivity.
Defined.

(** ** A parenthesis too close to the start *)

Lemma scan_app owl for_iri a : forall b i st,
  scan owl for_iri (a ++ b) i st =
  bind (scan owl for_iri a i st) (fun st' => scan owl for_iri b (i + str_len a) st').
Proof.
  induction a as [|c a IH]; intros b i st.
  - cbn [append scan]. rewrite bind_ret. unfold str_len. simpl. rewrite Z.add_0_r.
    reflexivity.
  - cbn [append scan]. rewrite bind_assoc. apply bind_ext. intros st1.
    rewrite IH. apply bind_ext. intros st2. f_equal.
    unfold str_len. simpl String.length. lia.
Qed.

Lemma scan_free owl for_iri cs : forall i st,
  free_of (left_par for_iri) (right_par for_iri) cs = true ->
  scan owl for_iri cs i st = ret st.
Proof.
  induction cs as [|c cs IH]; intros i st F; [reflexivity|].
  unfold free_of in F. simpl in F. apply andb_true_iff in F. destruct F as [Fc F].
  apply andb_true_iff in Fc. destruct Fc as [F1 F2].
  apply negb_true_iff in F1. apply negb_true_iff in F2.
  cbn [scan]. unfold scan_step. rewrite F1, F2, bind_ret. apply IH. exact F.
Qed.

(** X10.  An expression whose first parenthesis stands before offset 5
    and is closed, no other parenthesis between the two, is not parsed:
    the node made for the pair would start before offset 0, and comparing
    it with the root raises the partial-overlap error. *)
Theorem early_parenthesis_rejected :
  forall pre mid post,
    free_of "(" ")" pre = true -> free_of "(" ")" mid = true ->
    str_len pre < 5 ->
    parse_by_parentheses (pre ++ "(" ++ mid ++ ")" ++ post) false None
      = ([], Err partial_overlap_error).
Proof.
  intros pre mid post Fp Fm L.
  rewrite parse_by_parentheses_eq. set (owl := pre ++ "(" ++ mid ++ ")" ++ post).
  unfold owl at 2. rewrite scan_app, (scan_free _ false pre _ _ Fp), bind_ret.
  change ("(" ++ mid ++ ")" ++ post) with (String "(" (mid ++ ")" ++ post)).
  cbn [scan]. unfold scan_step at 1. cbn [left_par right_par Ascii.eqb Bool.eqb stack parsed].
  rewrite bind_ret, scan_app, (scan_free _ false mid _ _ Fm), bind_ret.
  change (")" ++ post) with (String ")" post). cbn [scan].
  unfold scan_step. cbn [left_par right_par Ascii.eqb Bool.eqb stack parsed].
  unfold node_of_pair, RangeNode_init.
  assert (P : 0 <= str_len pre) by (unfold str_len; lia).
  assert (M : 0 <= str_len mid) by (unfold str_len; lia).
  replace (num_leb (Fin (0 + str_len pre + 1 + str_len mid + 1)) (Fin (0 + str_len pre - 5)))
    with false by (symmetry; apply Z.leb_gt; lia).
  unfold lift. cbn [bind initial_tree]. rewrite insert_child_eq. unfold __gt__.
  cbn [start end_ num_leb num_ltb andb orb].
  replace (0 <=? 0 + str_len pre - 5) with false by (symmetry; apply Z.leb_gt; lia).
  replace (0 + str_len pre + 1 + str_len mid + 1 <? 0) with false
    by (symmetry; apply Z.ltb_ge; lia).
  rewrite andb_false_r. reflexivity.
Qed.

Lemma early_parenthesis_rejected_witness :
  parse_by_parentheses "(<http://x/A>)" false None = ([], Err partial_overlap_error).
Proof.
  apply (early_parenthesis_rejected "" "<http://x/A>" ""); [reflexivity | reflexivity|].
  unfold str_len. simpl. lia.
Defined.

(* ================================================================== *)
(** * More on the abbreviator *)

Lemma replace_absent k v : forall s,
  ~ occurs k s -> replace_from k v 0 s = s.
Proof.
  induction s as [|c s IH]; intros N; [reflexivity|].
  rewrite replace_from_cons.
  destruct (String.prefix k (String c s)) eqn:P.
  - exfalso. apply N. apply occurs_cons. left. exact P.
  - rewrite IH; [reflexivity|]. intros O. apply N. apply occurs_cons. right. exact O.
Qed.

Lemma abbreviate_with_absent d : forall s,
  Forall (fun kv => abbreviation kv = true) d ->
  (forall kv, In kv d -> ~ occurs (fst kv) s) ->
  abbreviate_with d s = s.
Proof.
  induction d as [|kv d IH]; intros s F N; [reflexivity|].
  inversion F as [|? ? Hkv Hd]; subst.
  rewrite abbreviate_with_cons.
  apply abbreviation_parts in Hkv. destruct Hkv as (_ & _ & _ & K).
  rewrite (replace_nonempty _ _ _ K), replace_absent by (apply N; left; reflexivity).
  apply IH; [exact Hd|]. intros kv' I. apply N. right. exact I.
Qed.

(** X11.  An expression is left as it is by the abbreviator exactly when
    no keyword of the dictionary occurs in it; so abbreviating an abbreviated
    expression changes nothing, which is what happens when the verbaliser
    parses the text of a node again. *)
Theorem abbreviation_fixed_points :
  (forall s,
     abbreviate_owl_expression s = s <->
     forall kv, In kv ABBREVIATION_DICT -> ~ occurs (fst kv) s) /\
  (forall s,
     abbreviate_owl_expression (abbreviate_owl_expression s) = abbreviate_owl_expression s).
Proof.
  assert (Fix : forall s, (forall kv, In kv ABBREVIATION_DICT -> ~ occurs (fst kv) s) ->
                          abbreviate_owl_expression s = s).
  { intros s N. apply abbreviate_with_absent; [apply dict_abbreviations | exact N]. }
  assert (Gone : forall s kv, In kv ABBREVIATION_DICT ->
                              ~ occurs (fst kv) (abbreviate_owl_expression s)).
  { intros s kv I. apply abbreviate_with_removes; [apply dict_abbreviations | exact I]. }
  split.
  - intros s. split; [|apply Fix]. intros E kv I. rewrite <- E. apply Gone. exact I.
  - intros s. apply Fix. intros kv I. apply Gone. exact I.
Qed.

Lemma abbreviation_fixed_points_witness :
  abbreviate_owl_expression "[NEG](<http://x/A>)" = "[NEG](<http://x/A>)" /\
  ~ occurs "ObjectComplementOf" "[NEG](<http://x/A>)".
Proof.
  assert (E : abbreviate_owl_expression "[NEG](<http://x/A>)" = "[NEG](<http://x/A>)")
    by (vm_compute; reflexivity).
  split; [exact E|].
  apply (proj1 (proj1 abbreviation_fixed_points "[NEG](<http://x/A>)") E
           ("ObjectComplementOf", "[NEG]")).
  left. reflexivity.
Defined.

Lemma prefix_length k : forall s,
  String.prefix k s = true -> (String.length k <= String.length s)%nat.
Proof.
  induction k as [|a k IH]; intros s P; simpl; [lia|].
  destruct s as [|b s]; [discriminate|]. apply prefix_cons in P.
  simpl. specialize (IH s (proj2 P)). lia.
Qed.

Lemma length_drop_exact n : forall s,
  (n <= String.length s)%nat -> String.length (drop n s) = (String.length s - n)%nat.
Proof.
  induction n as [|n IH]; intros s H; simpl; [lia|].
  destruct s as [|c s]; simpl in *; [lia|]. apply IH. lia.
Qed.

Lemma replace_length k v :
  k <> "" -> (String.length v <= String.length k)%nat ->
  forall s, (String.length (replace_from k v 0 s) <= String.length s)%nat.
Proof.
  intros K L s.
  remember (String.length s) as n eqn:En.
  assert (Hn : (String.length s <= n)%nat) by lia. rewrite En. clear En. revert s Hn.
  induction n as [|n IH]; intros s Hn.
  - destruct s; [simpl; lia | simpl in Hn; lia].
  - destruct s as [|c s]; [simpl; lia|].
    rewrite replace_from_cons.
    destruct (String.prefix k (String c s)) eqn:P.
    + apply prefix_length in P. simpl in P, Hn.
      assert (Kp : (0 < String.length k)%nat) by (destruct k; [contradiction | simpl; lia]).
      rewrite append_length.
      pose proof (length_drop_exact (Nat.pred (String.length k)) s) as D.
      specialize (IH (drop (Nat.pred (String.length k)) s)).
      assert (H : (String.length (drop (Nat.pred (String.length k)) s) <= n)%nat) by lia.
      specialize (IH H). simpl. lia.
    + simpl. simpl in Hn. specialize (IH s). lia.
Qed.

(** X12.  The abbreviated expression is never longer than the expression:
    every keyword is longer than its tag. *)
Theorem abbreviation_shortens :
  forall s,
    (String.length (abbreviate_owl_expression s) <= String.length s)%nat.
Proof.
  intros s. unfold abbreviate_owl_expression.
  assert (G : forall d, Forall (fun kv : string * string =>
                fst kv <> "" /\ (String.length (snd kv) <= String.length (fst kv))%nat) d ->
              forall s, (String.length (abbreviate_with d s) <= String.length s)%nat).
  { induction d as [|kv d IH]; intros F s0; [simpl; lia|].
    inversion F as [|? ? [K L] Fd]; subst.
    rewrite abbreviate_with_cons, (replace_nonempty _ _ _ K).
    specialize (IH Fd (replace_from (fst kv) (snd kv) 0 s0)).
    pose proof (replace_length (fst kv) (snd kv) K L s0). lia. }
  apply G. repeat constructor; simpl; try discriminate; lia.
Qed.

(* ================================================================== *)
(** * More on the verbaliser *)

(** ** The vocabulary *)

Lemma lookup_update_other k k' v d : k' <> k -> lookup k' (update k v d) = lookup k' d.
Proof.
  intros N. induction d as [|[k0 v0] d IH]; simpl.
  - destruct (String.eqb_spec k k') as [E|_]; [congruence | reflexivity].
  - destruct (String.eqb_spec k0 k) as [->|D]; simpl.
    + destruct (String.eqb_spec k k') as [E|_]; [congruence|].
      reflexivity.
    + destruct (String.eqb k0 k'); [reflexivity | exact IH].
Qed.

Lemma update_update k v1 v2 d : update k v2 (update k v1 d) = update k v2 d.
Proof.
  induction d as [|[k0 v0] d IH]; simpl.
  - rewrite String.eqb_refl. reflexivity.
  - destruct (String.eqb k0 k) eqn:E; simpl.
    + rewrite String.eqb_refl. reflexivity.
    + rewrite E, IH. reflexivity.
Qed.

Lemma verbalise_iri_vocab nlp s1 s2 node is_property :
  keep_iri s1 = keep_iri s2 ->
  apply_auto_correction s1 = apply_auto_correction s2 ->
  lookup (iri_of node) (vocab s1) = lookup (iri_of node) (vocab s2) ->
  _verbalise_iri nlp s1 node is_property = _verbalise_iri nlp s2 node is_property.
Proof.
  intros K A L. unfold _verbalise_iri. fold (iri_of node). rewrite K, A, L. reflexivity.
Qed.

(** X13.  After [update_entity_name] the vocabulary gives the new name for
    the IRI and what it gave before for every other IRI; of two updates of
    an IRI in a row only the second counts.  So an IRI leaf is verbalised by the new name
    without a warning, and every other leaf as before. *)
Theorem entity_name_updated :
  forall self iri entity_name,
    let self' := update_entity_name self iri entity_name in
    lookup iri (vocab self') = Some entity_name /\
    (forall other, other <> iri -> lookup other (vocab self') = lookup other (vocab self)) /\
    (forall older,
       update_entity_name (update_entity_name self iri older) iri entity_name = self') /\
    (forall nlp node is_property,
       keep_iri self = false -> apply_auto_correction self = false ->
       iri_of node = iri ->
       _verbalise_iri nlp self' node is_property = ([], Ok (IriCfg entity_name iri))) /\
    (forall nlp node is_property,
       iri_of node <> iri ->
       _verbalise_iri nlp self' node is_property = _verbalise_iri nlp self node is_property).
Proof.
  intros self iri entity_name self'. split; [apply lookup_update|]. split.
  { intros other N. apply lookup_update_other. exact N. }
  split.
  { intros older. unfold self', update_entity_name. simpl. rewrite update_update.
    reflexivity. }
  split.
  - intros nlp node is_property K A E.
    rewrite (verbalise_iri_found nlp self' node is_property entity_name K).
    + simpl. rewrite A, E. reflexivity.
    + rewrite E. apply lookup_update.
  - intros nlp node is_property N. apply verbalise_iri_vocab; try reflexivity.
    apply lookup_update_other. exact N.
Qed.

Lemma entity_name_updated_witness :
  _verbalise_iri (fun _ => [])
    (update_entity_name (mkVerbaliser [("http://x/A", "a")] false false false)
       "http://x/A" "apple")
    (mkRangeNode 6 (Fin 18) "A@[6:18]" "<http://x/A>" true []) false
  = ([], Ok (IriCfg "apple" "http://x/A")).
Proof.
  apply (proj1 (proj2 (proj2 (proj2
    (entity_name_updated (mkVerbaliser [("http://x/A", "a")] false false false)
       "http://x/A" "apple"))))); reflexivity.
Defined.

(** ** Noun phrases *)

Lemma join_cons sep w ws :
  join sep (w :: ws) = w ++ match ws with [] => "" | _ :: _ => sep ++ join sep ws end.
Proof.
  destruct ws as [|w' ws]; simpl; [|reflexivity].
  induction w as [|c w IH]; simpl; [reflexivity | rewrite <- IH; reflexivity].
Qed.

Lemma split_char_join sep s : forall w ws,
  split_char sep s = (w, ws) -> join (String sep "") (w :: ws) = s.
Proof.
  induction s as [|a s IH]; intros w ws H.
  - injection H as <- <-. reflexivity.
  - cbn [split_char] in H. destruct (split_char sep s) as [w' ws'].
    specialize (IH w' ws' eq_refl).
    destruct (Ascii.eqb_spec a sep) as [->|N]; injection H as <- <-.
    + change (join (String sep "") ("" :: w' :: ws'))
        with (String sep (join (String sep "") (w' :: ws'))).
      rewrite IH. reflexivity.
    + destruct ws' as [|y l].
      * cbn [join] in *. rewrite IH. reflexivity.
      * change (join (String sep "") (String a w' :: y :: l))
          with (String a (join (String sep "") (w' :: y :: l))).
        rewrite IH. reflexivity.
Qed.

Lemma split_join sep s : join (String sep "") (split sep s) = s.
Proof.
  unfold split. pose proof (split_char_join sep s) as H.
  destruct (split_char sep s) as [w ws]. apply H. reflexivity.
Qed.

Lemma split_nonempty sep s : split sep s <> [].
Proof. unfold split. destruct (split_char sep s). discriminate. Qed.

Lemma append_nil_r s : s ++ "" = s.
Proof. induction s as [|c s IH]; simpl; [reflexivity | rewrite IH; reflexivity]. Qed.

Lemma append_assoc a b c : (a ++ b) ++ c = a ++ b ++ c.
Proof. induction a as [|x a IH]; simpl; [reflexivity | rewrite IH; reflexivity]. Qed.

Lemma join_snoc sep l w :
  l <> [] -> join sep (l ++ [w]) = join sep l ++ sep ++ w.
Proof.
  induction l as [|x l IH]; intros N; [contradiction|].
  destruct l as [|y l].
  - reflexivity.
  - change ((x :: y :: l) ++ [w])%list with (x :: ((y :: l) ++ [w]))%list.
    rewrite join_cons, (join_cons sep x (y :: l)).
    change ((y :: l) ++ [w])%list with (y :: (l ++ [w]))%list.
    change (y :: (l ++ [w]))%list with ((y :: l) ++ [w])%list at 2.
    rewrite IH by discriminate. rewrite !append_assoc. reflexivity.
Qed.

(** X14.  Splitting a phrase at its spaces and joining the pieces with
    spaces gives the phrase back.  [_fix_noun_phrase] returns the phrase as
    it is unless its last word is a preposition; then it returns the phrase
    without that word and without the space before it, and the empty string
    if the phrase is the word. *)
Theorem noun_phrase_fixed :
  forall noun_phrase,
    let last_word := last_piece (split " " noun_phrase) in
    join " " (split " " noun_phrase) = noun_phrase /\
    (mem last_word PREPOSITIONS = false -> _fix_noun_phrase noun_phrase = noun_phrase) /\
    (mem last_word PREPOSITIONS = true ->
       (noun_phrase = last_word /\ _fix_noun_phrase noun_phrase = "") \/
       noun_phrase = _fix_noun_phrase noun_phrase ++ " " ++ last_word).
Proof.
  intros s w. split; [apply split_join|]. split.
  - intros H. unfold _fix_noun_phrase. fold w. rewrite H. reflexivity.
  - intros H. unfold _fix_noun_phrase. fold w. rewrite H.
    pose proof (split_join " " s) as J.
    pose proof (app_removelast_last "" (split_nonempty " " s)) as L.
    fold (last_piece (split " " s)) in L. fold w in L.
    unfold all_but_last. destruct (removelast (split " " s)) as [|x l] eqn:R.
    + left. rewrite L in J. simpl in J. split; [symmetry; exact J | reflexivity].
    + right. rewrite L in J. rewrite join_snoc in J by discriminate.
      symmetry. exact J.
Qed.

Lemma noun_phrase_fixed_witness :
  "part of" = _fix_noun_phrase "part of" ++ " " ++ "of".
Proof.
  destruct (proj2 (proj2 (noun_phrase_fixed "part of")) eq_refl) as [[E _]|E].
  - discriminate E.
  - exact E.
Defined.

(** ** Expressions that are not supported *)

Lemma verbalise_class_expression_node nlp self d n :
  verbalise_class_expression nlp self (S d) (FromNode n) =
  (if is_iri n then _verbalise_iri nlp self n false
   else if startswith (name n) "NEG" then
     match children n with
     | [] => raise IndexError
     | c :: _ =>
         bind (verbalise_class_expression nlp self d (FromNode c))
              (fun cl => ret (NegCfg ("not " ++ verbal cl) cl))
     end
   else if (startswith (name n) "EX." || startswith (name n) "ALL")%bool then
     bind (_verbalise_restriction nlp self (verbalise_class_expression nlp self d) n true)
          (fun r => ret (cfg_of_restriction r))
   else if (startswith (name n) "AND" || startswith (name n) "OR")%bool then
     _verbalise_junction nlp self (verbalise_class_expression nlp self d) n
   else if startswith (name n) "OPC" then _verbalise_property nlp self n
   else raise (unsupported_error (FromNode n))).
Proof.
  cbn [verbalise_class_expression]. unfold verbalise_class_expression_body.
  rewrite bind_ret. reflexivity.
Qed.

(** X15.  [verbalise_class_expression] raises its [RuntimeError], which
    names the expression, for a node that is no IRI and whose name starts
    with none of [NEG], [EX.], [ALL], [AND], [OR] and [OPC], as the node of
    an axiom does; given a string, the error names the string as it was
    given.  A name that starts with [OR] but not with [OR.] gets the error
    of [_verbalise_junction] instead. *)
Theorem unsupported_expressions :
  forall nlp self d n,
    is_iri n = false ->
    startswith (name n) "NEG" = false -> startswith (name n) "EX." = false ->
    startswith (name n) "ALL" = false -> startswith (name n) "AND" = false ->
    (startswith (name n) "OR" = false -> startswith (name n) "OPC" = false ->
       verbalise_class_expression nlp self (S d) (FromNode n)
         = ([], Err (unsupported_error (FromNode n))) /\
       forall s out root rest,
         parse s = (out, Ok root) -> children root = n :: rest ->
         verbalise_class_expression nlp self (S d) (FromText s)
           = (out, Err (unsupported_error (FromText s)))) /\
    (startswith (name n) "OR" = true -> startswith (name n) "OR." = false ->
       verbalise_class_expression nlp self (S d) (FromNode n)
         = ([], Err junction_shape_error)).
Proof.
  intros nlp self d n I N1 N2 N3 N4. split.
  - intros N5 N6. split.
    + rewrite verbalise_class_expression_node, I, N1, N2, N3, N4, N5, N6. reflexivity.
    + intros s out root rest P C. cbn [verbalise_class_expression].
      unfold verbalise_class_expression_body. rewrite P. cbn [bind]. rewrite C.
      cbn [bind ret]. rewrite I, N1, N2, N3, N4, N5, N6. cbn [orb]. unfold raise.
      rewrite !app_nil_r. reflexivity.
  - intros O1 O2.
    rewrite verbalise_class_expression_node, I, N1, N2, N3, N4, O1. cbn [orb].
    unfold _verbalise_junction. rewrite N4, O2. reflexivity.
Qed.

Lemma unsupported_expressions_witness :
  verbalise_class_expression (fun _ => []) (mkVerbaliser [] false false false) 1
    (FromText "EquivalentClasses(<http://x/A> <http://x/B>)")
  = ([], Err (RuntimeError
       "Input class expression `EquivalentClasses(<http://x/A> <http://x/B>)` is not in one of the supported types.")).
Proof.
  pose (n := mkRangeNode 0 (Fin 32) "EQV@[0:32]" "[EQV](<http://x/A> <http://x/B>)" false
               [mkRangeNode 6 (Fin 18) "A@[6:18]" "<http://x/A>" true [];
                mkRangeNode 19 (Fin 31) "B@[19:31]" "<http://x/B>" true []]).
  refine (proj2 (proj1 (unsupported_expressions (fun _ => []) (mkVerbaliser [] false false false)
            0%nat n eq_refl eq_refl eq_refl eq_refl eq_refl) eq_refl eq_refl)
          "EquivalentClasses(<http://x/A> <http://x/B>)" []
          (mkRangeNode 0 Inf "Root@[0:inf]" "[EQV](<http://x/A> <http://x/B>)" false [n])
          [] _ eq_refl).
  vm_compute. reflexivity.
Defined.

(** ** Property chains *)

Lemma map_m_named nlp self :
  keep_iri self = false -> apply_auto_correction self = false ->
  forall cs names,
    Forall2 (fun c nm => lookup (iri_of c) (vocab self) = Some nm) cs names ->
    map_m (fun p => _verbalise_iri nlp self p true) cs
      = ([], Ok (List.map (fun cn => IriCfg (snd cn) (iri_of (fst cn))) (List.combine cs names))).
Proof.
  intros K A cs names F. induction F as [|c nm cs names Hc _ IH]; [reflexivity|].
  cbn [map_m]. rewrite (verbalise_iri_found nlp self c true nm K Hc), A, IH. reflexivity.
Qed.

Lemma map_verbal_named cs : forall names,
  List.length cs = List.length names ->
  List.map verbal
    (List.map (fun cn : RangeNode * string => IriCfg (snd cn) (iri_of (fst cn)))
       (List.combine cs names)) = names.
Proof.
  induction cs as [|c cs IH]; intros [|nm names] L; try discriminate; [reflexivity|].
  simpl. rewrite IH; [reflexivity|]. simpl in L. lia.
Qed.

(** X16.  A property chain whose members all have a name in the vocabulary
    is verbalised, without auto-correction, as the names joined by
    [" something that "], and nothing is logged;
    [verbalise_class_expression] gives the same for a node named [OPC]. *)
Theorem property_chain_verbalised :
  forall nlp self node names,
    keep_iri self = false -> apply_auto_correction self = false ->
    is_iri node = false ->
    Forall2 (fun c nm => lookup (iri_of c) (vocab self) = Some nm) (children node) names ->
    exists properties,
      List.map verbal properties = names /\
      _verbalise_property nlp self node
        = ([], Ok (PropertyCfg (join " something that " names) properties
                     (take 3 (name node)))) /\
      (forall d, startswith (name node) "OPC" = true ->
         verbalise_class_expression nlp self (S d) (FromNode node)
           = _verbalise_property nlp self node).
Proof.
  intros nlp self node names K A I F.
  exists (List.map (fun cn => IriCfg (snd cn) (iri_of (fst cn)))
            (List.combine (children node) names)).
  assert (V := map_verbal_named (children node) names (Forall2_length F)).
  split; [exact V|]. split.
  - unfold _verbalise_property. rewrite I, (map_m_named nlp self K A _ _ F).
    cbn [bind ret app]. rewrite V. reflexivity.
  - intros d O. rewrite verbalise_class_expression_node, I, O.
    apply startswith_cons in O. destruct O as (s1 & E1 & O).
    apply startswith_cons in O. destruct O as (s2 & E2 & _).
    assert (H1 : startswith (name node) "NEG" = false) by (rewrite E1; reflexivity).
    assert (H2 : startswith (name node) "EX." = false) by (rewrite E1; reflexivity).
    assert (H3 : startswith (name node) "ALL" = false) by (rewrite E1; reflexivity).
    assert (H4 : startswith (name node) "AND" = false) by (rewrite E1; reflexivity).
    assert (H5 : startswith (name node) "OR" = false) by (rewrite E1, E2; reflexivity).
    rewrite H1, H2, H3, H4, H5. reflexivity.
Qed.

Lemma property_chain_verbalised_witness :
  exists properties,
    _verbalise_property (fun _ => [])
      (mkVerbaliser [("http://x/r", "has part"); ("http://x/s", "derives from")]
         false false false)
      (mkRangeNode 0 (Fin 32) "OPC@[0:32]" "[OPC](<http://x/r> <http://x/s>)" false
         [mkRangeNode 6 (Fin 18) "r@[6:18]" "<http://x/r>" true [];
          mkRangeNode 19 (Fin 31) "s@[19:31]" "<http://x/s>" true []])
    = ([], Ok (PropertyCfg "has part something that derives from" properties "OPC")).
Proof.
  pose (self := mkVerbaliser [("http://x/r", "has part"); ("http://x/s", "derives from")]
                  false false false).
  pose (node := mkRangeNode 0 (Fin 32) "OPC@[0:32]" "[OPC](<http://x/r> <http://x/s>)" false
                  [mkRangeNode 6 (Fin 18) "r@[6:18]" "<http://x/r>" true [];
                   mkRangeNode 19 (Fin 31) "s@[19:31]" "<http://x/s>" true []]).
  assert (F : Forall2 (fun c nm => lookup (iri_of c) (vocab self) = Some nm)
                (children node) ["has part"; "derives from"]).
  { constructor; [reflexivity|]. constructor; [reflexivity | constructor]. }
  destruct (property_chain_verbalised (fun _ => []) self node
              ["has part"; "derives from"] eq_refl eq_refl eq_refl F)
    as (properties & _ & H & _).
  exists properties. exact H.
Defined.

(** ** The recursion bound *)

Lemma bind_settled {A B : Type} (m m' : M A) (k k' : A -> M B) :
  settled (bind m k) ->
  (settled m -> m' = m) ->
  (forall a, settled (k a) -> k' a = k a) ->
  bind m' k' = bind m k.
Proof.
  unfold settled. destruct m as [o [a|e]]; simpl; intros S Hm Hk.
  - rewrite Hm by discriminate. simpl. rewrite Hk; [reflexivity|].
    destruct (k a) as [o' r]. exact S.
  - rewrite Hm; [reflexivity|]. intros E. apply S. injection E as ->. reflexivity.
Qed.

Section Settled.
Variable nlp : string -> list token.
Variable self : OntologyVerbaliser.
Variables f g : class_expression_arg -> M CfgNode.
Hypothesis g_follows_f : forall arg, settled (f arg) -> g arg = f arg.

Lemma restriction_settled node add_something :
  settled (_verbalise_restriction nlp self f node add_something) ->
  _verbalise_restriction nlp self g node add_something
    = _verbalise_restriction nlp self f node add_something.
Proof.
  unfold _verbalise_restriction. destruct (negb _); [reflexivity|].
  destruct (children node) as [|p [|c [|? ?]]]; try reflexivity.
  intros S. apply bind_settled; [exact S | reflexivity|].
  intros P SP. apply bind_settled; [exact SP | apply g_follows_f | reflexivity].
Qed.

Lemma junction_step_settled acc child :
  settled (junction_step nlp self f acc child) ->
  junction_step nlp self g acc child = junction_step nlp self f acc child.
Proof.
  unfold junction_step.
  destruct (startswith (name child) "EX."); [|destruct (startswith (name child) "ALL")];
    intros S; (apply bind_settled; [exact S | | reflexivity]).
  - apply restriction_settled.
  - apply restriction_settled.
  - apply g_follows_f.
Qed.

Lemma for_each_settled cs : forall acc,
  settled (for_each (junction_step nlp self f) cs acc) ->
  for_each (junction_step nlp self g) cs acc = for_each (junction_step nlp self f) cs acc.
Proof.
  induction cs as [|c cs IH]; intros acc S; [reflexivity|].
  cbn [for_each] in *. apply bind_settled; [exact S | apply junction_step_settled | exact IH].
Qed.

Lemma junction_settled node :
  settled (_verbalise_junction nlp self f node) ->
  _verbalise_junction nlp self g node = _verbalise_junction nlp self f node.
Proof.
  unfold _verbalise_junction. destruct (negb _); [reflexivity|].
  intros S. apply bind_settled; [exact S | apply for_each_settled | reflexivity].
Qed.

Lemma body_settled arg :
  settled (verbalise_class_expression_body nlp self f arg) ->
  verbalise_class_expression_body nlp self g arg
    = verbalise_class_expression_body nlp self f arg.
Proof.
  unfold verbalise_class_expression_body.
  intros S. apply bind_settled; [exact S | reflexivity|].
  intros n. destruct (is_iri n); [reflexivity|].
  destruct (startswith (name n) "NEG").
  { destruct (children n) as [|c ?]; [reflexivity|].
    intros Sn. apply bind_settled; [exact Sn | apply g_follows_f | reflexivity]. }
  destruct (_ || _)%bool.
  { intros Sn. apply bind_settled; [exact Sn | apply restriction_settled | reflexivity]. }
  destruct (_ || _)%bool; [apply junction_settled|].
  reflexivity.
Qed.
End Settled.

Lemma one_more_level nlp self d : forall arg,
  settled (verbalise_class_expression nlp self d arg) ->
  verbalise_class_expression nlp self (S d) arg = verbalise_class_expression nlp self d arg.
Proof.
  induction d as [|d IH]; intros arg St.
  - exfalso. apply St. reflexivity.
  - change (verbalise_class_expression_body nlp self
              (verbalise_class_expression nlp self (S d)) arg
            = verbalise_class_expression_body nlp self
                (verbalise_class_expression nlp self d) arg).
    apply body_settled; [exact IH | exact St].
Qed.

(** X17.  What [verbalise_class_expression] returns or raises within some
    bound on the nesting of its calls, it returns or raises within every
    larger bound, with the same log: unless the bound is hit, the outcome
    does not depend on it. *)
Theorem outcome_independent_of_bound :
  forall nlp self d d' arg,
    (d <= d')%nat ->
    settled (verbalise_class_expression nlp self d arg) ->
    verbalise_class_expression nlp self d' arg = verbalise_class_expression nlp self d arg.
Proof.
  intros nlp self d d' arg L St. induction L as [|d' L IH]; [reflexivity|].
  rewrite <- IH. apply one_more_level. rewrite IH. exact St.
Qed.

Lemma outcome_independent_of_bound_witness :
  verbalise_class_expression (fun _ => [])
    (mkVerbaliser [("http://x/B", "B"); ("http://x/r", "r"); ("http://x/C", "C")]
       false false false) 1000
    (FromText "[AND](<http://x/B> [EX.](<http://x/r> <http://x/C>))")
  = verbalise_class_expression (fun _ => [])
    (mkVerbaliser [("http://x/B", "B"); ("http://x/r", "r"); ("http://x/C", "C")]
       false false false) 2
    (FromText "[AND](<http://x/B> [EX.](<http://x/r> <http://x/C>))").
Proof.
  apply outcome_independent_of_bound.
  - repeat constructor.
  - unfold settled. vm_compute. discriminate.
Defined.

(** ** The operands of a subsumption axiom *)

(** X18.  [verbalise_class_subsumption_axiom] returns the sub-class first
    and the super-class second for either form of the axiom: the two
    operands in their order for [SubClassOf], exchanged for [SuperClassOf],
    the sub-class being verbalised first in both cases.  If the string of
    an axiom of an accepted type starts with neither keyword, the call
    raises [UnboundLocalError] once the axiom is parsed. *)
Theorem subsumption_operands :
  forall (OWLAxiom : Type) (str_of_axiom get_axiom_type : OWLAxiom -> string)
         nlp self depth axiom out root parsed rest a b,
    mem (get_axiom_type axiom) ["SubClassOf"; "SuperClassOf"] = true ->
    parse (str_of_axiom axiom) = (out, Ok root) ->
    children root = parsed :: rest ->
    children parsed = [a; b] ->
    let verbalise n := verbalise_class_expression nlp self depth (FromNode n) in
    let call :=
      verbalise_class_subsumption_axiom OWLAxiom str_of_axiom get_axiom_type
        nlp self depth axiom in
    (startswith (str_of_axiom axiom) "SubClassOf" = true ->
       call = bind (printed out)
                (fun _ => bind (verbalise a) (fun sub =>
                          bind (verbalise b) (fun super => ret (sub, super))))) /\
    (startswith (str_of_axiom axiom) "SubClassOf" = false ->
     startswith (str_of_axiom axiom) "SuperClassOf" = true ->
       call = bind (printed out)
                (fun _ => bind (verbalise b) (fun sub =>
                          bind (verbalise a) (fun super => ret (sub, super))))) /\
    (startswith (str_of_axiom axiom) "SubClassOf" = false ->
     startswith (str_of_axiom axiom) "SuperClassOf" = false ->
       call = (out, Err UnboundLocalError)).
Proof.
  intros OWLAxiom str_of_axiom get_axiom_type nlp self depth axiom out root parsed rest a b
         T P C1 C2 verbalise call.
  unfold call, verbalise_class_subsumption_axiom, _axiom_input_check, parse_axiom.
  rewrite T, bind_ret, P. unfold first_child. cbn [bind]. rewrite C1.
  unfold lift. cbn [bind]. rewrite C2. unfold printed.
  split; [|split].
  - intros S1. rewrite S1. cbn [unpack2 bind ret fst snd app]. fold (verbalise a).
    fold (verbalise b). destruct (verbalise a) as [o1 [x|e]]; [|rewrite !app_nil_r; reflexivity].
    cbn [bind]. destruct (verbalise b) as [o2 [y|e]]; rewrite ?app_nil_r; reflexivity.
  - intros S1 S2. rewrite S1, S2. cbn [unpack2 bind ret fst snd app]. fold (verbalise a).
    fold (verbalise b). destruct (verbalise b) as [o1 [x|e]]; [|rewrite !app_nil_r; reflexivity].
    cbn [bind]. destruct (verbalise a) as [o2 [y|e]]; rewrite ?app_nil_r; reflexivity.
  - intros S1 S2. rewrite S1, S2. cbn [bind ret raise app]. rewrite !app_nil_r. reflexivity.
Qed.

Lemma subsumption_operands_witness :
  verbalise_class_subsumption_axiom string (fun a => a) (fun _ => "SuperClassOf")
    (fun _ => []) (mkVerbaliser [("http://x/A", "a"); ("http://x/B", "b")] false false false)
    1 "SuperClassOf(<http://x/B> <http://x/A>)"
  = ([], Ok (IriCfg "a" "http://x/A", IriCfg "b" "http://x/B")).
Proof.
  pose (B := mkRangeNode 6 (Fin 18) "B@[6:18]" "<http://x/B>" true []).
  pose (A := mkRangeNode 19 (Fin 31) "A@[19:31]" "<http://x/A>" true []).
  pose (ax := mkRangeNode 0 (Fin 32) "SUP@[0:32]" "[SUP](<http://x/B> <http://x/A>)" false
                [B; A]).
  pose (root := mkRangeNode 0 Inf "Root@[0:inf]" "[SUP](<http://x/B> <http://x/A>)" false [ax]).
  assert (P : parse "SuperClassOf(<http://x/B> <http://x/A>)" = ([], Ok root))
    by (vm_compute; reflexivity).
  rewrite (proj1 (proj2 (subsumption_operands string (fun a => a) (fun _ => "SuperClassOf")
             (fun _ => [])
             (mkVerbaliser [("http://x/A", "a"); ("http://x/B", "b")] false false false)
             1%nat "SuperClassOf(<http://x/B> <http://x/A>)" [] root ax [] B A
             eq_refl P eq_refl eq_refl)) eq_refl eq_refl).
  vm_compute. reflexivity.
Defined.

(* ================================================================== *)
(** * What is printed, and how a group is rendered *)

Lemma scan_printed owl for_iri cs : forall i st out st',
  scan owl for_iri cs i st = (out, Ok st') ->
  out = List.repeat too_many_closing
          (unmatched_closings (left_par for_iri) (right_par for_iri) cs
             (List.length (stack st))).
Proof.
  induction cs as [|c cs IH]; intros i st out st'; simpl.
  - intros [= <- _]. reflexivity.
  - intros H. apply bind_ok in H. destruct H as (o1 & st1 & o2 & H1 & H2 & ->).
    apply IH in H2. subst o2.
    pose proof (scan_step_cases _ _ _ _ _ _ _ H1) as Cs. cbv zeta in Cs.
    unfold scan_step in H1.
    destruct Cs as [[R ->]|[(R & E & ->)|(R & p & stack' & node & tree & E & N & T & ->)]];
      rewrite R in *; cbn [stack parsed] in *.
    + injection H1 as <-. destruct (Ascii.eqb c (left_par for_iri)); reflexivity.
    + destruct (Ascii.eqb c (left_par for_iri)); [discriminate|].
      rewrite E in *. injection H1 as <-. reflexivity.
    + destruct (Ascii.eqb c (left_par for_iri)).
      * injection E as -> ->. cbn [stack] in H1. unfold lift in H1. rewrite N in H1.
        cbn [bind parsed] in H1. rewrite T in H1. injection H1 as <-. reflexivity.
      * rewrite E in *. unfold lift in H1. rewrite N in H1.
        cbn [bind] in H1. rewrite T in H1. injection H1 as <-. reflexivity.
Qed.

(** X19.  All that a successful [parse_by_parentheses] prints is the line
    ["Too many closing parentheses"], once for each closing bracket that has
    no open bracket to match; [parse] prints it for the unmatched [")"] and
    then for the unmatched [">"] of the abbreviated expression. *)
Theorem printed_diagnostics :
  (forall owl for_iri already out tree,
     parse_by_parentheses owl for_iri already = (out, Ok tree) ->
     out = List.repeat too_many_closing
             (unmatched_closings (left_par for_iri) (right_par for_iri) owl 0)) /\
  (forall owl out tree,
     parse owl = (out, Ok tree) ->
     let e := abbreviate_owl_expression owl in
     out = (List.repeat too_many_closing (unmatched_closings "(" ")" e 0)
            ++ List.repeat too_many_closing (unmatched_closings "<" ">" e 0))%list).
Proof.
  assert (P : forall owl for_iri already out tree,
     parse_by_parentheses owl for_iri already = (out, Ok tree) ->
     out = List.repeat too_many_closing
             (unmatched_closings (left_par for_iri) (right_par for_iri) owl 0)).
  { intros owl for_iri already out tree H. rewrite parse_by_parentheses_eq in H.
    apply bind_ok in H. destruct H as (o1 & st & o2 & Hs & H & ->).
    apply scan_printed in Hs. destruct (stack st); [|discriminate].
    injection H as <- _. rewrite app_nil_r. exact Hs. }
  split; [exact P|].
  intros owl out tree H e. unfold parse in H. fold e in H.
  apply bind_ok in H. destruct H as (o1 & cur & o2 & H1 & H2 & ->).
  apply P in H1. apply P in H2. subst. reflexivity.
Qed.

Lemma printed_diagnostics_witness :
  exists tree,
    parse "ObjectComplementOf(<http://x/A>))" = ([too_many_closing], Ok tree).
Proof.
  assert (H : exists out tree, parse "ObjectComplementOf(<http://x/A>))" = (out, Ok tree))
    by (do 2 eexists; vm_compute; reflexivity).
  destruct H as (out & tree & H). exists tree.
  rewrite H. f_equal.
  apply (proj2 printed_diagnostics _ _ _ H).
Defined.

Lemma fold_extend (w : string) (vs : list restriction) : forall acc,
  List.fold_left (fun a vi => a ++ (" " ++ w ++ " ") ++ verbal (r_class vi)) vs acc
  = acc ++ String.concat ""
             (List.map (fun vi => (" " ++ w ++ " ") ++ verbal (r_class vi)) vs).
Proof.
  induction vs as [|v vs IH]; intros acc.
  - simpl. rewrite append_nil_r. reflexivity.
  - cbn [List.fold_left List.map]. rewrite IH.
    destruct vs as [|v' vs'].
    + simpl. rewrite append_nil_r. reflexivity.
    + cbn [String.concat List.map]. rewrite append_assoc. reflexivity.
Qed.

Lemma concat_join (sep : string) (x : string) (xs : list string) :
  x ++ String.concat "" (List.map (fun y => sep ++ y) xs) = join sep (x :: xs).
Proof.
  revert x. induction xs as [|y xs IH]; intros x.
  - simpl. apply append_nil_r.
  - rewrite join_cons. rewrite <- IH. f_equal.
    destruct xs as [|z xs]; simpl; [rewrite !append_nil_r; reflexivity|].
    rewrite append_assoc. reflexivity.
Qed.

(** X20.  A group of restrictions on one property is rendered as the text
    of its first member followed, for each further member, by the junction
    word and the text of that member's filler alone, so the property and
    the quantifier word appear once.  The result keeps the property and the
    type of the first member; its class is a junction of the fillers in
    their order, rendered as the fillers joined by the junction word.  A
    group of one is the restriction itself. *)
Theorem merged_group_rendering :
  forall junction_word junction_type v0 vs,
    let sep := " " ++ junction_word ++ " " in
    let merged := merge_group junction_word junction_type v0 vs in
    verbal merged = join sep (r_verbal v0 :: List.map (fun v => verbal (r_class v)) vs) /\
    (vs = [] -> merged = cfg_of_restriction v0) /\
    (vs <> [] ->
     merged =
       RestrictionCfg (verbal merged) (r_property v0)
         (JunctionCfg
            (join sep (List.map (fun v => verbal (r_class v)) (v0 :: vs)))
            (List.map r_class (v0 :: vs)) junction_type)
         (r_type v0)).
Proof.
  intros w ty v0 vs sep merged.
  assert (F : forall acc,
            List.fold_left (fun a vi => a ++ sep ++ verbal (r_class vi)) vs acc
            = join sep (acc :: List.map (fun v => verbal (r_class v)) vs)).
  { intros acc. unfold sep. rewrite fold_extend, <- concat_join, map_map. reflexivity. }
  split; [|split].
  - unfold merged, merge_group. destruct vs as [|v vs']; [reflexivity|].
    cbn [verbal]. apply F.
  - intros ->. reflexivity.
  - intros N. unfold merged, merge_group. destruct vs as [|v vs']; [contradiction|].
    cbn [verbal]. fold sep. rewrite !F. reflexivity.
Qed.

Lemma merged_group_rendering_witness :
  let r := IriCfg "r" "http://x/r" in
  let v1 := mkRestriction "r some C1" r (IriCfg "C1" "http://x/C1") "EX." in
  let v2 := mkRestriction "r some C2" r (IriCfg "C2" "http://x/C2") "EX." in
  merge_group "and" "AND" v1 [v2] =
    RestrictionCfg "r some C1 and C2" r
      (JunctionCfg "C1 and C2" [IriCfg "C1" "http://x/C1"; IriCfg "C2" "http://x/C2"] "AND")
      "EX.".
Proof.
  intros r v1 v2.
  rewrite (proj2 (proj2 (merged_group_rendering "and" "AND" v1 [v2]))) by discriminate.
  reflexivity.
Defined.
